(** * FuzzerDriver: flag parsing and the driver's auxiliary algorithms

    A shallow embedding of [libfuzzer/FuzzerDriver.cpp]: the flag registry
    and parser ([FlagValue], [MyStol], [ParseOneFlag], [ParseFlags]), the
    worker pool ([WorkerThread], [RunInMultipleProcesses]), the crash
    cleanser ([CleanseCrashInput]), the merge driver ([Merge]), the
    dictionary analyzer ([AnalyzeDictionary]) and the seed-input parser
    ([ParseSeedInuts]); then the help ([PrintHelp]), the smaller helpers
    ([ValidateDirectoryExists], [CloneArgsWithoutX],
    [GetDedupTokenFromCmdOutput], [ReadCorpora]) and the start of
    [FuzzerDriver], up to its choice between one process and many.

    Part I holds the embedding, Part II the properties. *)

From Stdlib Require Import ZArith Lia Ascii String.
From stdpp Require Import base option list list_numbers gmap strings pretty.
From Equations Require Import Equations.

Local Open Scope Z_scope.

(* ================================================================== *)
(** * Part I: the embedding                                            *)
(* ================================================================== *)

(** ** Machine integers

    [int] and [unsigned] are 32 bits wide, [long] and [size_t] 64 bits
    (LP64).  Values are kept in [Z]; every operation that can leave the
    range is followed by the conversion that brings it back, as two's
    complement hardware does. *)

Definition to_unsigned (z : Z) : Z := z mod 2 ^ 32.
Definition to_int (z : Z) : Z := (z + 2 ^ 31) mod 2 ^ 32 - 2 ^ 31.
Definition to_long (z : Z) : Z := (z + 2 ^ 63) mod 2 ^ 64 - 2 ^ 63.
Definition to_size_t (z : Z) : Z := z mod 2 ^ 64.

(** ** C strings

    A [const char *] is modelled by the [string] of the characters that
    precede its terminating NUL; reading the position just past them gives
    the terminator.  A null pointer is [None]. *)

Definition NUL : ascii := Ascii.zero.

Definition char_at (s : string) (i : nat) : ascii :=
  default NUL (String.get i s).

Definition strlen (s : string) : nat := String.length s.

(** [ptr_add s n] is the string seen through the pointer [s + n]. *)
Fixpoint ptr_add (s : string) (n : nat) {struct n} : string :=
  match n with
  | O => s
  | S n' =>
      match s with
      | String _ s' => ptr_add s' n'
      | EmptyString => EmptyString
      end
  end.

(** [strstr haystack needle]: the offset of the first occurrence of
    [needle] in [haystack], [None] for a null result. *)
Fixpoint strstr (haystack needle : string) : option nat :=
  if String.prefix needle haystack then Some O
  else match haystack with
       | EmptyString => None
       | String _ h => S <$> strstr h needle
       end.

(** ** FlagValue (FuzzerDriver.cpp, lines 122-128) *)

Definition FlagValue (Param Name : string) : option string :=
  let Len := strlen Name in
  if Ascii.eqb (char_at Param 0) "-"
     && bool_decide (strstr (ptr_add Param 1) Name = Some O)
     && Ascii.eqb (char_at Param (Len + 1)) "="
  then Some (ptr_add Param (Len + 2))
  else None.

(** ** MyStol (FuzzerDriver.cpp, lines 132-146) *)

(** The [for] loop of [MyStol]: [Str] is what is left to read, starting at
    [Str[i]].  The loop ends at the terminator (a NUL inside [Str] ends it
    the same way).  [long] arithmetic that overflows, which C++ leaves
    undefined, wraps. *)
Fixpoint MyStol_loop (Str : string) (Res Sign : Z) : Z :=
  match Str with
  | EmptyString => to_long (Res * Sign)
  | String Ch Str' =>
      if Ascii.eqb Ch NUL then to_long (Res * Sign)
      else if Ascii.ltb Ch "0" || Ascii.ltb "9" Ch then Res
      else MyStol_loop Str'
             (to_long (Res * 10 + (Z.of_N (N_of_ascii Ch) - 48))) Sign
  end.

Definition MyStol (Str : string) : Z :=
  if Ascii.eqb (char_at Str 0) "-"
  then MyStol_loop (ptr_add Str 1) 0 (-1)
  else MyStol_loop Str 0 1.

(** ** Output

    A line written by [Printf] is kept as its format string, spelled as in
    the source, with the arguments passed for its conversions. *)

Inductive Arg :=
| AStr (s : string)
| AInt (z : Z)
| APtr (address : Z).

Record Line := Printf { fmt : string; args : list Arg }.

(** ** The flag registry (FuzzerDriver.cpp, lines 49-88)

    A row's [IntFlag], [StrFlag] and [UIntFlag] point to a field of the
    global [Flags]; a pointer is modelled by the name of the field it points
    to, a null pointer by [None]. *)

Record FlagDescription := {
  Name : string;
  Description : string;
  Default : Z;
  IntFlag : option string;
  StrFlag : option string;
  UIntFlag : option string
}.

(** The four macros that generate the rows from [FuzzerFlags.def]. *)
Definition FUZZER_DEPRECATED_FLAG (Name : string) : FlagDescription :=
  {| Name := Name; Description := "Deprecated; don't use"; Default := 0;
     IntFlag := None; StrFlag := None; UIntFlag := None |}.
Definition FUZZER_FLAG_INT (Name : string) (Default : Z) (Description : string)
  : FlagDescription :=
  {| Name := Name; Description := Description; Default := Default;
     IntFlag := Some Name; StrFlag := None; UIntFlag := None |}.
Definition FUZZER_FLAG_UNSIGNED (Name : string) (Default : Z)
  (Description : string) : FlagDescription :=
  {| Name := Name; Description := Description; Default := to_int Default;
     IntFlag := None; StrFlag := None; UIntFlag := Some Name |}.
Definition FUZZER_FLAG_STRING (Name Description : string) : FlagDescription :=
  {| Name := Name; Description := Description; Default := 0;
     IntFlag := None; StrFlag := Some Name; UIntFlag := None |}.

(** The global [Flags]: one field per registered flag, addressed by its
    name.  [int] and [unsigned int] fields live in [nums] (a field never
    written reads as zero, as static storage does), [const char *] fields in
    [strs] (an absent key is a null pointer). *)
Record FlagsStruct := {
  nums : gmap string Z;
  strs : gmap string string
}.

Definition num (F : FlagsStruct) (field : string) : Z :=
  default 0 (nums F !! field).
Definition set_num (field : string) (v : Z) (F : FlagsStruct) : FlagsStruct :=
  {| nums := <[field := v]> (nums F); strs := strs F |}.
Definition set_str (field : string) (v : option string) (F : FlagsStruct)
  : FlagsStruct :=
  {| nums := nums F;
     strs := match v with
             | Some s => <[field := s]> (strs F)
             | None => delete field (strs F)
             end |}.

(** [ExternalFunctions]: optional callbacks, each the address of the
    function or null. *)
Record ExternalFunctions := {
  LLVMFuzzerInitialize : option Z;
  LLVMFuzzerCustomMutator : option Z
}.

(** The driver's global state: [Flags], the function-local static
    [PrintedWarning] of [ParseOneFlag], [Inputs], and what was printed. *)
Record DriverState := {
  Flags : FlagsStruct;
  PrintedWarning : bool;
  Inputs : list string;
  Out : list Line
}.

Definition print (l : Line) (st : DriverState) : DriverState :=
  {| Flags := Flags st; PrintedWarning := PrintedWarning st;
     Inputs := Inputs st; Out := Out st ++ [l] |}.
Definition with_Flags (F : FlagsStruct) (st : DriverState) : DriverState :=
  {| Flags := F; PrintedWarning := PrintedWarning st;
     Inputs := Inputs st; Out := Out st |}.
Definition with_PrintedWarning (b : bool) (st : DriverState) : DriverState :=
  {| Flags := Flags st; PrintedWarning := b;
     Inputs := Inputs st; Out := Out st |}.
Definition with_Inputs (I : list string) (st : DriverState) : DriverState :=
  {| Flags := Flags st; PrintedWarning := PrintedWarning st;
     Inputs := I; Out := Out st |}.

Section Parser.

(** The rows come from [FuzzerFlags.def], which is not among the sources:
    the table is a parameter.  [std::stoul] is the C++ library's; [None]
    stands for the exception it throws, which nothing catches. *)
Variable FlagDescriptions : list FlagDescription.
Variable stoul : string -> option Z.

(** ** ParseOneFlag (FuzzerDriver.cpp, lines 149-192) *)

(** The loop of the [--] branch (lines 157-159). *)
Fixpoint DidYouMean (Param : string) (Fs : list FlagDescription)
  (st : DriverState) : DriverState :=
  match Fs with
  | [] => st
  | D :: Fs' =>
      DidYouMean Param Fs'
        match FlagValue (ptr_add Param 1) (Name D) with
        | Some _ =>
            print (Printf "WARNING: did you mean '%s' (single dash)?\n"
                     [AStr (ptr_add Param 1)]) st
        | None => st
        end
  end.

Definition log_flag (l : Line) (st : DriverState) : DriverState :=
  if 2 <=? num (Flags st) "verbosity" then print l st else st.

(** The loop over the registry (lines 162-191); [None] when [std::stoul]
    throws. *)
Fixpoint FindFlag (Param : string) (Fs : list FlagDescription)
  (st : DriverState) : option (bool * DriverState) :=
  match Fs with
  | [] =>
      Some (true,
            print (Printf "\n\nWARNING: unrecognized flag '%s'; use -help=1 to list all flags\n\n"
                     [AStr Param]) st)
  | D :: Fs' =>
      match FlagValue Param (Name D) with
      | Some Str =>
          match IntFlag D, UIntFlag D, StrFlag D with
          | Some p, _, _ =>
              let Val := MyStol Str in
              let st := with_Flags (set_num p (to_int Val) (Flags st)) st in
              Some (true,
                    log_flag (Printf "Flag: %s %d\n" [AStr (Name D); AInt Val]) st)
          | None, Some p, _ =>
              Val ← stoul Str;
              let st := with_Flags (set_num p (to_unsigned Val) (Flags st)) st in
              Some (true,
                    log_flag (Printf "Flag: %s %u\n" [AStr (Name D); AInt Val]) st)
          | None, None, Some p =>
              let st := with_Flags (set_str p (Some Str) (Flags st)) st in
              Some (true,
                    log_flag (Printf "Flag: %s %s\n" [AStr (Name D); AStr Str]) st)
          | None, None, None =>
              Some (true,
                    print (Printf "Flag: %s: deprecated, don't use\n"
                             [AStr (Name D)]) st)
          end
      | None => FindFlag Param Fs' st
      end
  end.

Definition ParseOneFlag (Param : string) (st : DriverState)
  : option (bool * DriverState) :=
  if negb (Ascii.eqb (char_at Param 0) "-") then Some (false, st)
  else if Ascii.eqb (char_at Param 1) "-" then
    let st :=
      if negb (PrintedWarning st) then
        print (Printf "INFO: libFuzzer ignores flags that start with '--'\n" [])
          (with_PrintedWarning true st)
      else st in
    Some (true, DidYouMean Param FlagDescriptions st)
  else FindFlag Param FlagDescriptions st.

(** ** ParseFlags (FuzzerDriver.cpp, lines 196-224) *)

(** One round of the first loop (lines 199-205). *)
Definition InitFlag (D : FlagDescription) (F : FlagsStruct) : FlagsStruct :=
  let F := match IntFlag D with
           | Some p => set_num p (Default D) F
           | None => F
           end in
  let F := match UIntFlag D with
           | Some p => set_num p (to_unsigned (Default D)) F
           | None => F
           end in
  match StrFlag D with
  | Some p => set_str p None F
  | None => F
  end.

Fixpoint InitFlags (Fs : list FlagDescription) (F : FlagsStruct)
  : FlagsStruct :=
  match Fs with
  | [] => F
  | D :: Fs' => InitFlags Fs' (InitFlag D F)
  end.

(** The loop over the arguments (lines 216-223), from position [A] on. *)
Fixpoint ParseArgs (Args : list string) (st : DriverState)
  : option DriverState :=
  match Args with
  | [] => Some st
  | Arg :: Args' =>
      '(parsed, st) ← ParseOneFlag Arg st;
      if (parsed : bool) then
        if negb (num (Flags st) "ignore_remaining_args" =? 0) then Some st
        else ParseArgs Args' st
      else ParseArgs Args' (with_Inputs (Inputs st ++ [Arg]) st)
  end.

Definition ParseFlags (Args : list string) (EF : ExternalFunctions)
  (st : DriverState) : option DriverState :=
  let st := with_Flags (InitFlags FlagDescriptions (Flags st)) st in
  let st :=
    match LLVMFuzzerCustomMutator EF with
    | Some CustomMutator =>
        print (Printf "INFO: found LLVMFuzzerCustomMutator (%p). Disabling -len_control by default.\n"
                 [APtr CustomMutator])
          (with_Flags (set_num "len_control" 0 (Flags st)) st)
    | None => st
    end in
  ParseArgs (drop 1 Args) (with_Inputs [] st).

End Parser.

(** The state of a process that has not run [ParseFlags] yet. *)
Definition initial_state : DriverState :=
  {| Flags := {| nums := ∅; strs := ∅ |}; PrintedWarning := false;
     Inputs := []; Out := [] |}.

(** ** Effects and outcomes of the driver's modes

    What a mode does to the outside world is kept as the list of its
    effects, in order.  [Unit] is [std::vector<uint8_t>]; a byte is its
    value in [0, 256). *)

Abbreviation Unit := (list Z).

Inductive Effect :=
| EPrintf (l : Line)
| EPrintASCII (U : Unit) (PrintAfter : string)
| EWriteToFile (U : Unit) (Path : string)
| ERemoveFile (Path : string)
| EExecuteCommand (ExitCode : Z)
| ECopyFileToErr (Path : string)
| EWriteToOutputCorpus (U : Unit).

(** How a call ends: it returns, it ends the process with [exit], or it
    reads through a null pointer. *)
Inductive Outcome (A : Type) :=
| Returns (a : A)
| Exits (status : Z)
| Undefined.
Arguments Returns {A} a.
Arguments Exits {A} status.
Arguments Undefined {A}.

(** ** The worker pool (FuzzerDriver.cpp, lines 237-258 and 295-314)

    The threads share [Counter] and [HasErrors] only, and touch them by
    atomic operations.  One round of a worker's loop is taken as one step:
    its fetch-and-increment is atomic, and what follows it in the round
    reads and writes nothing another worker's fetch depends on.  An
    interleaving of the workers is the list of the thread indices in the
    order their rounds take effect. *)

Inductive ThreadStatus := InLoop | LeftLoop.

Record PoolState := {
  Counter : Z;
  HasErrors : bool;
  Threads : list ThreadStatus;
  Claimed : list (nat * Z);
  PoolOut : list Effect
}.

Section WorkerPool.

(** [ExecuteCommand C] is the exit code of the subprocess of job [C] (the
    base command with its output sent to [fuzz-C.log]), [CommandLine C] what
    [Cmd.toString()] gives for it; [Flags] is the global of that name. *)
Variable ExecuteCommand : Z -> Z.
Variable CommandLine : Z -> string.
Variable Flags : FlagsStruct.

(** One round of the [while (true)] of [WorkerThread], run by thread [t];
    [Claimed] records which thread fetched which job id. *)
Definition WorkerRound (NumJobs : Z) (t : nat) (s : PoolState) : PoolState :=
  let C := Counter s in
  let Counter' := to_unsigned (C + 1) in
  if NumJobs <=? C then
    {| Counter := Counter'; HasErrors := HasErrors s;
       Threads := <[t := LeftLoop]> (Threads s);
       Claimed := Claimed s; PoolOut := PoolOut s |}
  else
    let Log := "fuzz-" +:+ pretty C +:+ ".log" in
    let ExitCode := ExecuteCommand C in
    {| Counter := Counter';
       HasErrors := if negb (ExitCode =? 0) then true else HasErrors s;
       Threads := Threads s;
       Claimed := Claimed s ++ [(t, C)];
       PoolOut := PoolOut s ++
         (if negb (num Flags "verbosity" =? 0)
          then [EPrintf (Printf "%s\n" [AStr (CommandLine C)])] else []) ++
         [EExecuteCommand ExitCode;
          EPrintf (Printf "================== Job %u exited with exit code %d ============\n"
                     [AInt C; AInt ExitCode]);
          ECopyFileToErr Log] |}.

(** The scheduler lets thread [t] run its next round; a thread that has
    left its loop, or does not exist, has none. *)
Definition sched_step (NumJobs : Z) (s : PoolState) (t : nat) : PoolState :=
  match Threads s !! t with
  | Some InLoop => WorkerRound NumJobs t s
  | _ => s
  end.

Definition run_schedule (NumJobs : Z) (sched : list nat) (s : PoolState)
  : PoolState :=
  foldl (sched_step NumJobs) s sched.

Definition pool_start (NumWorkers : Z) : PoolState :=
  {| Counter := 0; HasErrors := false;
     Threads := replicate (Z.to_nat NumWorkers) InLoop;
     Claimed := []; PoolOut := [] |}.

Definition all_joined (s : PoolState) : bool :=
  forallb (fun st => match st with LeftLoop => true | InLoop => false end)
    (Threads s).

(** [RunInMultipleProcesses] under the interleaving [sched]: the joins
    return once every worker has left its loop ([None]: under [sched] some
    worker is still in its loop). *)
Definition RunInMultipleProcesses (NumWorkers NumJobs : Z) (sched : list nat)
  : option (Z * PoolState) :=
  let s := run_schedule NumJobs sched (pool_start NumWorkers) in
  if all_joined s then Some (if HasErrors s then 1 else 0, s) else None.

End WorkerPool.

(** ** CleanseCrashInput (FuzzerDriver.cpp, lines 367-420) *)

Definition ReplacementBytes : list Z := [32; 255].

(** The locals of [CleanseCrashInput] that its loops change, the effects so
    far, and [Steps]: the value of [U] at the end of each round of the
    innermost loop, kept for the statements about them. *)
Record CleanseState := {
  U : Unit;
  Changed : bool;
  Effects : list Effect;
  Steps : list Unit
}.

Section Cleanse.

(** [ExecuteCommand Content] is the exit code of [Cmd] (the arguments
    without [-cleanse_crash] and the input, with [TmpFilePath] added and
    the output sent to the null device) when the temporary file holds
    [Content]: the subprocess is taken to do the same on the same input.
    [FileToVector] reads a file; [TmpFilePath] is what [TempPath]
    returned. *)
Variable ExecuteCommand : Unit -> Z.
Variable FileToVector : string -> Unit.
Variable TmpFilePath : string.

Section CleanseLoops.

Variable OutputFilePath : string.

(** The loop over [ReplacementBytes] (lines 402-415), with [Bytes] the
    candidates still to try. *)
Fixpoint TryReplacements (Idx : nat) (OriginalByte : Z) (Bytes : list Z)
  (st : CleanseState) : CleanseState :=
  match Bytes with
  | [] => st
  | NewByte :: Bytes' =>
      let U1 := <[Idx := NewByte]> (U st) in
      let ExitCode := ExecuteCommand U1 in
      let ran := [EWriteToFile U1 TmpFilePath; EExecuteCommand ExitCode;
                  ERemoveFile TmpFilePath] in
      if ExitCode =? 0 then
        let U2 := <[Idx := OriginalByte]> U1 in
        TryReplacements Idx OriginalByte Bytes'
          {| U := U2; Changed := Changed st;
             Effects := Effects st ++ ran; Steps := Steps st ++ [U2] |}
      else
        {| U := U1; Changed := true;
           Effects := Effects st ++ ran ++
             [EPrintf (Printf "CLEANSE: Replaced byte %zd with 0x%x\n"
                         [AInt (Z.of_nat Idx); AInt NewByte]);
              EWriteToFile U1 OutputFilePath];
           Steps := Steps st ++ [U1] |}
  end.

(** The body of the loop over [Idx] (lines 395-415). *)
Definition CleanseByte (NumAttempts Size : nat) (st : CleanseState) (Idx : nat)
  : CleanseState :=
  let st :=
    {| U := U st; Changed := Changed st;
       Effects := Effects st ++
         [EPrintf (Printf "CLEANSE[%d]: Trying to replace byte %zd of %zd\n"
                     [AInt (Z.of_nat NumAttempts); AInt (Z.of_nat Idx);
                      AInt (Z.of_nat Size)])];
       Steps := Steps st |} in
  let OriginalByte := U st !!! Idx in
  if bool_decide (OriginalByte ∈ ReplacementBytes) then st
  else TryReplacements Idx OriginalByte ReplacementBytes st.

(** One round of the loop over [NumAttempts], up to its [break]. *)
Definition CleansePass (NumAttempts Size : nat) (st : CleanseState)
  : CleanseState :=
  foldl (CleanseByte NumAttempts Size)
    {| U := U st; Changed := false; Effects := Effects st; Steps := Steps st |}
    (seq 0 Size).

(** The loop over [NumAttempts] (lines 392-418) with [n] rounds left. *)
Fixpoint CleanseAttempts (n NumAttempts Size : nat) (st : CleanseState)
  : CleanseState :=
  match n with
  | O => st
  | S n' =>
      let st := CleansePass NumAttempts Size st in
      if Changed st then CleanseAttempts n' (S NumAttempts) Size st else st
  end.

End CleanseLoops.

(** [Inputs] and [Flags] are the globals of these names. *)
Definition CleanseCrashInput (Inputs : list string) (Flags : FlagsStruct)
  : Outcome Z * CleanseState :=
  if negb (length Inputs =? 1)%nat
     || negb (bool_decide (is_Some (strs Flags !! "exact_artifact_path")))
  then
    (Exits 1,
     {| U := []; Changed := false;
        Effects :=
          [EPrintf (Printf "ERROR: -cleanse_crash should be given one input file and -exact_artifact_path\n" [])];
        Steps := [] |})
  else
    let InputFilePath := default EmptyString (Inputs !! O) in
    let OutputFilePath :=
      default EmptyString (strs Flags !! "exact_artifact_path") in
    let U0 := FileToVector InputFilePath in
    let Size := length U0 in
    (Returns 0,
     CleanseAttempts OutputFilePath 5 0 Size
       {| U := U0; Changed := false; Effects := []; Steps := [] |}).

End Cleanse.

(** ** Merge (FuzzerDriver.cpp, lines 523-557) *)

Abbreviation SizedFile := (string * Z)%type.

Section Merge.

(** The collaborators of [Merge], none of them in this file:
    [GetSizedFilesFromDir] lists a directory, [sort] is [std::sort] on
    [SizedFile], [CrashResistantMerge] returns [NewFiles]. *)
Variable GetSizedFilesFromDir : string -> list SizedFile.
Variable sort : list SizedFile -> list SizedFile.
Variable TempPath : string -> string -> string.
Variable CrashResistantMerge :
  list string -> list SizedFile -> list SizedFile -> string -> bool ->
  list string.
Variable FileToVector : string -> Z -> Unit.

Definition Merge (Flags : FlagsStruct) (MaxLen : Z) (Args Corpora : list string)
  (CFPathOrNull : option string) : list Effect * Outcome unit :=
  if (length Corpora <? 2)%nat then
    ([EPrintf (Printf "INFO: Merge requires two or more corpus dirs\n" [])],
     Exits 0)
  else
    let OldCorpus :=
      sort (GetSizedFilesFromDir (default EmptyString (Corpora !! O))) in
    let NewCorpus :=
      sort (concat (GetSizedFilesFromDir <$> drop 1 Corpora)) in
    let CFPath := default (TempPath "Merge" ".txt") CFPathOrNull in
    let NewFiles :=
      CrashResistantMerge Args OldCorpus NewCorpus CFPath
        (negb (num Flags "set_cover_merge" =? 0)) in
    (((fun Path => EWriteToOutputCorpus (FileToVector Path MaxLen)) <$> NewFiles)
       ++ match strs Flags !! "merge_control_file" with
          | None => [ERemoveFile CFPath]
          | Some _ => []
          end,
     Exits 0).

End Merge.

(** ** AnalyzeDictionary (FuzzerDriver.cpp, lines 559-623) *)

(** [std::search] over [Data] for [Pattern]: the offset of the first
    occurrence, the length of [Data] when there is none (the end iterator),
    and [0] when [Pattern] is empty. *)
Fixpoint is_prefix (Pattern Data : Unit) : bool :=
  match Pattern, Data with
  | [], _ => true
  | _ :: _, [] => false
  | p :: Pattern', d :: Data' => (p =? d) && is_prefix Pattern' Data'
  end.

Fixpoint search (Data Pattern : Unit) : nat :=
  if is_prefix Pattern Data then O
  else match Data with
       | [] => O
       | _ :: Data' => S (search Data' Pattern)
       end.

(** [std::search(Data.begin() + Pos, Data.end(), ...)], as an offset into
    [Data]. *)
Definition search_from (Data : Unit) (Pos : nat) (Pattern : Unit) : nat :=
  (Pos + search (drop Pos Data) Pattern)%nat.

(** [*It ^= 0xFF] for [It] from [StartPos] up to [EndPos]. *)
Definition mask_range (Data : Unit) (StartPos EndPos : nat) : Unit :=
  take StartPos Data
    ++ ((fun b => Z.lxor b 255) <$> take (EndPos - StartPos) (drop StartPos Data))
    ++ drop EndPos Data.

(** The [while (StartPos != Data.end())] loop (lines 587-595).  It runs
    at most [fuel] rounds; [None] when that is not enough. *)
Fixpoint MaskOccurrences (fuel : nat) (Token Data : Unit) (StartPos : nat)
  : option Unit :=
  if (StartPos =? length Data)%nat then Some Data
  else match fuel with
       | O => None
       | S fuel' =>
           let EndPos := (StartPos + length Token)%nat in
           let Data := mask_range Data StartPos EndPos in
           MaskOccurrences fuel' Token Data (search_from Data EndPos Token)
       end.

Record AnalyzeState (FuzzerState : Type) := {
  Fz : FuzzerState;
  Scores : list Z;
  Usages : list Z
}.
Arguments Fz {FuzzerState}.
Arguments Scores {FuzzerState}.
Arguments Usages {FuzzerState}.

Section AnalyzeDictionary.

(** The fuzzer and the coverage collector are collaborators:
    [ExecuteCallback] runs the target on a unit and [CollectFeatures] lists
    the features the last run left in [TPC]. *)
Variable FuzzerState : Type.
Variable ExecuteCallback : FuzzerState -> Unit -> FuzzerState.
Variable CollectFeatures : FuzzerState -> list Z.

(** The body of the loop over the dictionary (lines 579-607) for the unit
    [C] and the token [Dict[i]].  A buffer of [n] bytes holds at most [n]
    occurrences of a token that is not empty, so [S n] rounds of the masking
    loop are as many as it ever takes: [None] is a loop that has no end. *)
Definition AnalyzeToken (InitialFeatures : list Z) (C : Unit) (i : nat)
  (Token : Unit) (st : AnalyzeState FuzzerState)
  : option (AnalyzeState FuzzerState) :=
  let Data := C in
  let StartPos := search Data Token in
  if (StartPos =? length Data)%nat then Some st
  else
    let Usages' := alter (fun n => to_int (n + 1)) i (Usages st) in
    Data ← MaskOccurrences (S (length Data)) Token Data StartPos;
    let Fz' := ExecuteCallback (Fz st) Data in
    let ModifiedFeatures := CollectFeatures Fz' in
    Some {| Fz := Fz';
            Scores :=
              if bool_decide (InitialFeatures = ModifiedFeatures)
              then alter (fun n => to_int (n - 1)) i (Scores st)
              else alter (fun n => to_int (n + 2)) i (Scores st);
            Usages := Usages' |}.

(** The loop over the dictionary, at index [i] with [Tokens] still to
    come. *)
Fixpoint AnalyzeTokens (InitialFeatures : list Z) (C : Unit) (i : nat)
  (Tokens : list Unit) (st : AnalyzeState FuzzerState)
  : option (AnalyzeState FuzzerState) :=
  match Tokens with
  | [] => Some st
  | Token :: Tokens' =>
      st ← AnalyzeToken InitialFeatures C i Token st;
      AnalyzeTokens InitialFeatures C (S i) Tokens' st
  end.

(** The loop over the corpus (lines 570-609). *)
Fixpoint AnalyzeCorpus (Dict : list Unit) (Corpus : list Unit)
  (st : AnalyzeState FuzzerState) : option (AnalyzeState FuzzerState) :=
  match Corpus with
  | [] => Some st
  | C :: Corpus' =>
      let Fz' := ExecuteCallback (Fz st) C in
      let InitialFeatures := CollectFeatures Fz' in
      st ← AnalyzeTokens InitialFeatures C 0 Dict
             {| Fz := Fz'; Scores := Scores st; Usages := Usages st |};
      AnalyzeCorpus Dict Corpus' st
  end.

Definition dquote : string := String (ascii_of_nat 34) EmptyString.

(** The report loop (lines 612-620), at index [i]. *)
Fixpoint PrintUseless (i : nat) (Tokens : list Unit) (Scores Usages : list Z)
  : list Effect :=
  match Tokens with
  | [] => []
  | Token :: Tokens' =>
      (if 0 <? Scores !!! i then []
       else [EPrintf (Printf dquote []);
             EPrintASCII Token dquote;
             EPrintf (Printf " # Score: %d, Used: %d\n"
                        [AInt (Scores !!! i); AInt (Usages !!! i)])])
      ++ PrintUseless (S i) Tokens' Scores Usages
  end.

(** [None]: the call does not return. *)
Definition AnalyzeDictionary (F : FuzzerState) (Dict : list Unit)
  (Corpus : list Unit)
  : option (Z * AnalyzeState FuzzerState * list Effect) :=
  let started :=
    EPrintf (Printf "Started dictionary minimization (up to %zu tests)\n"
               [AInt (to_size_t (Z.of_nat (length Dict) * Z.of_nat (length Corpus) * 2))]) in
  st ← AnalyzeCorpus Dict Corpus
         {| Fz := F; Scores := replicate (length Dict) 0;
            Usages := replicate (length Dict) 0 |};
  Some (0, st,
        [started;
         EPrintf (Printf "###### Useless dictionary elements. ######\n" [])]
        ++ PrintUseless 0 Dict (Scores st) (Usages st)
        ++ [EPrintf (Printf "###### End of useless dictionary elements. ######\n" [])]).

End AnalyzeDictionary.

(** ** ParseSeedInuts (FuzzerDriver.cpp, lines 625-646) *)

(** [std::string::find_last_of(c)]; [None] is [npos]. *)
Fixpoint find_last_of (s : string) (c : ascii) : option nat :=
  match s with
  | EmptyString => None
  | String c' s' =>
      match find_last_of s' c with
      | Some p => Some (S p)
      | None => if Ascii.eqb c' c then Some O else None
      end
  end.

Fixpoint string_take (n : nat) (s : string) : string :=
  match n, s with
  | S n', String c s' => String c (string_take n' s')
  | _, _ => EmptyString
  end.

(** [s.substr(pos, count)] and [s.substr(pos)], for [pos] within [s]. *)
Definition substr (s : string) (pos count : nat) : string :=
  string_take count (ptr_add s pos).
Definition substr_from (s : string) (pos : nat) : string := ptr_add s pos.

Definition inspect {A} (a : A) : {b | a = b} := exist _ a eq_refl.

(** The [while] loop (lines 640-643): each round cuts [SeedInputs] at its
    last comma, so it gets shorter. *)
Equations SplitSeedInputs (SeedInputs : string) (Files : list string)
  : list string by wf (String.length SeedInputs) lt :=
SplitSeedInputs SeedInputs Files
  with inspect (find_last_of SeedInputs ",") := {
  | exist _ (Some comma_pos) Heq =>
      SplitSeedInputs (substr SeedInputs 0 comma_pos)
        (Files ++ [substr_from SeedInputs (comma_pos + 1)])
  | exist _ None _ => Files ++ [SeedInputs] }.
Next Obligation.
  assert (Hpos : forall s p, find_last_of s "," = Some p ->
                             (p < String.length s)%nat).
  { intros s. induction s as [|c' s IH]; simpl; intros p; [done|].
    destruct (find_last_of s ",") as [q|].
    - intros [= <-]. specialize (IH q eq_refl). lia.
    - destruct (Ascii.eqb c' ","); [intros [= <-]; lia | done]. }
  assert (Hlen : forall n s, (String.length (string_take n s) <= n)%nat).
  { intros n. induction n as [|n IH]; intros [|c s]; simpl; try lia.
    specialize (IH s). lia. }
  apply Hpos in Heq. unfold substr. cbn [ptr_add].
  specialize (Hlen comma_pos SeedInputs). lia.
Qed.

Section ParseSeedInuts.

Variable FileToString : string -> string.

(** The function tests its parameter for null and then reads the global
    [Flags.seed_inputs]. *)
Definition ParseSeedInuts (Flags : FlagsStruct) (seed_inputs : option string)
  : list Effect * Outcome (list string) :=
  match seed_inputs with
  | None => ([], Returns [])
  | Some _ =>
      match strs Flags !! "seed_inputs" with
      | None => ([], Undefined)
      | Some Flags_seed_inputs =>
          let SeedInputs :=
            if Ascii.eqb (char_at Flags_seed_inputs 0) "@"
            then FileToString (ptr_add Flags_seed_inputs 1)
            else Flags_seed_inputs in
          if (String.length SeedInputs =? 0)%nat then
            ([EPrintf (Printf "seed_inputs is empty or @file does not exist.\n" [])],
             Exits 1)
          else ([], Returns (SplitSeedInputs SeedInputs []))
      end
  end.

End ParseSeedInuts.

(** ** PrintHelp (FuzzerDriver.cpp, lines 94-119) *)

Section PrintHelp.

Variable FlagDescriptions : list FlagDescription.

(** The first loop (lines 104-106): the length of the longest name. *)
Definition MaxFlagLen : Z :=
  foldl (fun MaxFlagLen D => Z.max (Z.of_nat (strlen (Name D))) MaxFlagLen)
    0 FlagDescriptions.

(** The body of the second loop (lines 109-115).  The number of blanks is
    computed in [size_t]. *)
Definition PrintHelpRow (MaxFlagLen : Z) (D : FlagDescription) : list Line :=
  if bool_decide (strstr (Description D) "internal flag" = Some O) then []
  else
    [Printf " %s" [AStr (Name D)]]
    ++ replicate
         (Z.to_nat (to_size_t (MaxFlagLen - Z.of_nat (strlen (Name D)))))
         (Printf " " [])
    ++ [Printf "\t" [];
        Printf "%d\t%s\n" [AInt (Default D); AStr (Description D)]].

Definition PrintHelp (ProgName : string) : list Line :=
  [Printf "Usage:\n" [];
   Printf "\nTo run fuzzing pass 0 or more directories.\n" [];
   Printf "%s [-flag1=val1 [-flag2=val2 ...] ] [dir1 [dir2 ...] ]\n"
     [AStr ProgName];
   Printf "\nTo run individual tests without fuzzing pass 1 or more files:\n" [];
   Printf "%s [-flag1=val1 [-flag2=val2 ...] ] file1 [file2 ...]\n"
     [AStr ProgName];
   Printf "\nFlags: (strictly in form -flag=value)\n" []]
  ++ concat (PrintHelpRow MaxFlagLen <$> FlagDescriptions)
  ++ [Printf "\nFlags starting with '--' will be ignored and will be passed verbatim to subprocesses.\n" []].

End PrintHelp.

(** ** ValidateDirectoryExists (FuzzerDriver.cpp, lines 261-281) *)

(** The calls a function makes to the collaborators that act on the world,
    in order. *)
Inductive Call :=
| CPrintf (l : Line)
| CMkDirRecursive (Path : string)
| CDupAndCloseStderr
| CCloseStdout.

Section ValidateDirectoryExists.

(** [IsDirectory] and [MkDirRecursive] are the file system's answers. *)
Variable IsDirectory : string -> bool.
Variable MkDirRecursive : string -> bool.

Definition ValidateDirectoryExists (Path : string) (CreateDirectory : bool)
  : list Call * Outcome unit :=
  if (String.length Path =? 0)%nat then
    ([CPrintf (Printf "ERROR: Provided directory path is an empty string\n" [])],
     Exits 1)
  else if IsDirectory Path then ([], Returns tt)
  else if CreateDirectory then
    if negb (MkDirRecursive Path) then
      ([CMkDirRecursive Path;
        CPrintf (Printf ("ERROR: Failed to create directory " +:+ dquote
                           +:+ "%s" +:+ dquote +:+ "\n")
                   [AStr Path])],
       Exits 1)
    else ([CMkDirRecursive Path], Returns tt)
  else
    ([CPrintf (Printf ("ERROR: The required directory " +:+ dquote
                         +:+ "%s" +:+ dquote +:+ " does not exist\n")
                 [AStr Path])],
     Exits 1).

End ValidateDirectoryExists.

(** ** CloneArgsWithoutX (FuzzerDriver.cpp, lines 283-292) *)

Definition CloneArgsWithoutX (Args : list string) (X1 X2 : string) : string :=
  foldl (fun Cmd S =>
           if bool_decide (is_Some (FlagValue S X1))
              || bool_decide (is_Some (FlagValue S X2))
           then Cmd
           else Cmd +:+ (S +:+ " "))
    EmptyString Args.

(** ** GetDedupTokenFromCmdOutput (FuzzerDriver.cpp, lines 357-365) *)

Definition newline : ascii := ascii_of_nat 10.

(** [Str.find(c)] and [Str.find(c, pos)]; [None] is [npos]. *)
Fixpoint find_char (Str : string) (c : ascii) : option nat :=
  match Str with
  | EmptyString => None
  | String c' Str' => if Ascii.eqb c' c then Some O else S <$> find_char Str' c
  end.

Definition find_char_from (Str : string) (c : ascii) (pos : nat) : option nat :=
  (fun i => (pos + i)%nat) <$> find_char (ptr_add Str pos) c.

(** [S.find(str)] is the offset of the first occurrence, as [strstr]
    gives it. *)
Definition GetDedupTokenFromCmdOutput (S : string) : string :=
  match strstr S "DEDUP_TOKEN:" with
  | None => EmptyString
  | Some Beg =>
      match find_char_from S newline Beg with
      | None => EmptyString
      | Some End => substr S Beg (End - Beg)
      end
  end.

(** ** ReadCorpora (FuzzerDriver.cpp, lines 648-663) *)

Section ReadCorpora.

(** [GetSizedFilesFromDir Dir] is what the call appends to its vector,
    [FileSize File] the size the file system gives for [File]. *)
Variable GetSizedFilesFromDir : string -> list SizedFile.
Variable FileSize : string -> Z.

(** The loop over [CorpusDirs] (lines 653-658). *)
Fixpoint ReadCorpusDirs (CorpusDirs : list string)
  (SizedFiles : list SizedFile) (LastNumFiles : Z) (out : list Line)
  : list SizedFile * list Line :=
  match CorpusDirs with
  | [] => (SizedFiles, out)
  | Dir :: CorpusDirs' =>
      let SizedFiles := SizedFiles ++ GetSizedFilesFromDir Dir in
      ReadCorpusDirs CorpusDirs' SizedFiles (Z.of_nat (length SizedFiles))
        (out ++ [Printf "INFO: % 8zd files found in %s\n"
                   [AInt (to_long (Z.of_nat (length SizedFiles) - LastNumFiles));
                    AStr Dir]])
  end.

(** The loop over [ExtraSeedFiles] (lines 659-661). *)
Fixpoint AddSeedFiles (ExtraSeedFiles : list string)
  (SizedFiles : list SizedFile) : list SizedFile :=
  match ExtraSeedFiles with
  | [] => SizedFiles
  | File :: ExtraSeedFiles' =>
      let Size := FileSize File in
      AddSeedFiles ExtraSeedFiles'
        (if negb (Size =? 0) then SizedFiles ++ [(File, Size)] else SizedFiles)
  end.

Definition ReadCorpora (CorpusDirs ExtraSeedFiles : list string)
  : list SizedFile * list Line :=
  let '(SizedFiles, out) := ReadCorpusDirs CorpusDirs [] 0 [] in
  (AddSeedFiles ExtraSeedFiles SizedFiles, out).

End ReadCorpora.

(** ** FuzzerDriver, up to the choice between one process and many
       (FuzzerDriver.cpp, lines 666-713) *)

(** How far a run of [FuzzerDriver] gets before line 715: it leaves the
    function there, by [return] or [exit], or control reaches line 715,
    where the set-up of the fuzzer in this process begins. *)
Inductive DriverPath :=
| Leaves (o : Outcome Z)
| GoesOn.

(** What a run has done by then: the state of the globals, the calls made
    after [ParseFlags], in order, and the worker pool if one was run. *)
Record DriverRun := {
  Path : DriverPath;
  State : DriverState;
  Calls : list Call;
  Pool : option PoolState
}.

Section FuzzerDriver.

Variable FlagDescriptions : list FlagDescription.
Variable stoul : string -> option Z.

(** [Initialize argv] is what the binary's [LLVMFuzzerInitialize] leaves
    in [*argv] (with [*argc] its length); [NumberOfCpuCores] is the
    machine's; [ExecuteCommand] and [CommandLine] are those of the worker
    pool.  [__msan_scoped_disable_interceptor_checks] touches nothing that
    is modelled.  [jobs] and [workers] are [unsigned] fields: they are
    printed with [%u] and passed for [unsigned] parameters. *)
Variable Initialize : list string -> list string.
Variable NumberOfCpuCores : Z.
Variable ExecuteCommand : Z -> Z.
Variable CommandLine : Z -> string.

(** [None]: [std::stoul] throws in [ParseFlags], or under [sched] some
    worker is still in its loop. *)
Definition FuzzerDriver (argv : list string) (EF : ExternalFunctions)
  (sched : list nat) (st : DriverState) : option DriverRun :=
  match argv with
  | [] => Some {| Path := Leaves Undefined; State := st; Calls := [];
                  Pool := None |}
  | Argv0 :: _ =>
      let Args :=
        match LLVMFuzzerInitialize EF with
        | Some _ => Initialize argv
        | None => argv
        end in
      match Args with
      | [] => Some {| Path := Leaves Undefined; State := st; Calls := [];
                      Pool := None |}
      | ProgName :: _ =>
          if negb (String.eqb Argv0 ProgName) then
            Some {| Path := Leaves (Exits 1); State := st;
                    Calls := [CPrintf (Printf "ERROR: argv[0] has been modified in LLVMFuzzerInitialize\n" [])];
                    Pool := None |}
          else
            st ← ParseFlags FlagDescriptions stoul Args EF st;
            if negb (num (Flags st) "help" =? 0) then
              Some {| Path := Leaves (Returns 0); State := st;
                      Calls := CPrintf <$> PrintHelp FlagDescriptions ProgName;
                      Pool := None |}
            else
              let calls :=
                (if negb (Z.land (num (Flags st) "close_fd_mask") 2 =? 0)
                 then [CDupAndCloseStderr] else [])
                ++ (if negb (Z.land (num (Flags st) "close_fd_mask") 1 =? 0)
                    then [CCloseStdout] else []) in
              let '(st, calls) :=
                if (0 <? num (Flags st) "jobs")
                   && (num (Flags st) "workers" =? 0)
                then
                  let workers :=
                    Z.min (Z.quot NumberOfCpuCores 2) (num (Flags st) "jobs") in
                  (with_Flags (set_num "workers" workers (Flags st)) st,
                   calls ++
                   (if 1 <? workers
                    then [CPrintf (Printf "Running %u workers\n" [AInt workers])]
                    else []))
                else (st, calls) in
              if (0 <? num (Flags st) "workers") && (0 <? num (Flags st) "jobs")
              then
                '(r, s) ← RunInMultipleProcesses ExecuteCommand CommandLine
                            (Flags st) (num (Flags st) "workers")
                            (num (Flags st) "jobs") sched;
                Some {| Path := Leaves (Returns r); State := st;
                        Calls := calls; Pool := Some s |}
              else
                Some {| Path := GoesOn; State := st; Calls := calls;
                        Pool := None |}
      end
  end.

End FuzzerDriver.


(** ** Vocabulary of the statements about MyStol *)

Definition is_digit (Ch : ascii) : bool :=
  negb (Ascii.ltb Ch "0" || Ascii.ltb "9" Ch).

Fixpoint all_digits (s : string) : bool :=
  match s with
  | EmptyString => true
  | String Ch s' => is_digit Ch && all_digits s'
  end.

Definition digit_value (Ch : ascii) : Z := Z.of_N (N_of_ascii Ch) - 48.

(** The number a string of digits denotes, read after the digits that
    gave [acc]. *)
Fixpoint decimal_from (acc : Z) (s : string) : Z :=
  match s with
  | EmptyString => acc
  | String Ch s' => decimal_from (acc * 10 + digit_value Ch) s'
  end.

Definition decimal (s : string) : Z := decimal_from 0 s.

(** ** Vocabulary of the statements about the flag parser *)

(** The argument [-Name=v]. *)
Definition flag_token (Name v : string) : string :=
  "-" +:+ Name +:+ "=" +:+ v.

(** A row is what one of the four macros generates: its pointer, if it has
    one, is to the field of its own name. *)
Definition from_macro (D : FlagDescription) : Prop :=
  D = FUZZER_DEPRECATED_FLAG (Name D)
  \/ D = FUZZER_FLAG_INT (Name D) (Default D) (Description D)
  \/ (exists d, D = FUZZER_FLAG_UNSIGNED (Name D) d (Description D))
  \/ D = FUZZER_FLAG_STRING (Name D) (Description D).

(** A registry as the inclusion of [FuzzerFlags.def] yields it: rows from
    the macros, whose names are the distinct members of [Flags]. *)
Definition well_formed_registry (Fs : list FlagDescription) : Prop :=
  Forall from_macro Fs /\ NoDup (Name <$> Fs).

(** The field of [D] holds the default of [D]. *)
Definition holds_default (D : FlagDescription) (F : FlagsStruct) : Prop :=
  (IntFlag D = Some (Name D) -> num F (Name D) = Default D)
  /\ (UIntFlag D = Some (Name D) -> num F (Name D) = to_unsigned (Default D))
  /\ (StrFlag D = Some (Name D) -> strs F !! Name D = None).

(** The field of [D] holds what the parser makes of the value [v]. *)
Definition holds_parsed (stoul : string -> option Z) (D : FlagDescription)
  (v : string) (F : FlagsStruct) : Prop :=
  (IntFlag D = Some (Name D) -> num F (Name D) = to_int (MyStol v))
  /\ (UIntFlag D = Some (Name D) ->
      exists n, stoul v = Some n /\ num F (Name D) = to_unsigned n)
  /\ (StrFlag D = Some (Name D) -> strs F !! Name D = Some v).

(** Where the value of the field of [D] comes from: its default, the
    driver's own [len_control = 0] when a custom mutator is linked in, or an
    argument [-Name=v] among [toks]. *)
Definition field_origin (stoul : string -> option Z) (toks : list string)
  (EF : ExternalFunctions) (D : FlagDescription) (F : FlagsStruct) : Prop :=
  holds_default D F
  \/ (is_Some (LLVMFuzzerCustomMutator EF)
      /\ Name D = "len_control" /\ num F "len_control" = 0)
  \/ (exists v, flag_token (Name D) v ∈ toks /\ holds_parsed stoul D v F).

(** What one argument does to [Flags]: nothing, or it is [-Name=v] for a
    row of the registry and sets the field of that row. *)
Definition sets_one_field (stoul : string -> option Z)
  (Fs : list FlagDescription) (Param : string) (F F' : FlagsStruct) : Prop :=
  F' = F
  \/ exists D0 v,
       D0 ∈ Fs /\ Param = flag_token (Name D0) v
       /\ ((IntFlag D0 = Some (Name D0)
            /\ F' = set_num (Name D0) (to_int (MyStol v)) F)
           \/ (UIntFlag D0 = Some (Name D0)
               /\ exists n, stoul v = Some n
                            /\ F' = set_num (Name D0) (to_unsigned n) F)
           \/ (StrFlag D0 = Some (Name D0)
               /\ F' = set_str (Name D0) (Some v) F)).

(** The reading in which an [int] flag that no argument names holds its
    default after [ParseFlags], whatever [EF] is. *)
Definition absent_int_flags_hold_default (Fs : list FlagDescription)
  (stoul : string -> option Z) (Args : list string) (EF : ExternalFunctions)
  (st0 : DriverState) : Prop :=
  forall st, ParseFlags Fs stoul Args EF st0 = Some st ->
  forall D, D ∈ Fs -> IntFlag D = Some (Name D) ->
            (forall v, flag_token (Name D) v ∉ Args) ->
            num (Flags st) (Name D) = Default D.

(** A few rows in the form [FuzzerFlags.def] gives them. *)
Definition example_registry : list FlagDescription :=
  [FUZZER_FLAG_INT "verbosity" 1 "Verbosity level.";
   FUZZER_FLAG_INT "len_control" 100 "Try generating small inputs first.";
   FUZZER_FLAG_INT "runs" (-1) "Number of individual test runs.";
   FUZZER_FLAG_UNSIGNED "jobs" 0 "Number of jobs to run.";
   FUZZER_FLAG_STRING "dict" "Use the dictionary file.";
   FUZZER_FLAG_INT "ignore_remaining_args" 0 "Ignore the remaining arguments.";
   FUZZER_DEPRECATED_FLAG "exit_on_first"].

(** [std::stoul] on the strings the examples pass to it. *)
Definition example_stoul (s : string) : option Z :=
  if all_digits s && negb (String.length s =? 0)%nat then Some (decimal s)
  else None.

(** ** Vocabulary of the statements about ParseSeedInuts *)

(** The comma-separated list with the elements [l], in this order. *)
Fixpoint join_commas (l : list string) : string :=
  match l with
  | [] => EmptyString
  | x :: l' =>
      match l' with
      | [] => x
      | _ :: _ => x +:+ "," +:+ join_commas l'
      end
  end.

Fixpoint no_comma (s : string) : bool :=
  match s with
  | EmptyString => true
  | String c s' => negb (Ascii.eqb c ",") && no_comma s'
  end.

(** ** Vocabulary of the statements about Merge and the crash cleanser *)

(** A call ends as a user input error: it prints a line that starts with
    [ERROR:] and ends the process with status 1. *)
Definition reports_user_error {A} (r : list Effect * Outcome A) : Prop :=
  r.2 = Exits 1
  /\ exists l, EPrintf l ∈ r.1 /\ String.prefix "ERROR:" (fmt l) = true.

(** The buffers that were written to a file and then run: the contents of
    each [WriteToFile] that an [ExecuteCommand] follows at once. *)
Fixpoint runs (es : list Effect) : list Unit :=
  match es with
  | [] => []
  | e :: es' =>
      match e, es' with
      | EWriteToFile Content _, EExecuteCommand _ :: _ => Content :: runs es'
      | _, _ => runs es'
      end
  end.

(** The reading of the cleanser in which a candidate byte is passed over
    only where the buffer holds that very byte: every other candidate of
    every index of [U0] is run. *)
Definition tries_every_other_candidate (U0 : Unit) (es : list Effect) : Prop :=
  forall (i : nat) (b : Z),
    (i < length U0)%nat -> b ∈ ReplacementBytes -> U0 !! i <> Some b ->
    exists Content, Content ∈ runs es /\ Content !! i = Some b.

(** *** The cleanser as the amended claim describes it *)

(** One trial of a candidate: the buffer [V] is written to the temporary
    file [Tmp], the command is run on it, and the file is removed. *)
Definition trial (Exec : Unit -> Z) (Tmp : string) (V : Unit) : list Effect :=
  [EWriteToFile V Tmp; EExecuteCommand (Exec V); ERemoveFile Tmp].

(** What follows a trial after which the command still fails: the
    replacement is announced and the buffer is written to the artifact
    path [Out]. *)
Definition replaced (Out : string) (i : nat) (b : Z) (V : Unit)
  : list Effect :=
  [EPrintf (Printf "CLEANSE: Replaced byte %zd with 0x%x\n"
              [AInt (Z.of_nat i); AInt b]);
   EWriteToFile V Out].

(** Index [i] of the buffer [V], in the words of the amended claim: an index
    that holds 0x20 or 0xFF is skipped; at any other index 0x20 is tried,
    and 0xFF is tried only if the run with 0x20 ended with exit code zero.
    The result is the buffer afterwards and what was done. *)
Definition amended_index (Exec : Unit -> Z) (Tmp Out : string) (V : Unit)
  (i : nat) : Unit * list Effect :=
  if bool_decide (V !!! i = 32 \/ V !!! i = 255) then (V, [])
  else if negb (Exec (<[i := 32]> V) =? 0) then
    (<[i := 32]> V,
     trial Exec Tmp (<[i := 32]> V) ++ replaced Out i 32 (<[i := 32]> V))
  else if negb (Exec (<[i := 255]> V) =? 0) then
    (<[i := 255]> V,
     trial Exec Tmp (<[i := 32]> V) ++ trial Exec Tmp (<[i := 255]> V)
       ++ replaced Out i 255 (<[i := 255]> V))
  else
    (V, trial Exec Tmp (<[i := 32]> V) ++ trial Exec Tmp (<[i := 255]> V)).

(** The line that announces index [i] in pass [NumAttempts]. *)
Definition trying (NumAttempts i Size : nat) : Effect :=
  EPrintf (Printf "CLEANSE[%d]: Trying to replace byte %zd of %zd\n"
             [AInt (Z.of_nat NumAttempts); AInt (Z.of_nat i);
              AInt (Z.of_nat Size)]).

(** The indices [idxs] one after the other, each on the buffer that the
    indices before it left. *)
Fixpoint amended_pass (Exec : Unit -> Z) (Tmp Out : string)
  (NumAttempts Size : nat) (idxs : list nat) (V : Unit)
  : Unit * list Effect :=
  match idxs with
  | [] => (V, [])
  | i :: idxs' =>
      let here := amended_index Exec Tmp Out V i in
      let rest := amended_pass Exec Tmp Out NumAttempts Size idxs' here.1 in
      (rest.1, trying NumAttempts i Size :: here.2 ++ rest.2)
  end.

(** [k] passes over every index of [0, Size), numbered from
    [NumAttempts]. *)
Fixpoint amended_passes (Exec : Unit -> Z) (Tmp Out : string)
  (k NumAttempts Size : nat) (V : Unit) : Unit * list Effect :=
  match k with
  | O => (V, [])
  | S k' =>
      let pass :=
        amended_pass Exec Tmp Out NumAttempts Size (seq 0 Size) V in
      let rest :=
        amended_passes Exec Tmp Out k' (S NumAttempts) Size pass.1 in
      (rest.1, pass.2 ++ rest.2)
  end.

(** Each buffer of [steps] is the one before it ([prev] for the first), or
    one on which the command ends with an exit code that is not zero. *)
Fixpoint steps_keep_crash (Exec : Unit -> Z) (prev : Unit) (steps : list Unit)
  : Prop :=
  match steps with
  | [] => True
  | s :: steps' =>
      (s = prev \/ Exec s <> 0) /\ steps_keep_crash Exec s steps'
  end.

(** How many times the command was executed. *)
Fixpoint executions (es : list Effect) : nat :=
  match es with
  | [] => O
  | EExecuteCommand _ :: es' => S (executions es')
  | _ :: es' => executions es'
  end.

(** The invariant of the three loops of the cleanser, [U0] being the
    buffer read from the input. *)
Definition cleanse_inv (ExecuteCommand : Unit -> Z)
  (TmpFilePath OutputFilePath : string) (U0 : Unit) (st : CleanseState)
  : Prop :=
  length (U st) = length U0
  /\ steps_keep_crash ExecuteCommand U0 (Steps st)
  /\ last (U0 :: Steps st) = Some (U st)
  /\ (U st = U0 \/ ExecuteCommand (U st) <> 0)
  /\ length (Steps st) = executions (Effects st)
  /\ (TmpFilePath <> OutputFilePath ->
      forall c, EWriteToFile c OutputFilePath ∈ Effects st ->
                ExecuteCommand c <> 0).


(** ** Vocabulary of the statements about the dictionary analyzer *)

(** [Token] occurs in [C] as a run of consecutive bytes. *)
Definition occurs_in (Token C : Unit) : Prop :=
  exists pre post, C = pre ++ Token ++ post.

(** The three effects that report one token as useless. *)
Definition useless_block (Token : Unit) (score usage : Z) : list Effect :=
  [EPrintf (Printf dquote []);
   EPrintASCII Token dquote;
   EPrintf (Printf " # Score: %d, Used: %d\n" [AInt score; AInt usage])].

(** The tokens a list of effects prints, in order. *)
Definition printed_tokens (es : list Effect) : list Unit :=
  omap (fun e => match e with EPrintASCII Token _ => Some Token | _ => None end) es.

(** Token [i] has not been counted or scored. *)
Definition untouched {FuzzerState : Type} (i : nat)
  (st : AnalyzeState FuzzerState) : Prop :=
  Usages st !! i = Some 0 /\ Scores st !! i = Some 0.


(** ** Vocabulary of the statements about the worker pool *)

(** How many workers have left their loop. *)
Fixpoint left_count (ts : list ThreadStatus) : nat :=
  match ts with
  | [] => O
  | LeftLoop :: ts' => S (left_count ts')
  | InLoop :: ts' => left_count ts'
  end.

(** Under every interleaving after which the joins return, the job ids the
    workers claimed are [0], ..., [NumJobs - 1], each of them once. *)
Definition claims_each_job_once (ExecuteCommand : Z -> Z)
  (CommandLine : Z -> string) (Flags : FlagsStruct)
  (NumWorkers NumJobs : Z) : Prop :=
  forall sched r s,
    RunInMultipleProcesses ExecuteCommand CommandLine Flags
      NumWorkers NumJobs sched = Some (r, s) ->
    (Claimed s).*2 ≡ₚ seqZ 0 NumJobs.

(** How many rounds the interleaving [sched] gives to thread [t], and how
    many of the claims [cl] are thread [t]'s. *)
Definition rounds_of (t : nat) (sched : list nat) : nat :=
  length (filter (fun u => u = t) sched).

Definition claims_of (t : nat) (cl : list (nat * Z)) : nat :=
  length (filter (fun p => p.1 = t) cl).

(** [n] times round robin: each of the workers [0], ..., [W - 1] in turn. *)
Definition round_robin (W n : nat) : list nat :=
  concat (replicate n (seq 0 W)).

(** The invariant of the pool while the counter cannot wrap: the ids
    claimed so far are [0 .. m-1] in this order; as long as no worker has
    left, the counter is [m]; once [e > 0] workers have left, every job is
    claimed and the counter is [NumJobs + e]. *)
Definition pool_inv (NumWorkers NumJobs : Z) (s : PoolState) : Prop :=
  (Claimed s).*2 = seqZ 0 (Z.of_nat (length (Claimed s)))
  /\ Z.of_nat (length (Claimed s)) <= NumJobs
  /\ length (Threads s) = Z.to_nat NumWorkers
  /\ match left_count (Threads s) with
     | O => Counter s = Z.of_nat (length (Claimed s))
     | S _ => Z.of_nat (length (Claimed s)) = NumJobs
              /\ Counter s = to_unsigned (NumJobs + Z.of_nat (left_count (Threads s)))
     end.


(** ** Further vocabulary for the crash cleanser *)

(** The buffers written to the file [Path], oldest first. *)
Fixpoint writes_to (Path : string) (es : list Effect) : list Unit :=
  match es with
  | [] => []
  | EWriteToFile Content Path' :: es' =>
      if bool_decide (Path' = Path) then Content :: writes_to Path es'
      else writes_to Path es'
  | _ :: es' => writes_to Path es'
  end.

(** No single replacement of a byte of [V] by a replacement byte keeps the
    crash: at every index whose byte is not a replacement byte already,
    the command ends with exit code zero on [V] with 0x20 there, and on [V]
    with 0xFF there. *)
Definition no_replacement_crashes (Exec : Unit -> Z) (V : Unit) : Prop :=
  forall (Idx : nat) (b : Z),
    (Idx < length V)%nat -> V !!! Idx ∉ ReplacementBytes ->
    b ∈ ReplacementBytes -> Exec (<[Idx := b]> V) = 0.

(** [V] is [U0] with some bytes that were not replacement bytes turned
    into replacement bytes. *)
Definition cleansed_from (U0 V : Unit) : Prop :=
  Forall2 (fun v u0 => v = u0 \/ (v ∈ ReplacementBytes /\ u0 ∉ ReplacementBytes))
    V U0.

(** ** Further vocabulary for the dictionary analyzer *)

(** [Token] is a prefix of some suffix of [C]. *)
Definition occursb (Token C : Unit) : bool :=
  existsb (fun k => is_prefix Token (drop k C)) (seq 0 (S (length C))).

(** How many units of [Corpus] hold [Token]. *)
Fixpoint units_with (Token : Unit) (Corpus : list Unit) : nat :=
  match Corpus with
  | [] => O
  | C :: Corpus' =>
      ((if occursb Token C then 1 else 0) + units_with Token Corpus')%nat
  end.

(** What one unit [C] does to the usage count [u] and the score [s] of
    [Token]: nothing when [C] does not hold the token; otherwise the usage
    count goes up by one and the score goes up by two or down by one. *)
Definition counted (Token C : Unit) (u s u' s' : Z) : Prop :=
  if occursb Token C
  then u' = to_int (u + 1) /\ (s' = to_int (s + 2) \/ s' = to_int (s - 1))
  else u' = u /\ s' = s.

(** The unit [C] as the analyzer runs it for [Token]: every occurrence the
    masking loop finds has its bytes flipped ([C] itself when the loop has
    no end). *)
Definition masked (Token C : Unit) : Unit :=
  default C (MaskOccurrences (S (length C)) Token C (search C Token)).

(** How many units of [Corpus] hold [Token] and give other features once
    the token is masked, when the features of a run are [features] of the
    unit that is run. *)
Fixpoint units_changed (features : Unit -> list Z) (Token : Unit)
  (Corpus : list Unit) : nat :=
  match Corpus with
  | [] => O
  | C :: Corpus' =>
      ((if occursb Token C
           && negb (bool_decide (features C = features (masked Token C)))
        then 1 else 0)
       + units_changed features Token Corpus')%nat
  end.

(** A fuzzer that does nothing but keep the list of the units it was run
    on, in order. *)
Definition logging_callback (Log : list Unit) (Data : Unit) : list Unit :=
  Log ++ [Data].

(** ** Further vocabulary for the flag parser *)

Fixpoint no_equals (s : string) : bool :=
  match s with
  | EmptyString => true
  | String c s' => negb (Ascii.eqb c "=") && no_equals s'
  end.

(** A flag name as the macros take it: it holds no [=] and does not start
    with a dash (the names in [FuzzerFlags.def] are C identifiers). *)
Definition plain_name (s : string) : bool :=
  negb (Ascii.eqb (char_at s 0) "-") && no_equals s.

(** How many of the lines [out] have the format [f]. *)
Fixpoint count_fmt (f : string) (out : list Line) : nat :=
  match out with
  | [] => O
  | l :: out' =>
      ((if String.eqb (fmt l) f then 1 else 0) + count_fmt f out')%nat
  end.

(** The notice of [ParseOneFlag] about arguments that start with two
    dashes. *)
Definition ignored_flags_notice : string :=
  "INFO: libFuzzer ignores flags that start with '--'\n".

(** The hint of [ParseOneFlag] for a flag written with two dashes. *)
Definition did_you_mean_hint : string :=
  "WARNING: did you mean '%s' (single dash)?\n".

(** Two states of the driver agree on what [ParseFlags] computes: [Flags]
    and [Inputs] (they may differ in what was printed). *)
Definition same_flags_and_inputs (s1 s2 : DriverState) : Prop :=
  Flags s1 = Flags s2 /\ Inputs s1 = Inputs s2.

(** Two calls end alike: both do not return, or both return, in states
    that agree on [Flags] and [Inputs]. *)
Definition agree (r1 r2 : option DriverState) : Prop :=
  match r1, r2 with
  | Some s1, Some s2 => same_flags_and_inputs s1 s2
  | None, None => True
  | _, _ => False
  end.

(** ** Vocabulary for the statements about PrintHelp *)

(** The description of [D] starts with the words [internal flag]. *)
Definition internal_flag (D : FlagDescription) : bool :=
  String.prefix "internal flag" (Description D).

(** The flag name a line of the help lists, if it lists one. *)
Definition listed_flag (l : Line) : option string :=
  match args l with
  | [AStr name] => if String.eqb (fmt l) " %s" then Some name else None
  | _ => None
  end.

(** ** Vocabulary for the statements about the other helpers *)

(** The lines a list of calls prints. *)
Definition printed (cs : list Call) : list Line :=
  omap (fun c => match c with CPrintf l => Some l | _ => None end) cs.

(** The directories a list of calls asks to create. *)
Definition created (cs : list Call) : list string :=
  omap (fun c => match c with CMkDirRecursive p => Some p | _ => None end) cs.

(** [pat] occurs in [s]. *)
Definition occurs_in_string (pat s : string) : Prop :=
  exists pre post, s = pre +:+ pat +:+ post.

Fixpoint no_newline (s : string) : bool :=
  match s with
  | EmptyString => true
  | String c s' => negb (Ascii.eqb c newline) && no_newline s'
  end.

(** The argument [-X=v] for some [v]. *)
Definition is_flag_for (X S : string) : Prop := exists v, S = flag_token X v.

(** ** Vocabulary for the examples of FuzzerDriver *)

(** [example_registry] with the rows [FuzzerDriver] itself reads. *)
Definition driver_registry : list FlagDescription :=
  example_registry
  ++ [FUZZER_FLAG_INT "help" 0 "Print help.";
      FUZZER_FLAG_UNSIGNED "workers" 0
        "Number of simultaneous worker processes to run the jobs.";
      FUZZER_FLAG_INT "close_fd_mask" 0
        "If 1, close stdout at startup; if 2, close stderr; if 3, close both."].

(** ** Further vocabulary for the worker pool *)

(** The log file of job [C]. *)
Definition job_log (C : Z) : string := "fuzz-" +:+ pretty C +:+ ".log".

(** The files a list of effects copies to the standard error stream. *)
Definition copied_logs (es : list Effect) : list string :=
  omap (fun e => match e with ECopyFileToErr p => Some p | _ => None end) es.

(* ================================================================== *)
(** * Part II: properties                                              *)
(* ================================================================== *)

(** ** C strings *)

Lemma prefix_app (s1 s2 : string) :
  String.prefix s1 s2 = true <-> exists r, s2 = s1 +:+ r.
Proof.
  revert s2; induction s1 as [|c s1 IH]; intros [|c2 s2]; simpl.
  - split; [by exists EmptyString | done].
  - split; [by eexists | done].
  - split; [done | by intros [r [=]]].
  - destruct (ascii_dec c c2) as [->|Hne].
    + rewrite IH. split; intros [r Hr]; exists r;
        [by rewrite Hr | by injection Hr].
    + split; [done | intros [r [=]]; congruence].
Qed.

Lemma strstr_at_start (haystack needle : string) :
  strstr haystack needle = Some O <-> String.prefix needle haystack = true.
Proof.
  destruct haystack as [|c h]; cbn [strstr].
  - destruct (String.prefix needle EmptyString); split; congruence.
  - destruct (String.prefix needle (String c h)); [split; congruence|].
    destruct (strstr h needle); simpl; split; congruence.
Qed.

Lemma app_nil_l (r : string) : EmptyString +:+ r = r.
Proof. reflexivity. Qed.

Lemma app_String (c : ascii) (s r : string) :
  String c s +:+ r = String c (s +:+ r).
Proof. reflexivity. Qed.

Ltac string_ind s :=
  induction s; rewrite ?app_nil_l, ?app_String; simpl.

Lemma ptr_add_app (s r : string) : ptr_add (s +:+ r) (String.length s) = r.
Proof. string_ind s; [by destruct r | done]. Qed.

Lemma char_at_app (s r : string) :
  char_at (s +:+ r) (String.length s) = char_at r 0.
Proof. string_ind s; [done | assumption]. Qed.

Lemma string_app_assoc (a b c : string) : (a +:+ b) +:+ c = a +:+ b +:+ c.
Proof. string_ind a; [done | by f_equal]. Qed.

Lemma string_app_length (a b : string) :
  String.length (a +:+ b) = (String.length a + String.length b)%nat.
Proof. string_ind a; [done | by f_equal]. Qed.

(** ** FlagValue *)

Lemma FlagValue_dash (P Name : string) :
  FlagValue (String "-" P) Name =
  if bool_decide (strstr P Name = Some O)
     && Ascii.eqb (char_at P (strlen Name)) "="
  then Some (ptr_add P (S (strlen Name))) else None.
Proof.
  unfold FlagValue.
  replace (strlen Name + 1)%nat with (S (strlen Name)) by lia.
  replace (strlen Name + 2)%nat with (S (S (strlen Name))) by lia.
  reflexivity.
Qed.

Lemma FlagValue_Some (Param Name v : string) :
  FlagValue Param Name = Some v <-> Param = "-" +:+ Name +:+ "=" +:+ v.
Proof.
  split.
  - destruct Param as [|c0 P]; [done|].
    destruct (Ascii.eqb_spec c0 "-") as [->|Hne].
    + rewrite FlagValue_dash. unfold strlen.
      case_bool_decide as Hs; [simpl andb | done].
      apply strstr_at_start, prefix_app in Hs as [r ->].
      rewrite char_at_app.
      destruct r as [|c r]; [done|].
      change (char_at (String c r) 0) with c.
      destruct (Ascii.eqb_spec c "=") as [->|]; [|done].
      replace (S (String.length Name)) with (String.length (Name +:+ "=")).
      2:{ rewrite string_app_length. simpl. lia. }
      replace (Name +:+ String "=" r) with ((Name +:+ "=") +:+ r)
        by (by rewrite string_app_assoc).
      rewrite ptr_add_app. intros [= ->]. by rewrite string_app_assoc.
    + unfold FlagValue. change (char_at (String c0 P) 0) with c0.
      by destruct (Ascii.eqb_spec c0 "-").
  - intros ->. change ("-" +:+ Name +:+ "=" +:+ v)
      with (String "-" (Name +:+ String "=" v)).
    rewrite FlagValue_dash. unfold strlen.
    rewrite bool_decide_true
      by (apply strstr_at_start, prefix_app; by eexists).
    rewrite char_at_app. simpl andb. cbv iota.
    replace (S (String.length Name)) with (String.length (Name +:+ "=")).
    2:{ rewrite string_app_length. simpl. lia. }
    replace (Name +:+ String "=" v) with ((Name +:+ "=") +:+ v)
      by (by rewrite string_app_assoc).
    by rewrite ptr_add_app.
Qed.

(** C6: [FlagValue] returns the text after the [=] exactly when [Param] is
    one dash, then [Name] character for character, then [=]; with a second
    dash, or a longer name before the [=], it returns null. *)
Theorem FlagValue_exact_name :
  (forall Param Name v : string,
      FlagValue Param Name = Some v <-> Param = "-" +:+ Name +:+ "=" +:+ v)
  /\ FlagValue "-foo=bar" "foo" = Some "bar"
  /\ FlagValue "--foo=bar" "foo" = None
  /\ FlagValue "-foobar=x" "foo" = None.
Proof.
  split; [exact FlagValue_Some|]. repeat split; reflexivity.
Qed.

(** ** MyStol *)

Lemma to_long_range z : - 2 ^ 63 <= to_long z < 2 ^ 63.
Proof. unfold to_long. pose proof (Z.mod_pos_bound (z + 2 ^ 63) (2 ^ 64)). lia. Qed.

Lemma to_long_small z : - 2 ^ 63 <= z < 2 ^ 63 -> to_long z = z.
Proof. intros. unfold to_long. rewrite Z.mod_small; lia. Qed.

Lemma to_long_idem z : to_long (to_long z) = to_long z.
Proof. apply to_long_small, to_long_range. Qed.

Lemma to_long_step a d : to_long (to_long a * 10 + d) = to_long (a * 10 + d).
Proof.
  unfold to_long.
  rewrite (Z.mod_eq (a + 2 ^ 63) (2 ^ 64)) by lia.
  replace ((a + 2 ^ 63 - 2 ^ 64 * ((a + 2 ^ 63) / 2 ^ 64) - 2 ^ 63) * 10 + d + 2 ^ 63)
    with (a * 10 + d + 2 ^ 63 + (- 10 * ((a + 2 ^ 63) / 2 ^ 64)) * 2 ^ 64) by lia.
  by rewrite Z.mod_add by lia.
Qed.

Lemma digit_value_range Ch : is_digit Ch = true -> 0 <= digit_value Ch <= 9.
Proof.
  unfold is_digit, digit_value, Ascii.ltb.
  rewrite negb_true_iff, orb_false_iff. unfold Ascii.compare.
  intros [H1 H2].
  destruct (N.compare_spec (N_of_ascii Ch) (N_of_ascii "0")); try done.
  all: destruct (N.compare_spec (N_of_ascii "9") (N_of_ascii Ch)); try done.
  all: change (N_of_ascii "0") with 48%N in *; change (N_of_ascii "9") with 57%N in *; lia.
Qed.

Lemma decimal_from_nonneg acc s :
  0 <= acc -> all_digits s = true -> 0 <= decimal_from acc s.
Proof.
  revert acc; induction s as [|Ch s IH]; simpl; intros acc Hacc Hd; [done|].
  apply andb_true_iff in Hd as [Hc Hs]. apply IH; [|done].
  pose proof (digit_value_range Ch Hc). lia.
Qed.

Lemma decimal_nonneg s : all_digits s = true -> 0 <= decimal s.
Proof. by apply decimal_from_nonneg. Qed.

Lemma is_digit_not_NUL Ch : is_digit Ch = true -> Ascii.eqb Ch NUL = false.
Proof. destruct (Ascii.eqb_spec Ch NUL) as [->|]; [done | done]. Qed.

(** The loop on a run of digits followed by another character: it returns
    at that character. *)
Lemma MyStol_loop_stops (ds : string) (c : ascii) (rest : string) (Res Sign : Z) :
  all_digits ds = true -> is_digit c = false ->
  MyStol_loop (ds +:+ String c rest) (to_long Res) Sign =
  if Ascii.eqb c NUL then to_long (to_long (decimal_from Res ds) * Sign)
  else to_long (decimal_from Res ds).
Proof.
  intros Hds Hc. revert Res Hds.
  induction ds as [|d ds IH]; intros Res Hds; rewrite ?app_nil_l, ?app_String.
  - simpl. destruct (Ascii.eqb c NUL); [done|].
    unfold is_digit in Hc. apply negb_false_iff in Hc. by rewrite Hc.
  - simpl in Hds. apply andb_true_iff in Hds as [Hd Hds].
    cbn [MyStol_loop decimal_from]. rewrite (is_digit_not_NUL d Hd).
    unfold is_digit in Hd. apply negb_true_iff in Hd. rewrite Hd.
    fold (digit_value d). rewrite to_long_step. by apply IH.
Qed.

(** The loop on a run of digits up to the end of the string. *)
Lemma MyStol_loop_all (ds : string) (Res Sign : Z) :
  all_digits ds = true ->
  MyStol_loop ds (to_long Res) Sign =
  to_long (to_long (decimal_from Res ds) * Sign).
Proof.
  revert Res. induction ds as [|d ds IH]; intros Res Hds; [done|].
  simpl in Hds. apply andb_true_iff in Hds as [Hd Hds].
  cbn [MyStol_loop decimal_from]. rewrite (is_digit_not_NUL d Hd).
  unfold is_digit in Hd. apply negb_true_iff in Hd. rewrite Hd.
  fold (digit_value d). rewrite to_long_step. by apply IH.
Qed.

Lemma MyStol_unsigned (s : string) :
  Ascii.eqb (char_at s 0) "-" = false -> MyStol s = MyStol_loop s (to_long 0) 1.
Proof. unfold MyStol. by intros ->. Qed.

Lemma MyStol_signed (s : string) :
  MyStol (String "-" s) = MyStol_loop s (to_long 0) (-1).
Proof. reflexivity. Qed.

Lemma MyStol_stops_at_non_digit (ds : string) (c : ascii) (rest : string) :
  all_digits ds = true -> is_digit c = false -> ds <> EmptyString \/ c <> "-"%char ->
  MyStol (ds +:+ String c rest) = to_long (decimal ds).
Proof.
  intros Hds Hc Hfirst. rewrite MyStol_unsigned.
  - rewrite MyStol_loop_stops by done. fold (decimal ds).
    destruct (Ascii.eqb c NUL); [|done].
    by rewrite Z.mul_1_r, to_long_idem.
  - destruct ds as [|d ds]; rewrite ?app_nil_l, ?app_String.
    + apply Ascii.eqb_neq. by destruct Hfirst.
    + simpl in Hds. apply andb_true_iff in Hds as [Hd _].
      change (char_at (String d (ds +:+ String c rest)) 0) with d.
      destruct (Ascii.eqb_spec d "-") as [->|]; done.
Qed.

(** C7: the boundary cases of [MyStol], and the rule behind the third one:
    on digits followed by a character that is no digit, the result is the
    number read up to that character. *)
Theorem MyStol_boundaries :
  MyStol "" = 0 /\ MyStol "-" = 0 /\ MyStol "123x4" = 123 /\ MyStol "-7" = -7
  /\ forall (ds : string) (c : ascii) (rest : string),
       all_digits ds = true -> is_digit c = false ->
       ds <> EmptyString \/ c <> "-"%char ->
       MyStol (ds +:+ String c rest) = to_long (decimal ds)
       /\ (decimal ds < 2 ^ 63 -> MyStol (ds +:+ String c rest) = decimal ds).
Proof.
  do 4 (split; [reflexivity|]).
  intros ds c rest Hds Hc Hfirst. split.
  - by apply MyStol_stops_at_non_digit.
  - intros Hsmall. rewrite MyStol_stops_at_non_digit by done.
    apply to_long_small. pose proof (decimal_nonneg ds Hds). lia.
Qed.

Lemma MyStol_boundaries_witness :
  MyStol ("123" +:+ String "x" "4") = decimal "123".
Proof.
  refine (proj2 (proj2 (proj2 (proj2 (proj2 MyStol_boundaries)))
                   "123" "x"%char "4" eq_refl eq_refl _) _).
  - left; discriminate.
  - reflexivity.
Defined.

(** C10: a leading [-], digits, then a character that is no digit: the
    value returned is the number the digits denote, the same as without the
    [-]; the sign is applied only when the digits run to the end of the
    string. *)
Theorem MyStol_drops_sign (ds : string) (c : ascii) (rest : string) :
  ds <> EmptyString -> all_digits ds = true ->
  is_digit c = false -> c <> NUL ->
  MyStol ("-" +:+ ds +:+ String c rest) = to_long (decimal ds)
  /\ MyStol ("-" +:+ ds +:+ String c rest) = MyStol (ds +:+ String c rest)
  /\ MyStol ("-" +:+ ds) = to_long (- to_long (decimal ds))
  /\ (0 < decimal ds < 2 ^ 63 ->
      MyStol ("-" +:+ ds +:+ String c rest) = decimal ds
      /\ MyStol ("-" +:+ ds +:+ String c rest) <> - decimal ds
      /\ MyStol ("-" +:+ ds) = - decimal ds).
Proof.
  intros Hne Hds Hc Hnul.
  assert (Hstop : MyStol ("-" +:+ ds +:+ String c rest) = to_long (decimal ds)).
  { rewrite app_String, app_nil_l, MyStol_signed, MyStol_loop_stops by done.
    by apply Ascii.eqb_neq in Hnul as ->. }
  assert (Hend : MyStol ("-" +:+ ds) = to_long (- to_long (decimal ds))).
  { rewrite app_String, app_nil_l, MyStol_signed, MyStol_loop_all by done.
    f_equal. fold (decimal ds). lia. }
  repeat split; try done.
  - rewrite Hstop. symmetry. apply MyStol_stops_at_non_digit; auto.
  - rewrite Hstop. apply to_long_small. lia.
  - rewrite Hstop, to_long_small by lia. lia.
  - rewrite Hend, !to_long_small; rewrite ?to_long_small; lia.
Qed.

Lemma MyStol_drops_sign_witness : MyStol "-12x" = 12.
Proof.
  refine (proj1 (proj2 (proj2 (proj2
            (MyStol_drops_sign "12" "x"%char "" _ eq_refl eq_refl _))) _)).
  - discriminate.
  - discriminate.
  - done.
Defined.

(** ** The flag parser *)

Lemma print_Flags l st : Flags (print l st) = Flags st.
Proof. reflexivity. Qed.

Lemma log_flag_Flags l st : Flags (log_flag l st) = Flags st.
Proof. unfold log_flag. by destruct (_ <=? _). Qed.

Lemma num_set_num k x F : num (set_num k x F) k = x.
Proof. unfold num, set_num. cbn [nums]. by rewrite lookup_insert_eq. Qed.

Lemma num_set_num_ne k k' x F : k <> k' -> num (set_num k x F) k' = num F k'.
Proof. intros. unfold num, set_num. cbn [nums]. by rewrite lookup_insert_ne. Qed.

Lemma strs_set_str_ne k k' v F : k <> k' -> strs (set_str k v F) !! k' = strs F !! k'.
Proof.
  intros. unfold set_str. cbn [strs].
  destruct v; [by rewrite lookup_insert_ne | by rewrite lookup_delete_ne].
Qed.

Lemma from_macro_cases (D : FlagDescription) :
  from_macro D ->
  (IntFlag D = None /\ UIntFlag D = None /\ StrFlag D = None)
  \/ (IntFlag D = Some (Name D) /\ UIntFlag D = None /\ StrFlag D = None)
  \/ (IntFlag D = None /\ UIntFlag D = Some (Name D) /\ StrFlag D = None)
  \/ (IntFlag D = None /\ UIntFlag D = None /\ StrFlag D = Some (Name D)).
Proof.
  intros [H|[H|[[d H]|H]]]; rewrite H; cbn; auto 10.
Qed.

Lemma registry_row_by_name (Fs : list FlagDescription) (D D' : FlagDescription) :
  NoDup (Name <$> Fs) -> D ∈ Fs -> D' ∈ Fs -> Name D = Name D' -> D = D'.
Proof.
  induction Fs as [|X Fs IH]; [by intros _ ?%elem_of_nil|].
  rewrite fmap_cons, NoDup_cons.
  intros [Hnotin Hnd] [->|HD]%elem_of_cons [->|HD']%elem_of_cons Hname; auto.
  - destruct Hnotin. rewrite Hname. by apply list_elem_of_fmap_2.
  - destruct Hnotin. rewrite <- Hname. by apply list_elem_of_fmap_2.
Qed.

Section ParserProps.

Variable FlagDescriptions : list FlagDescription.
Variable stoul : string -> option Z.

Local Abbreviation FindFlag' := (FindFlag stoul).
Local Abbreviation ParseOneFlag' := (ParseOneFlag FlagDescriptions stoul).
Local Abbreviation ParseArgs' := (ParseArgs FlagDescriptions stoul).
Local Abbreviation ParseFlags' := (ParseFlags FlagDescriptions stoul).

Lemma FindFlag_sets_one_field Param Fs st r st' :
  Forall from_macro Fs ->
  FindFlag' Param Fs st = Some (r, st') ->
  sets_one_field stoul Fs Param (Flags st) (Flags st').
Proof.
  intros Hall. induction Hall as [|D Fs HD _ IH]; cbn [FindFlag].
  - intros [= _ <-]. by left.
  - destruct (FlagValue Param (Name D)) as [Str|] eqn:HV.
    + apply FlagValue_Some in HV.
      destruct (from_macro_cases D HD)
        as [(HI & HU & HS)|[(HI & HU & HS)|[(HI & HU & HS)|(HI & HU & HS)]]];
        rewrite HI, ?HU, ?HS.
      * intros [= _ <-]. by left.
      * intros [= _ <-]. rewrite log_flag_Flags. right. exists D, Str.
        split; [by left|]. split; [done|]. by left.
      * destruct (stoul Str) as [Val|] eqn:Hs; [|done]. cbn.
        intros [= _ <-]. rewrite log_flag_Flags. right. exists D, Str.
        split; [by left|]. split; [done|]. right; left. split; [done|].
        by exists Val.
      * intros [= _ <-]. rewrite log_flag_Flags. right. exists D, Str.
        split; [by left|]. split; [done|]. by right; right.
    + intros Hrun. destruct (IH Hrun) as [->|(D0 & v & HD0 & Hrest)]; [by left|].
      right. exists D0, v. split; [by right | done].
Qed.

Lemma DidYouMean_Flags Param Fs st : Flags (DidYouMean Param Fs st) = Flags st.
Proof.
  revert st. induction Fs as [|D Fs IH]; intros st; [done|].
  cbn [DidYouMean]. rewrite IH. by destruct (FlagValue _ _).
Qed.

Lemma ParseOneFlag_sets_one_field Param st r st' :
  Forall from_macro FlagDescriptions ->
  ParseOneFlag' Param st = Some (r, st') ->
  sets_one_field stoul FlagDescriptions Param (Flags st) (Flags st').
Proof.
  intros Hall. unfold ParseOneFlag.
  destruct (negb _); [intros [= _ <-]; by left|].
  destruct (Ascii.eqb (char_at Param 1) "-").
  - intros [= _ <-]. rewrite DidYouMean_Flags. left. by destruct (negb _).
  - by apply FindFlag_sets_one_field.
Qed.

(** An argument that is not [-k=v] leaves the fields named [k] alone. *)
Lemma sets_one_field_other Fs Param F F' k :
  Forall from_macro Fs ->
  sets_one_field stoul Fs Param F F' ->
  (forall v, Param <> flag_token k v) ->
  num F' k = num F k /\ strs F' !! k = strs F !! k.
Proof.
  intros Hall [->|(D0 & v & HD0 & -> & Hset)] Hnot; [done|].
  assert (Name D0 <> k) by (intros <-; by apply (Hnot v)).
  destruct Hset as [[_ ->]|[(_ & n & _ & ->)|[_ ->]]].
  - by rewrite num_set_num_ne.
  - by rewrite num_set_num_ne.
  - by rewrite strs_set_str_ne.
Qed.

Lemma field_origin_ext toks EF D F F' :
  num F' (Name D) = num F (Name D) ->
  strs F' !! Name D = strs F !! Name D ->
  field_origin stoul toks EF D F -> field_origin stoul toks EF D F'.
Proof.
  intros Hn Hs [Hd|[(HEF & Hname & Hz)|(v & Hv & Hp)]].
  - left. unfold holds_default in *. by rewrite Hn, Hs.
  - right; left. rewrite Hname in Hn. by rewrite Hn.
  - right; right. exists v. unfold holds_parsed in *. by rewrite Hn, Hs.
Qed.

Lemma sets_one_field_origin toks EF Param F F' D :
  well_formed_registry FlagDescriptions ->
  sets_one_field stoul FlagDescriptions Param F F' ->
  Param ∈ toks -> D ∈ FlagDescriptions ->
  field_origin stoul toks EF D F -> field_origin stoul toks EF D F'.
Proof.
  intros [Hall Hnd] [->|(D0 & v & HD0 & -> & Hset)] Htok HD Horig; [done|].
  destruct (decide (Name D0 = Name D)) as [Heq|Hne].
  - assert (D0 = D) as -> by (by apply (registry_row_by_name FlagDescriptions)).
    right; right. exists v. split; [done|].
    rewrite Forall_forall in Hall.
    destruct (from_macro_cases D (Hall D HD))
      as [(HI & HU & HS)|[(HI & HU & HS)|[(HI & HU & HS)|(HI & HU & HS)]]];
      rewrite HI, HU, HS in Hset;
      destruct Hset as [[? ->]|[(? & n & ? & ->)|[? ->]]]; try done;
      unfold holds_parsed; rewrite HI, HU, HS.
    + repeat split; try done. intros _. apply num_set_num.
    + repeat split; try done. intros _. exists n. split; [done | apply num_set_num].
    + repeat split; try done. intros _. unfold set_str. cbn [strs].
      apply lookup_insert_eq.
  - apply (field_origin_ext _ _ _ F); [| |done];
      destruct Hset as [[_ ->]|[(_ & n & _ & ->)|[_ ->]]];
      rewrite ?num_set_num_ne, ?strs_set_str_ne; done.
Qed.

Lemma ParseArgs_origin toks EF Args st st' :
  well_formed_registry FlagDescriptions ->
  (forall a, a ∈ Args -> a ∈ toks) ->
  ParseArgs' Args st = Some st' ->
  (forall D, D ∈ FlagDescriptions -> field_origin stoul toks EF D (Flags st)) ->
  forall D, D ∈ FlagDescriptions -> field_origin stoul toks EF D (Flags st').
Proof.
  intros Hwf. revert st. induction Args as [|a Args IH]; intros st Hsub Hrun Hinv.
  - by injection Hrun as <-.
  - cbn [ParseArgs] in Hrun.
    destruct (ParseOneFlag' a st) as [[parsed st1]|] eqn:H1; [|done].
    cbn in Hrun.
    assert (Hinv1 : forall D, D ∈ FlagDescriptions ->
                      field_origin stoul toks EF D (Flags st1)).
    { intros D HD. eapply sets_one_field_origin; eauto.
      - eapply ParseOneFlag_sets_one_field; [apply Hwf | done].
      - apply Hsub. by left. }
    assert (Hsub' : forall a', a' ∈ Args -> a' ∈ toks)
      by (intros; apply Hsub; by right).
    destruct parsed.
    + destruct (negb _); [by injection Hrun as <- | by apply (IH st1)].
    + by apply (IH (with_Inputs (Inputs st1 ++ [a]) st1)).
Qed.

Lemma ParseArgs_untouched k Args st st' :
  Forall from_macro FlagDescriptions ->
  (forall a v, a ∈ Args -> a <> flag_token k v) ->
  ParseArgs' Args st = Some st' ->
  num (Flags st') k = num (Flags st) k.
Proof.
  intros Hall. revert st. induction Args as [|a Args IH]; intros st Hnot Hrun.
  - by injection Hrun as <-.
  - cbn [ParseArgs] in Hrun.
    destruct (ParseOneFlag' a st) as [[parsed st1]|] eqn:H1; [|done].
    cbn in Hrun.
    assert (H1' : num (Flags st1) k = num (Flags st) k).
    { eapply sets_one_field_other; [done | |].
      - by eapply ParseOneFlag_sets_one_field.
      - intros v. apply Hnot. by left. }
    assert (Hnot' : forall a' v, a' ∈ Args -> a' <> flag_token k v)
      by (intros; apply Hnot; by right).
    destruct parsed.
    + destruct (negb _); [injection Hrun as <-; done|].
      by rewrite (IH st1 Hnot' Hrun).
    + by rewrite (IH _ Hnot' Hrun).
Qed.

(** *** The first loop of ParseFlags *)

Lemma InitFlag_other D F k :
  from_macro D -> Name D <> k ->
  num (InitFlag D F) k = num F k /\ strs (InitFlag D F) !! k = strs F !! k.
Proof.
  intros HD Hne. unfold InitFlag.
  destruct (from_macro_cases D HD)
    as [(HI & HU & HS)|[(HI & HU & HS)|[(HI & HU & HS)|(HI & HU & HS)]]];
    rewrite HI, HU, HS;
    rewrite ?num_set_num_ne, ?strs_set_str_ne; done.
Qed.

Lemma InitFlags_other Fs F k :
  Forall from_macro Fs -> k ∉ Name <$> Fs ->
  num (InitFlags Fs F) k = num F k /\ strs (InitFlags Fs F) !! k = strs F !! k.
Proof.
  intros Hall. revert F. induction Hall as [|D Fs HD _ IH]; intros F Hk; [done|].
  cbn [InitFlags]. rewrite fmap_cons, not_elem_of_cons in Hk.
  destruct Hk as [Hne Hk]. destruct (IH (InitFlag D F) Hk) as [-> ->].
  by apply InitFlag_other.
Qed.

Lemma InitFlag_default D F : from_macro D -> holds_default D (InitFlag D F).
Proof.
  intros HD. unfold InitFlag, holds_default.
  destruct (from_macro_cases D HD)
    as [(HI & HU & HS)|[(HI & HU & HS)|[(HI & HU & HS)|(HI & HU & HS)]]];
    rewrite HI, HU, HS;
    repeat split; try done; intros _.
  - apply num_set_num.
  - apply num_set_num.
  - unfold set_str. cbn [strs]. apply lookup_delete_eq.
Qed.

Lemma InitFlags_default Fs F D :
  well_formed_registry Fs -> D ∈ Fs -> holds_default D (InitFlags Fs F).
Proof.
  intros [Hall Hnd]. revert F.
  induction Hall as [|X Fs HX Hall IH]; intros F HD; [by apply elem_of_nil in HD|].
  rewrite fmap_cons, NoDup_cons in Hnd. destruct Hnd as [Hnotin Hnd].
  cbn [InitFlags]. apply elem_of_cons in HD as [->|HD]; [|by apply IH].
  destruct (InitFlags_other Fs (InitFlag X F) (Name X) Hall Hnotin) as [Hn Hs].
  pose proof (InitFlag_default X F HX) as Hd.
  unfold holds_default in *. by rewrite Hn, Hs.
Qed.

Lemma ParseFlags_start (Args : list string) (EF : ExternalFunctions)
  (st0 st : DriverState) :
  ParseFlags' Args EF st0 = Some st ->
  exists st1,
    ParseArgs' (drop 1 Args) st1 = Some st
    /\ Flags st1 = match LLVMFuzzerCustomMutator EF with
                   | Some _ =>
                       set_num "len_control" 0
                         (InitFlags FlagDescriptions (Flags st0))
                   | None => InitFlags FlagDescriptions (Flags st0)
                   end.
Proof.
  unfold ParseFlags. intros Hrun. eexists. split; [exact Hrun|].
  by destruct (LLVMFuzzerCustomMutator EF).
Qed.

Lemma ParseFlags_origin (Args : list string) (EF : ExternalFunctions)
  (st0 st : DriverState) :
  well_formed_registry FlagDescriptions ->
  ParseFlags' Args EF st0 = Some st ->
  forall D, D ∈ FlagDescriptions ->
            field_origin stoul (drop 1 Args) EF D (Flags st).
Proof.
  intros Hwf (st1 & Hrun & Hst1)%ParseFlags_start.
  apply (ParseArgs_origin _ _ _ _ _ Hwf (fun a H => H) Hrun).
  intros D HD. rewrite Hst1.
  pose proof (InitFlags_default FlagDescriptions (Flags st0) D Hwf HD) as Hd.
  destruct (LLVMFuzzerCustomMutator EF) as [m|] eqn:HEF; [|by left].
  destruct (decide (Name D = "len_control")) as [Hlc|Hne].
  - right; left. split; [done|]. split; [done | apply num_set_num].
  - left. unfold holds_default in *. by rewrite num_set_num_ne by done.
Qed.

Lemma ParseFlags_absent_int (Args : list string) (EF : ExternalFunctions)
  (st0 st : DriverState) (D : FlagDescription) :
  well_formed_registry FlagDescriptions ->
  ParseFlags' Args EF st0 = Some st ->
  D ∈ FlagDescriptions -> IntFlag D = Some (Name D) ->
  (forall v, flag_token (Name D) v ∉ drop 1 Args) ->
  num (Flags st) (Name D) =
  if bool_decide (is_Some (LLVMFuzzerCustomMutator EF)
                  /\ Name D = "len_control")
  then 0 else Default D.
Proof.
  intros Hwf (st1 & Hrun & Hst1)%ParseFlags_start HD HI Hno.
  assert (Hnot : forall a v, a ∈ drop 1 Args -> a <> flag_token (Name D) v)
    by (intros a v Ha ->; by apply (Hno v)).
  rewrite (ParseArgs_untouched (Name D) _ _ _ (proj1 Hwf) Hnot Hrun), Hst1.
  pose proof (InitFlags_default FlagDescriptions (Flags st0) D Hwf HD) as (Hd & _).
  specialize (Hd HI).
  destruct (LLVMFuzzerCustomMutator EF) as [m|] eqn:HEF.
  - case_bool_decide as Hb.
    + destruct Hb as [_ ->]. apply num_set_num.
    + rewrite num_set_num_ne; [done|]. intros Heq. by destruct Hb.
  - rewrite bool_decide_false; [done|]. by intros [[? [=]] _].
Qed.

(** C1, as amended: after [ParseFlags] returns, the field of every
    registered flag holds its default, or 0 for [len_control] when
    [LLVMFuzzerCustomMutator] is present, or the value parsed from an
    argument [-name=v]; an [int] flag that no argument names holds its
    default, except [len_control], which holds 0 when
    [LLVMFuzzerCustomMutator] is present. *)
Theorem ParseFlags_fields (Args : list string) (EF : ExternalFunctions)
  (st0 st : DriverState) :
  well_formed_registry FlagDescriptions ->
  ParseFlags' Args EF st0 = Some st ->
  (forall D, D ∈ FlagDescriptions ->
             field_origin stoul (drop 1 Args) EF D (Flags st))
  /\ (forall D, D ∈ FlagDescriptions -> IntFlag D = Some (Name D) ->
                (forall v, flag_token (Name D) v ∉ drop 1 Args) ->
                num (Flags st) (Name D) =
                if bool_decide (is_Some (LLVMFuzzerCustomMutator EF)
                                /\ Name D = "len_control")
                then 0 else Default D).
Proof.
  intros Hwf Hrun. split.
  - by apply (ParseFlags_origin Args EF st0).
  - intros D. by apply (ParseFlags_absent_int Args EF st0).
Qed.

(** *** What [ParseFlags] collects in [Inputs] *)

Lemma log_flag_Inputs l st : Inputs (log_flag l st) = Inputs st.
Proof. unfold log_flag. by destruct (_ <=? _). Qed.

Lemma DidYouMean_Inputs Param Fs st :
  Inputs (DidYouMean Param Fs st) = Inputs st.
Proof.
  revert st. induction Fs as [|D Fs IH]; intros st; [done|].
  cbn [DidYouMean]. rewrite IH. by destruct (FlagValue _ _).
Qed.

Lemma FindFlag_Inputs Param Fs st r st' :
  FindFlag' Param Fs st = Some (r, st') -> r = true /\ Inputs st' = Inputs st.
Proof.
  induction Fs as [|D Fs IH]; cbn [FindFlag].
  - by intros [= <- <-].
  - destruct (FlagValue Param (Name D)) as [Str|]; [|done].
    destruct (IntFlag D), (UIntFlag D), (StrFlag D);
      try (intros [= <- <-]; by rewrite ?log_flag_Inputs);
      destruct (stoul Str); cbn; try done;
      intros [= <- <-]; by rewrite ?log_flag_Inputs.
Qed.

Lemma ParseOneFlag_Inputs Param st r st' :
  ParseOneFlag' Param st = Some (r, st') ->
  Inputs st' = Inputs st /\ (r = false -> char_at Param 0 <> "-"%char).
Proof.
  unfold ParseOneFlag.
  destruct (Ascii.eqb_spec (char_at Param 0) "-") as [Hdash|Hdash]; cbn [negb].
  - destruct (Ascii.eqb (char_at Param 1) "-").
    + intros [= <- <-]. rewrite DidYouMean_Inputs.
      split; [by destruct (negb _) | done].
    + intros [-> ->]%FindFlag_Inputs. done.
  - by intros [= <- <-].
Qed.

Lemma ParseArgs_Inputs Args st st' :
  Forall (fun a => char_at a 0 <> "-"%char) (Inputs st) ->
  ParseArgs' Args st = Some st' ->
  Forall (fun a => char_at a 0 <> "-"%char) (Inputs st').
Proof.
  revert st. induction Args as [|a Args IH]; intros st Hinv Hrun.
  - by injection Hrun as <-.
  - cbn [ParseArgs] in Hrun.
    destruct (ParseOneFlag' a st) as [[parsed st1]|] eqn:H1; [|done].
    cbn in Hrun. apply ParseOneFlag_Inputs in H1 as [HI Hdash].
    destruct parsed.
    + destruct (negb _).
      * injection Hrun as <-. by rewrite HI.
      * apply (IH st1); [by rewrite HI | done].
    + apply (IH (with_Inputs (Inputs st1 ++ [a]) st1)); [|done].
      cbn [with_Inputs Inputs]. rewrite HI.
      apply Forall_app. split; [done|]. apply Forall_singleton. by apply Hdash.
Qed.

(** X1: after [ParseFlags] returns, [Inputs] holds no string that starts
    with [-]. *)
Theorem Inputs_hold_no_flag (Args : list string) (EF : ExternalFunctions)
  (st0 st : DriverState) :
  ParseFlags' Args EF st0 = Some st ->
  Forall (fun a => char_at a 0 <> "-"%char) (Inputs st).
Proof.
  unfold ParseFlags. apply ParseArgs_Inputs. cbn [with_Inputs Inputs].
  apply Forall_nil_2.
Qed.

End ParserProps.

Lemma example_registry_well_formed : well_formed_registry example_registry.
Proof.
  split.
  - unfold example_registry, from_macro.
    repeat (apply Forall_cons; split); [..|apply Forall_nil]; cbn; auto.
    right; right; left. by exists 0.
  - apply (bool_decide_unpack _). vm_compute. reflexivity.
Qed.

Lemma flag_token_dash (Name v : string) :
  flag_token Name v = String "-" (Name +:+ "=" +:+ v).
Proof. reflexivity. Qed.

Lemma ParseFlags_fields_witness :
  exists st,
    ParseFlags example_registry example_stoul
      ["fuzz"; "-runs=5x"; "--verbosity=3"; "corpus"; "-jobs=3"; "-dict=words"]
      {| LLVMFuzzerInitialize := None; LLVMFuzzerCustomMutator := Some 4096 |}
      initial_state = Some st
    /\ num (Flags st) "len_control" = 0
    /\ num (Flags st) "verbosity" = 1.
Proof.
  destruct (ParseFlags example_registry example_stoul _ _ initial_state)
    as [st|] eqn:Hrun; [|vm_compute in Hrun; discriminate Hrun].
  exists st. split; [reflexivity|].
  destruct (ParseFlags_fields example_registry example_stoul _ _ _ _
              example_registry_well_formed Hrun) as [_ Habsent].
  split.
  - apply (Habsent (FUZZER_FLAG_INT "len_control" 100
                      "Try generating small inputs first.")).
    + unfold example_registry. rewrite !elem_of_cons. auto.
    + reflexivity.
    + intros v. cbn [drop]. rewrite !elem_of_cons, elem_of_nil, flag_token_dash.
      intros [H|[H|[H|[H|[H|[]]]]]]; discriminate H.
  - apply (Habsent (FUZZER_FLAG_INT "verbosity" 1 "Verbosity level.")).
    + unfold example_registry. rewrite !elem_of_cons. auto.
    + reflexivity.
    + intros v. cbn [drop]. rewrite !elem_of_cons, elem_of_nil, flag_token_dash.
      intros [H|[H|[H|[H|[H|[]]]]]]; discriminate H.
Defined.

(** C1, as stated, fails: with [LLVMFuzzerCustomMutator] present and no
    argument at all, [len_control], whose default is 100, holds 0. *)
Lemma len_control_is_not_its_default :
  ~ absent_int_flags_hold_default example_registry example_stoul ["fuzz"]
      {| LLVMFuzzerInitialize := None; LLVMFuzzerCustomMutator := Some 4096 |}
      initial_state.
Proof.
  intros Hclaim.
  destruct (ParseFlags example_registry example_stoul ["fuzz"]
              {| LLVMFuzzerInitialize := None;
                 LLVMFuzzerCustomMutator := Some 4096 |} initial_state)
    as [st|] eqn:Hrun; [|vm_compute in Hrun; discriminate Hrun].
  pose (D := FUZZER_FLAG_INT "len_control" 100
               "Try generating small inputs first.").
  assert (HD : D ∈ example_registry)
    by (unfold example_registry; rewrite !elem_of_cons; auto).
  assert (Hno : forall v, flag_token (Name D) v ∉ ["fuzz"]).
  { intros v. rewrite list_elem_of_singleton, flag_token_dash. discriminate. }
  specialize (Hclaim st Hrun D HD eq_refl Hno).
  rewrite (ParseFlags_absent_int example_registry example_stoul _ _ _ _ D
             example_registry_well_formed Hrun HD eq_refl) in Hclaim.
  - discriminate Hclaim.
  - intros v. cbn [drop]. apply not_elem_of_nil.
Qed.

Lemma Inputs_hold_no_flag_witness :
  exists st,
    ParseFlags example_registry example_stoul
      ["fuzz"; "corpus"; "-runs=3"; "--x"; "seeds"]
      {| LLVMFuzzerInitialize := None; LLVMFuzzerCustomMutator := None |}
      initial_state = Some st
    /\ Forall (fun a => char_at a 0 <> "-"%char) (Inputs st).
Proof.
  destruct (ParseFlags example_registry example_stoul _ _ initial_state)
    as [st|] eqn:Hrun; [|vm_compute in Hrun; discriminate Hrun].
  exists st. split; [reflexivity|].
  exact (Inputs_hold_no_flag example_registry example_stoul _ _ _ _ Hrun).
Defined.

(** ** ParseSeedInuts *)

Lemma SplitSeedInputs_round (s : string) (Files : list string) :
  SplitSeedInputs s Files =
  match find_last_of s "," with
  | Some comma_pos =>
      SplitSeedInputs (substr s 0 comma_pos)
        (Files ++ [substr_from s (comma_pos + 1)])
  | None => Files ++ [s]
  end.
Proof.
  funelim (SplitSeedInputs s Files).
  - by rewrite Heq.
  - by rewrite e.
Qed.

Lemma find_last_of_no_comma (x : string) :
  no_comma x = true -> find_last_of x "," = None.
Proof.
  induction x as [|c x IH]; [done|]. simpl.
  intros [Hc Hx]%andb_true_iff. rewrite (IH Hx).
  by apply negb_true_iff in Hc as ->.
Qed.

Lemma find_last_of_app_comma (s x : string) :
  no_comma x = true ->
  find_last_of (s +:+ "," +:+ x) "," = Some (String.length s).
Proof.
  intros Hx. induction s as [|c s IH].
  - rewrite app_nil_l, app_String, app_nil_l. simpl.
    by rewrite (find_last_of_no_comma x Hx).
  - rewrite app_String. cbn [find_last_of]. by rewrite IH.
Qed.

Lemma string_take_app (s r : string) : string_take (String.length s) (s +:+ r) = s.
Proof.
  induction s as [|c s IH]; rewrite ?app_nil_l, ?app_String; simpl.
  - by destruct r.
  - by rewrite IH.
Qed.

Lemma join_commas_snoc (l : list string) (x : string) :
  l <> [] -> join_commas (l ++ [x]) = join_commas l +:+ "," +:+ x.
Proof.
  induction l as [|y l IH]; [done|]. intros _.
  destruct l as [|z l]; [done|].
  change (join_commas ((y :: z :: l) ++ [x]))
    with (y +:+ "," +:+ join_commas ((z :: l) ++ [x])).
  rewrite IH by done.
  change (join_commas (y :: z :: l)) with (y +:+ "," +:+ join_commas (z :: l)).
  by rewrite !string_app_assoc.
Qed.

(** The loop on a joined list appends its elements from last to first. *)
Lemma SplitSeedInputs_join (l : list string) (Files : list string) :
  l <> [] -> Forall (fun x => no_comma x = true) l ->
  SplitSeedInputs (join_commas l) Files = Files ++ reverse l.
Proof.
  revert Files. induction l as [|x l IH] using rev_ind; [done|].
  intros Files _ [Hl Hx]%Forall_app. rewrite Forall_singleton in Hx.
  rewrite SplitSeedInputs_round, reverse_snoc.
  destruct (decide (l = [])) as [->|Hne].
  - simpl. by rewrite (find_last_of_no_comma x Hx).
  - rewrite join_commas_snoc, find_last_of_app_comma by done.
    unfold substr, substr_from. cbn [ptr_add].
    rewrite string_take_app.
    replace (String.length (join_commas l) + 1)%nat
      with (String.length (join_commas l +:+ ",")).
    2:{ by rewrite string_app_length. }
    rewrite <- string_app_assoc, ptr_add_app, IH by done.
    by rewrite <- app_assoc.
Qed.

Lemma join_commas_nil_inv (l : list string) :
  join_commas l <> EmptyString -> l <> [].
Proof. by destruct l. Qed.

(** C8: [ParseSeedInuts] on ["a,b,c"] returns [c, b, a], and on every list
    that is not empty the elements in the reverse of their order in the
    text. *)
Theorem ParseSeedInuts_reverse_order (FileToString : string -> string)
  (F : FlagsStruct) :
  ParseSeedInuts FileToString (set_str "seed_inputs" (Some "a,b,c") F)
    (Some "a,b,c") = ([], Returns ["c"; "b"; "a"])
  /\ forall l : list string,
       Forall (fun x => no_comma x = true) l ->
       join_commas l <> EmptyString ->
       char_at (join_commas l) 0 <> "@"%char ->
       ParseSeedInuts FileToString
         (set_str "seed_inputs" (Some (join_commas l)) F)
         (Some (join_commas l)) = ([], Returns (reverse l)).
Proof.
  assert (Hgen : forall l : list string,
       Forall (fun x => no_comma x = true) l ->
       join_commas l <> EmptyString ->
       char_at (join_commas l) 0 <> "@"%char ->
       ParseSeedInuts FileToString
         (set_str "seed_inputs" (Some (join_commas l)) F)
         (Some (join_commas l)) = ([], Returns (reverse l))).
  { intros l Hl Hne Hat. unfold ParseSeedInuts, set_str. cbn [strs].
    rewrite lookup_insert_eq.
    apply Ascii.eqb_neq in Hat as ->.
    destruct (join_commas l) as [|c s] eqn:Hj; [done|].
    cbn [String.length Nat.eqb]. rewrite <- Hj.
    rewrite SplitSeedInputs_join; [done | | done].
    apply join_commas_nil_inv. by rewrite Hj. }
  split; [|exact Hgen].
  apply (Hgen ["a"; "b"; "c"]); [|done|done].
  repeat constructor.
Qed.

Lemma ParseSeedInuts_reverse_order_witness :
  ParseSeedInuts (fun _ => EmptyString)
    (set_str "seed_inputs" (Some "x,,y") (Flags initial_state))
    (Some "x,,y") = ([], Returns ["y"; ""; "x"]).
Proof.
  apply (proj2 (ParseSeedInuts_reverse_order _ _) ["x"; ""; "y"]).
  - repeat constructor.
  - discriminate.
  - discriminate.
Defined.

(** ** Merge *)

Section MergeProps.

Variable GetSizedFilesFromDir : string -> list SizedFile.
Variable sort : list SizedFile -> list SizedFile.
Variable TempPath : string -> string -> string.
Variable CrashResistantMerge :
  list string -> list SizedFile -> list SizedFile -> string -> bool ->
  list string.
Variable FileToVector : string -> Z -> Unit.

Local Abbreviation Merge' :=
  (Merge GetSizedFilesFromDir sort TempPath CrashResistantMerge FileToVector).

(** C3, as amended: with fewer than two corpus directories [Merge] prints
    one line, which starts with [INFO:], and ends the process with status
    0. *)
Theorem Merge_too_few_dirs (Flags : FlagsStruct) (MaxLen : Z)
  (Args Corpora : list string) (CFPathOrNull : option string) :
  (length Corpora < 2)%nat ->
  Merge' Flags MaxLen Args Corpora CFPathOrNull =
    ([EPrintf (Printf "INFO: Merge requires two or more corpus dirs\n" [])],
     Exits 0)
  /\ ~ reports_user_error (Merge' Flags MaxLen Args Corpora CFPathOrNull).
Proof.
  intros Hlen. unfold Merge.
  apply Nat.ltb_lt in Hlen as ->. split; [done|].
  by intros [? _].
Qed.

End MergeProps.

Lemma Merge_too_few_dirs_witness :
  Merge (fun _ => []) id (fun _ _ => EmptyString) (fun _ _ _ _ _ => [])
    (fun _ _ => []) (Flags initial_state) 0
    ["fuzz"; "-merge=1"; "corpus"] ["corpus"] None =
  ([EPrintf (Printf "INFO: Merge requires two or more corpus dirs\n" [])],
   Exits 0).
Proof.
  refine (proj1 (Merge_too_few_dirs _ _ _ _ _ _ _ _ _ _ _)). simpl. lia.
Defined.

(** C3, as stated, fails: merge mode with a single corpus directory is no
    user input error. *)
Lemma Merge_one_dir_is_no_error :
  ~ reports_user_error
      (Merge (fun _ => []) id (fun _ _ => EmptyString) (fun _ _ _ _ _ => [])
         (fun _ _ => []) (Flags initial_state) 0
         ["fuzz"; "-merge=1"; "corpus"] ["corpus"] None).
Proof. intros [Hstatus _]. discriminate Hstatus. Qed.

(** ** The crash cleanser *)

Section CleanseProps.

Variable ExecuteCommand : Unit -> Z.
Variable FileToVector : string -> Unit.
Variable TmpFilePath OutputFilePath : string.

Local Abbreviation TryReplacements' :=
  (TryReplacements ExecuteCommand TmpFilePath OutputFilePath).
Local Abbreviation CleanseByte' :=
  (CleanseByte ExecuteCommand TmpFilePath OutputFilePath).
Local Abbreviation CleansePass' :=
  (CleansePass ExecuteCommand TmpFilePath OutputFilePath).
Local Abbreviation CleanseAttempts' :=
  (CleanseAttempts ExecuteCommand TmpFilePath OutputFilePath).
Local Abbreviation CleanseCrashInput' :=
  (CleanseCrashInput ExecuteCommand FileToVector TmpFilePath).

Lemma insert_lookup_total (V : Unit) (i : nat) (b : Z) :
  <[i := V !!! i]> (<[i := b]> V) = V.
Proof.
  rewrite list_insert_insert_eq.
  destruct (decide (i < length V)%nat) as [Hlt|Hge].
  - apply list_insert_id. by apply list_lookup_lookup_total_lt.
  - apply list_insert_ge. lia.
Qed.

Lemma CleanseByte_amended (NumAttempts Size : nat) (st : CleanseState)
  (Idx : nat) :
  U (CleanseByte' NumAttempts Size st Idx)
    = (amended_index ExecuteCommand TmpFilePath OutputFilePath (U st) Idx).1
  /\ Effects (CleanseByte' NumAttempts Size st Idx)
     = Effects st ++ trying NumAttempts Idx Size
         :: (amended_index ExecuteCommand TmpFilePath OutputFilePath
               (U st) Idx).2.
Proof.
  unfold CleanseByte, amended_index, trying. cbn [U Effects].
  assert (Hskip : bool_decide (U st !!! Idx ∈ ReplacementBytes)
                  = bool_decide (U st !!! Idx = 32 \/ U st !!! Idx = 255)).
  { apply bool_decide_ext. unfold ReplacementBytes.
    rewrite !elem_of_cons, elem_of_nil. tauto. }
  rewrite Hskip. clear Hskip.
  destruct (bool_decide (U st !!! Idx = 32 \/ U st !!! Idx = 255));
    [by split|].
  unfold ReplacementBytes. cbn [TryReplacements U Effects Changed Steps].
  destruct (ExecuteCommand (<[Idx:=32]> (U st)) =? 0);
    cbn [negb fst snd U Effects].
  - rewrite !insert_lookup_total.
    destruct (ExecuteCommand (<[Idx:=255]> (U st)) =? 0);
      cbn [negb fst snd U Effects].
    + split; [done|].
      unfold trial. by rewrite <- !app_assoc.
    + split; [done|]. unfold trial, replaced. by rewrite <- !app_assoc.
  - split; [done|]. unfold trial, replaced. by rewrite <- !app_assoc.
Qed.

Lemma foldl_CleanseByte_amended (NumAttempts Size : nat) (idxs : list nat)
  (st : CleanseState) :
  U (foldl (CleanseByte' NumAttempts Size) st idxs)
    = (amended_pass ExecuteCommand TmpFilePath OutputFilePath NumAttempts
         Size idxs (U st)).1
  /\ Effects (foldl (CleanseByte' NumAttempts Size) st idxs)
     = Effects st
       ++ (amended_pass ExecuteCommand TmpFilePath OutputFilePath NumAttempts
             Size idxs (U st)).2.
Proof.
  revert st. induction idxs as [|i idxs IH]; intros st.
  - cbn [foldl amended_pass fst snd]. by rewrite app_nil_r.
  - cbn [foldl amended_pass fst snd].
    destruct (IH (CleanseByte' NumAttempts Size st i)) as [HU HE].
    destruct (CleanseByte_amended NumAttempts Size st i) as [HU1 HE1].
    rewrite HU, HE, HU1, HE1. split; [done|].
    by rewrite <- app_assoc.
Qed.

Lemma CleansePass_amended (NumAttempts Size : nat) (st : CleanseState) :
  U (CleansePass' NumAttempts Size st)
    = (amended_pass ExecuteCommand TmpFilePath OutputFilePath NumAttempts
         Size (seq 0 Size) (U st)).1
  /\ Effects (CleansePass' NumAttempts Size st)
     = Effects st
       ++ (amended_pass ExecuteCommand TmpFilePath OutputFilePath NumAttempts
             Size (seq 0 Size) (U st)).2.
Proof.
  unfold CleansePass.
  apply (foldl_CleanseByte_amended NumAttempts Size (seq 0 Size)
           {| U := U st; Changed := false; Effects := Effects st;
              Steps := Steps st |}).
Qed.

Lemma CleanseAttempts_amended (n NumAttempts Size : nat)
  (st : CleanseState) :
  exists k : nat,
    (k <= n)%nat /\ (0 < n -> 0 < k)%nat
    /\ U (CleanseAttempts' n NumAttempts Size st)
       = (amended_passes ExecuteCommand TmpFilePath OutputFilePath k
            NumAttempts Size (U st)).1
    /\ Effects (CleanseAttempts' n NumAttempts Size st)
       = Effects st
         ++ (amended_passes ExecuteCommand TmpFilePath OutputFilePath k
               NumAttempts Size (U st)).2.
Proof.
  revert NumAttempts st. induction n as [|n IH]; intros NumAttempts st.
  - exists O. cbn [CleanseAttempts amended_passes fst snd].
    rewrite app_nil_r. repeat split; lia.
  - cbn [CleanseAttempts].
    destruct (CleansePass_amended NumAttempts Size st) as [HU HE].
    destruct (Changed (CleansePass' NumAttempts Size st)).
    + destruct (IH (S NumAttempts) (CleansePass' NumAttempts Size st))
        as (k & Hk & _ & HUk & HEk).
      exists (S k). cbn [amended_passes fst snd].
      rewrite HUk, HEk, HU, HE, <- app_assoc.
      repeat split; lia.
    + exists 1%nat. cbn [amended_passes fst snd].
      rewrite HU, HE, app_nil_r. repeat split; lia.
Qed.

(** C2, as amended.  Every pass of the cleanser visits every index of
    [0, Size), in order, and does at each what the amended claim says, on
    the buffer that the indices before it left: an index that holds 0x20 or
    0xFF is skipped; at any other index the buffer with 0x20 there is
    written to the temporary file, run and the file removed, and the buffer
    with 0xFF there is tried in the same way only when the run with 0x20
    ended with exit code zero.  With one input file and the artifact path
    given, what [CleanseCrashInput] does is between one and five such
    passes over the bytes of the input file. *)
Theorem CleanseCrashInput_candidates :
  (forall (NumAttempts Size : nat) (st : CleanseState),
     U (CleansePass ExecuteCommand TmpFilePath OutputFilePath
          NumAttempts Size st)
       = (amended_pass ExecuteCommand TmpFilePath OutputFilePath NumAttempts
            Size (seq 0 Size) (U st)).1
     /\ Effects (CleansePass ExecuteCommand TmpFilePath OutputFilePath
                   NumAttempts Size st)
        = Effects st
          ++ (amended_pass ExecuteCommand TmpFilePath OutputFilePath
                NumAttempts Size (seq 0 Size) (U st)).2)
  /\ (forall (InputFilePath : string) (Flags : FlagsStruct),
        strs Flags !! "exact_artifact_path" = Some OutputFilePath ->
        exists k : nat,
          (1 <= k <= 5)%nat
          /\ (U (CleanseCrashInput ExecuteCommand FileToVector TmpFilePath
                   [InputFilePath] Flags).2,
              Effects (CleanseCrashInput ExecuteCommand FileToVector
                         TmpFilePath [InputFilePath] Flags).2)
             = amended_passes ExecuteCommand TmpFilePath OutputFilePath k 0
                 (length (FileToVector InputFilePath))
                 (FileToVector InputFilePath)).
Proof.
  split; [apply CleansePass_amended|].
  intros InputFilePath Flags Hout. unfold CleanseCrashInput.
  rewrite Hout. cbn [length Nat.eqb negb orb].
  rewrite bool_decide_eq_true_2 by eauto. cbn [negb orb snd lookup default].
  cbn [list_lookup default].
  destruct (CleanseAttempts_amended 5 0 (length (FileToVector InputFilePath))
              {| U := FileToVector InputFilePath; Changed := false;
                 Effects := []; Steps := [] |}) as (k & Hk & Hpos & HU & HE).
  exists k. split; [lia|]. cbn [U Effects app] in HU, HE.
  unfold id. rewrite HU, HE. by destruct (amended_passes _ _ _ _ _ _ _).
Qed.

(** *** The invariant of the three loops *)

Local Abbreviation cleanse_inv' :=
  (cleanse_inv ExecuteCommand TmpFilePath OutputFilePath).

Lemma steps_keep_crash_snoc (prev : Unit) (steps : list Unit) (u s : Unit) :
  steps_keep_crash ExecuteCommand prev steps ->
  last (prev :: steps) = Some u ->
  s = u \/ ExecuteCommand s <> 0 ->
  steps_keep_crash ExecuteCommand prev (steps ++ [s]).
Proof.
  revert prev. induction steps as [|x steps IH]; intros prev Hk Hlast Hs.
  - simpl in *. injection Hlast as ->. done.
  - destruct Hk as [Hx Hk]. split; [done|].
    apply IH; [done | | done]. by rewrite last_cons_cons in Hlast.
Qed.

Lemma last_snoc_cons (prev : Unit) (steps : list Unit) (s : Unit) :
  last (prev :: steps ++ [s]) = Some s.
Proof. by rewrite app_comm_cons, last_snoc. Qed.

Lemma executions_app (es es' : list Effect) :
  executions (es ++ es') = (executions es + executions es')%nat.
Proof. induction es as [|[] es IH]; simpl; lia. Qed.

Lemma TryReplacements_inv (U0 : Unit) (Idx : nat) (OriginalByte : Z)
  (Bytes : list Z) (st : CleanseState) :
  cleanse_inv' U0 st -> U st !! Idx = Some OriginalByte ->
  cleanse_inv' U0 (TryReplacements' Idx OriginalByte Bytes st).
Proof.
  revert st. induction Bytes as [|NewByte Bytes IH]; intros st Hinv Horig; [done|].
  destruct Hinv as (Hlen & Hsteps & Hlast & Hcrash & Hcount & Hout).
  cbn [TryReplacements].
  destruct (Z.eqb_spec (ExecuteCommand (<[Idx:=NewByte]> (U st))) 0) as [Hz|Hnz].
  - rewrite list_insert_insert_eq, (list_insert_id _ _ _ Horig).
    apply IH; [|done]. repeat split; cbn [U Steps Effects]; try done.
    + apply (steps_keep_crash_snoc _ _ (U st)); auto.
    + apply last_snoc_cons.
    + rewrite length_app, executions_app, Hcount. reflexivity.
    + intros Hne c [Hc|Hc]%elem_of_app; [by apply Hout|].
      rewrite !elem_of_cons, elem_of_nil in Hc.
      destruct Hc as [Hc|[Hc|[Hc|[]]]]; congruence.
  - repeat split; cbn [U Steps Effects].
    + by rewrite length_insert.
    + apply (steps_keep_crash_snoc _ _ (U st)); auto.
    + apply last_snoc_cons.
    + by right.
    + rewrite length_app, executions_app, Hcount. reflexivity.
    + intros Hne c [Hc|Hc]%elem_of_app; [by apply Hout|].
      rewrite !elem_of_app, !elem_of_cons, elem_of_nil in Hc.
      destruct Hc as [[Hc|[Hc|[Hc|[]]]]|[Hc|[Hc|[]]]]; congruence.
Qed.

Lemma CleanseByte_inv (U0 : Unit) (NumAttempts Size : nat)
  (st : CleanseState) (Idx : nat) :
  cleanse_inv' U0 st -> (Idx < length U0)%nat ->
  cleanse_inv' U0 (CleanseByte' NumAttempts Size st Idx).
Proof.
  intros Hinv Hidx. unfold CleanseByte. cbn [U].
  assert (Hinv' : cleanse_inv' U0
            {| U := U st; Changed := Changed st;
               Effects := Effects st ++
                 [EPrintf (Printf "CLEANSE[%d]: Trying to replace byte %zd of %zd\n"
                     [AInt (Z.of_nat NumAttempts); AInt (Z.of_nat Idx);
                      AInt (Z.of_nat Size)])];
               Steps := Steps st |}).
  { destruct Hinv as (Hlen & Hsteps & Hlast & Hcrash & Hcount & Hout).
    repeat split; cbn [U Steps Effects]; try done.
    - rewrite executions_app, Hcount. simpl. lia.
    - intros Hne c [Hc|Hc]%elem_of_app; [by apply Hout|].
      apply list_elem_of_singleton in Hc. discriminate Hc. }
  case_bool_decide; [done|].
  apply TryReplacements_inv; [done|]. cbn [U].
  apply list_lookup_lookup_total_lt. destruct Hinv as [-> _]. done.
Qed.

Lemma CleansePass_inv (U0 : Unit) (NumAttempts Size : nat)
  (st : CleanseState) :
  cleanse_inv' U0 st -> (Size <= length U0)%nat ->
  cleanse_inv' U0 (CleansePass' NumAttempts Size st).
Proof.
  intros Hinv Hsize. unfold CleansePass.
  assert (Hall : Forall (fun Idx => (Idx < length U0)%nat) (seq 0 Size)).
  { apply Forall_forall. intros i Hi%elem_of_seq. lia. }
  assert (Hinv0 : cleanse_inv' U0
            {| U := U st; Changed := false; Effects := Effects st;
               Steps := Steps st |}) by exact Hinv.
  revert Hinv0. generalize ({| U := U st; Changed := false;
    Effects := Effects st; Steps := Steps st |}).
  induction Hall as [|Idx Idxs Hidx _ IH]; intros st0 Hinv0; [done|].
  cbn [foldl]. apply IH. by apply CleanseByte_inv.
Qed.

Lemma CleanseAttempts_inv (U0 : Unit) (n NumAttempts Size : nat)
  (st : CleanseState) :
  cleanse_inv' U0 st -> (Size <= length U0)%nat ->
  cleanse_inv' U0 (CleanseAttempts' n NumAttempts Size st).
Proof.
  revert NumAttempts st. induction n as [|n IH]; intros NumAttempts st Hinv Hsize; [done|].
  cbn [CleanseAttempts].
  pose proof (CleansePass_inv U0 NumAttempts Size st Hinv Hsize) as Hpass.
  destruct (Changed _); [by apply IH | done].
Qed.

End CleanseProps.

Section CleanseCrashInputProps.

Variable ExecuteCommand : Unit -> Z.
Variable FileToVector : string -> Unit.
Variable TmpFilePath : string.

Local Abbreviation CleanseCrashInput' :=
  (CleanseCrashInput ExecuteCommand FileToVector TmpFilePath).

(** C4: the buffer after each round of the innermost loop is the buffer
    before it, or one on which the command ends with an exit code that is
    not zero; so is the buffer the function ends with, and every buffer
    written to the artifact path. *)
Theorem CleanseCrashInput_keeps_crash (Inputs : list string)
  (Flags : FlagsStruct) :
  steps_keep_crash ExecuteCommand
    (FileToVector (default EmptyString (Inputs !! O)))
    (Steps (CleanseCrashInput' Inputs Flags).2)
  /\ length (Steps (CleanseCrashInput' Inputs Flags).2)
     = executions (Effects (CleanseCrashInput' Inputs Flags).2)
  /\ ((CleanseCrashInput' Inputs Flags).1 = Returns 0 ->
      last (FileToVector (default EmptyString (Inputs !! O))
              :: Steps (CleanseCrashInput' Inputs Flags).2)
        = Some (U (CleanseCrashInput' Inputs Flags).2)
      /\ (U (CleanseCrashInput' Inputs Flags).2
            = FileToVector (default EmptyString (Inputs !! O))
          \/ ExecuteCommand (U (CleanseCrashInput' Inputs Flags).2) <> 0))
  /\ (forall OutputFilePath,
        strs Flags !! "exact_artifact_path" = Some OutputFilePath ->
        TmpFilePath <> OutputFilePath ->
        forall c,
          EWriteToFile c OutputFilePath
            ∈ Effects (CleanseCrashInput' Inputs Flags).2 ->
          ExecuteCommand c <> 0).
Proof.
  unfold CleanseCrashInput.
  destruct (negb _ || negb _); cbn [fst snd Steps Effects U].
  - split; [done|]. split; [done|]. split; [by intros [=]|].
    intros p _ _ c Hc. apply list_elem_of_singleton in Hc. discriminate Hc.
  - set (U0 := FileToVector (default EmptyString (Inputs !! O))).
    set (Out := default EmptyString (strs Flags !! "exact_artifact_path")).
    assert (Hinv : cleanse_inv ExecuteCommand TmpFilePath Out U0
              (CleanseAttempts ExecuteCommand TmpFilePath Out 5 0 (length U0)
                 {| U := U0; Changed := false; Effects := []; Steps := [] |})).
    { apply CleanseAttempts_inv; [|done].
      repeat split; cbn [U Steps Effects]; [by left|].
      intros _ c Hc. by apply elem_of_nil in Hc. }
    destruct Hinv as (Hlen & Hsteps & Hlast & Hcrash & Hcount & Hout).
    repeat split; try done.
    intros p Hp Hne.
    assert (Hop : Out = p) by (unfold Out; by rewrite Hp).
    rewrite <- Hop in Hne |- *. by apply Hout.
Qed.

End CleanseCrashInputProps.


Lemma CleanseCrashInput_keeps_crash_witness :
  (fun u : Unit => if bool_decide (u !! 1%nat = Some 88) then 1 else 0)
    [32; 88; 32] <> 0.
Proof.
  refine (proj2 (proj2 (proj2
    (CleanseCrashInput_keeps_crash
       (fun u => if bool_decide (u !! 1%nat = Some 88) then 1 else 0)
       (fun _ => [65; 88; 66]) "tmp.repro" ["crash"]
       (set_str "exact_artifact_path" (Some "out"%string)
          (Flags initial_state)))))
    "out"%string _ _ [32; 88; 32] _).
  - reflexivity.
  - discriminate.
  - apply list_elem_of_In. vm_compute.
    repeat (first [left; reflexivity | right]).
Defined.

Lemma CleanseCrashInput_candidates_witness :
  exists k : nat,
    (1 <= k <= 5)%nat
    /\ (U (CleanseCrashInput
             (fun u => if bool_decide (u !! 1%nat = Some 88) then 1 else 0)
             (fun _ => [65; 88; 66]) "tmp.repro" ["crash"]
             (set_str "exact_artifact_path" (Some "out"%string)
                (Flags initial_state))).2,
        Effects (CleanseCrashInput
             (fun u => if bool_decide (u !! 1%nat = Some 88) then 1 else 0)
             (fun _ => [65; 88; 66]) "tmp.repro" ["crash"]
             (set_str "exact_artifact_path" (Some "out"%string)
                (Flags initial_state))).2)
       = amended_passes
           (fun u => if bool_decide (u !! 1%nat = Some 88) then 1 else 0)
           "tmp.repro" "out" k 0 3 [65; 88; 66].
Proof.
  refine (proj2 (CleanseCrashInput_candidates
    (fun u => if bool_decide (u !! 1%nat = Some 88) then 1 else 0)
    (fun _ => [65; 88; 66]) "tmp.repro" "out")
    "crash"%string
    (set_str "exact_artifact_path" (Some "out"%string) (Flags initial_state))
    _).
  reflexivity.
Defined.

(** C2, as stated, fails: on a one-byte input that holds 0x20 the cleanser
    runs nothing, so the candidate 0xFF, which differs from the byte, is
    never tried. *)
Lemma cleanser_skips_other_candidate :
  ~ tries_every_other_candidate [32]
      (Effects (CleanseCrashInput (fun _ => 1) (fun _ => [32]) "tmp.repro"
                  ["crash"]
                  (set_str "exact_artifact_path" (Some "out"%string)
                     (Flags initial_state))).2).
Proof.
  intros Hall. destruct (Hall O 255) as (Content & Hin & _).
  - simpl. lia.
  - apply elem_of_cons. right. apply elem_of_cons. by left.
  - discriminate.
  - vm_compute in Hin. by apply elem_of_nil in Hin.
Qed.

Example cleanse_AXB :
  U (CleanseCrashInput
       (fun u => if bool_decide (u !! 1%nat = Some 88) then 1 else 0)
       (fun _ => [65; 88; 66]) "tmp.repro" ["crash"]
       (set_str "exact_artifact_path" (Some "out"%string)
          (Flags initial_state))).2
  = [32; 88; 32].
Proof. vm_compute. reflexivity. Qed.


(** ** The dictionary analyzer *)

Lemma is_prefix_app (Pattern Data : Unit) :
  is_prefix Pattern Data = true <-> exists r, Data = Pattern ++ r.
Proof.
  revert Data. induction Pattern as [|p Pattern IH]; intros Data.
  - split; [by exists Data | done].
  - destruct Data as [|d Data]; simpl.
    + split; [done | by intros [r [=]]].
    + rewrite andb_true_iff, IH, Z.eqb_eq. split.
      * intros [-> [r ->]]. by exists r.
      * intros [r [= -> ->]]. split; [done | by exists r].
Qed.

Lemma search_le (Data Pattern : Unit) : (search Data Pattern <= length Data)%nat.
Proof.
  induction Data as [|d Data IH]; cbn [search].
  - by destruct (is_prefix Pattern []).
  - destruct (is_prefix Pattern (d :: Data)); simpl; lia.
Qed.

Lemma search_no_occurrence (Data Pattern : Unit) :
  ~ occurs_in Pattern Data -> search Data Pattern = length Data.
Proof.
  induction Data as [|d Data IH]; intros Hno; cbn [search].
  - by destruct (is_prefix Pattern []).
  - destruct (is_prefix Pattern (d :: Data)) eqn:Hp.
    + apply is_prefix_app in Hp as [r Hr]. destruct Hno. by exists [], r.
    + simpl. f_equal. apply IH. intros (pre & post & ->).
      apply Hno. by exists (d :: pre), post.
Qed.

Lemma search_found (Data Pattern : Unit) :
  (search Data Pattern < length Data)%nat ->
  (search Data Pattern + length Pattern <= length Data)%nat.
Proof.
  induction Data as [|d Data IH]; cbn [search]; [simpl; lia|].
  destruct (is_prefix Pattern (d :: Data)) eqn:Hp.
  - intros _. apply is_prefix_app in Hp as [r ->]. rewrite length_app. lia.
  - simpl. intros H. assert (search Data Pattern < length Data)%nat by lia.
    specialize (IH H0). lia.
Qed.

Lemma length_mask_range (Data : Unit) (StartPos EndPos : nat) :
  (StartPos <= length Data)%nat -> (StartPos <= EndPos)%nat ->
  length (mask_range Data StartPos EndPos) = length Data.
Proof.
  intros. unfold mask_range.
  rewrite !length_app, length_fmap, !length_take, !length_drop. lia.
Qed.

(** The masking loop ends when the token is not empty. *)
Lemma MaskOccurrences_total (Token : Unit) (fuel : nat) (Data : Unit)
  (StartPos : nat) :
  Token <> [] ->
  (StartPos = length Data
   \/ (StartPos < length Data /\ StartPos + length Token <= length Data))%nat ->
  (length Data - StartPos < fuel)%nat ->
  is_Some (MaskOccurrences fuel Token Data StartPos).
Proof.
  intros Hne. assert (0 < length Token)%nat by (destruct Token; simpl; [done | lia]).
  revert Data StartPos. induction fuel as [|fuel IH]; intros Data StartPos Hpos Hfuel.
  - lia.
  - cbn [MaskOccurrences].
    destruct (Nat.eqb_spec StartPos (length Data)) as [|Hneq]; [done|].
    destruct Hpos as [|[Hlt Hend]]; [done|].
    set (EndPos := (StartPos + length Token)%nat) in *.
    set (Data' := mask_range Data StartPos EndPos).
    assert (Hlen : length Data' = length Data)
      by (apply length_mask_range; lia).
    pose proof (search_le (drop EndPos Data') Token) as Hle.
    pose proof (search_found (drop EndPos Data') Token) as Hfound.
    rewrite length_drop, Hlen in Hle, Hfound.
    apply IH; unfold search_from; rewrite Hlen; lia.
Qed.

Section AnalyzeProps.

Variable FuzzerState : Type.
Variable ExecuteCallback : FuzzerState -> Unit -> FuzzerState.
Variable CollectFeatures : FuzzerState -> list Z.

Local Abbreviation AnalyzeToken' :=
  (AnalyzeToken FuzzerState ExecuteCallback CollectFeatures).
Local Abbreviation AnalyzeTokens' :=
  (AnalyzeTokens FuzzerState ExecuteCallback CollectFeatures).
Local Abbreviation AnalyzeCorpus' :=
  (AnalyzeCorpus FuzzerState ExecuteCallback CollectFeatures).
Local Abbreviation AnalyzeDictionary' :=
  (AnalyzeDictionary FuzzerState ExecuteCallback CollectFeatures).

Lemma AnalyzeToken_total IF C i Token st :
  Token <> [] -> is_Some (AnalyzeToken' IF C i Token st).
Proof.
  intros Hne. unfold AnalyzeToken.
  destruct (Nat.eqb_spec (search C Token) (length C)) as [|Hneq]; [done|].
  pose proof (search_le C Token). pose proof (search_found C Token).
  destruct (MaskOccurrences_total Token (S (length C)) C (search C Token))
    as [Data ->]; [done | lia | lia | done].
Qed.

Lemma AnalyzeTokens_total IF C i Tokens st :
  Forall (fun Token => Token <> []) Tokens ->
  is_Some (AnalyzeTokens' IF C i Tokens st).
Proof.
  intros Hall. revert i st.
  induction Hall as [|Token Tokens Hne _ IH]; intros i st; [done|].
  cbn [AnalyzeTokens].
  destruct (AnalyzeToken_total IF C i Token st Hne) as [st1 ->]. apply IH.
Qed.

Lemma AnalyzeCorpus_total Dict Corpus st :
  Forall (fun Token => Token <> []) Dict ->
  is_Some (AnalyzeCorpus' Dict Corpus st).
Proof.
  intros Hall. revert st. induction Corpus as [|C Corpus IH]; intros st; [done|].
  cbn [AnalyzeCorpus].
  destruct (AnalyzeTokens_total (CollectFeatures (ExecuteCallback (Fz st) C)) C 0 Dict
              {| Fz := ExecuteCallback (Fz st) C; Scores := Scores st;
                 Usages := Usages st |} Hall) as [st1 ->].
  apply IH.
Qed.

Lemma AnalyzeToken_untouched IF C j Token st st' i :
  AnalyzeToken' IF C j Token st = Some st' ->
  (j = i -> ~ occurs_in Token C) ->
  untouched i st -> untouched i st'.
Proof.
  unfold AnalyzeToken. intros Hrun Hocc [Hu Hs].
  destruct (decide (j = i)) as [->|Hne].
  - rewrite (search_no_occurrence C Token (Hocc eq_refl)), Nat.eqb_refl in Hrun.
    by injection Hrun as <-.
  - destruct (_ =? _)%nat; [by injection Hrun as <-|].
    destruct (MaskOccurrences _ _ _ _) as [Data|]; [|done].
    injection Hrun as <-. split; cbn [Usages Scores].
    + by rewrite list_lookup_alter_ne.
    + case_bool_decide; by rewrite list_lookup_alter_ne.
Qed.

Lemma AnalyzeTokens_untouched IF C k Tokens st st' i :
  AnalyzeTokens' IF C k Tokens st = Some st' ->
  (forall Token, (k <= i)%nat -> Tokens !! (i - k)%nat = Some Token ->
                 ~ occurs_in Token C) ->
  untouched i st -> untouched i st'.
Proof.
  revert k st. induction Tokens as [|Token Tokens IH]; intros k st Hrun Hocc Hun.
  - by injection Hrun as <-.
  - cbn [AnalyzeTokens] in Hrun.
    destruct (AnalyzeToken' IF C k Token st) as [st1|] eqn:H1; [|done].
    apply (IH (S k) st1 Hrun).
    + intros T Hk HT. apply (Hocc T); [lia|].
      replace (i - k)%nat with (S (i - S k)) by lia. done.
    + apply (AnalyzeToken_untouched _ _ _ _ _ _ _ H1); [|done].
      intros ->. apply Hocc; [lia|]. by rewrite Nat.sub_diag.
Qed.

Lemma AnalyzeCorpus_untouched Dict Corpus st st' i Token :
  AnalyzeCorpus' Dict Corpus st = Some st' ->
  Dict !! i = Some Token ->
  (forall C, C ∈ Corpus -> ~ occurs_in Token C) ->
  untouched i st -> untouched i st'.
Proof.
  intros Hrun Hi. revert st Hrun.
  induction Corpus as [|C Corpus IH]; intros st Hrun Hocc Hun.
  - by injection Hrun as <-.
  - cbn [AnalyzeCorpus] in Hrun.
    destruct (AnalyzeTokens' _ C 0 Dict _) as [st1|] eqn:H1; [|done].
    apply (IH st1 Hrun).
    + intros C' HC'. apply Hocc. by right.
    + apply (AnalyzeTokens_untouched _ _ _ _ _ _ _ H1); [|done].
      intros T _. rewrite Nat.sub_0_r, Hi. intros [= <-]. apply Hocc. by left.
Qed.

Lemma PrintUseless_block (k : nat) (Tokens : list Unit) (Sc Us : list Z)
  (j : nat) (Token : Unit) :
  Tokens !! j = Some Token -> Sc !!! (k + j)%nat <= 0 ->
  exists pre post,
    PrintUseless k Tokens Sc Us =
    pre ++ useless_block Token (Sc !!! (k + j)%nat) (Us !!! (k + j)%nat) ++ post.
Proof.
  revert k j. induction Tokens as [|T Tokens IH]; intros k j Hj Hle; [done|].
  cbn [PrintUseless]. destruct j as [|j].
  - injection Hj as ->. rewrite Nat.add_0_r in *.
    destruct (Z.ltb_spec 0 (Sc !!! k)); [lia|].
    by exists [], (PrintUseless (S k) Tokens Sc Us).
  - destruct (IH (S k) j Hj) as (pre & post & ->).
    + by replace (S k + j)%nat with (k + S j)%nat by lia.
    + replace (S k + j)%nat with (k + S j)%nat by lia.
      eexists (_ ++ pre), post. by rewrite <- app_assoc.
Qed.

Lemma printed_tokens_app (es es' : list Effect) :
  printed_tokens (es ++ es') = printed_tokens es ++ printed_tokens es'.
Proof. apply omap_app. Qed.

Lemma PrintUseless_tokens (k : nat) (Tokens : list Unit) (Sc Us : list Z) :
  printed_tokens (PrintUseless k Tokens Sc Us) =
  (fun i => Tokens !!! (i - k)%nat)
    <$> filter (fun i => Sc !!! i <= 0) (seq k (length Tokens)).
Proof.
  revert k. induction Tokens as [|T Tokens IH]; intros k; [done|].
  cbn [PrintUseless length seq]. rewrite printed_tokens_app, IH, filter_cons.
  assert (Hshift :
    (fun i => Tokens !!! (i - S k)%nat)
      <$> filter (fun i => Sc !!! i <= 0) (seq (S k) (length Tokens))
    = (fun i => (T :: Tokens) !!! (i - k)%nat)
      <$> filter (fun i => Sc !!! i <= 0) (seq (S k) (length Tokens))).
  { apply list_fmap_ext. intros n i [_ Hi%elem_of_seq]%list_elem_of_lookup_2%list_elem_of_filter.
    replace (i - k)%nat with (S (i - S k)) by lia. done. }
  rewrite Hshift.
  destruct (Z.ltb_spec 0 (Sc !!! k)); case_decide; try lia.
  - done.
  - cbn [fmap list_fmap]. by rewrite Nat.sub_diag.
Qed.

(** C9: a token that occurs in no corpus unit ends with usage count 0 and
    score 0 and is reported as useless; the tokens reported are those whose
    score is not positive.  The call returns when no token is empty. *)
Theorem AnalyzeDictionary_unused_token (F : FuzzerState)
  (Dict Corpus : list Unit) :
  (Forall (fun Token => Token <> []) Dict ->
   is_Some (AnalyzeDictionary' F Dict Corpus))
  /\ forall r st out,
       AnalyzeDictionary' F Dict Corpus = Some (r, st, out) ->
       r = 0
       /\ printed_tokens out =
          (fun i => Dict !!! i)
            <$> filter (fun i => Scores st !!! i <= 0) (seq 0 (length Dict))
       /\ forall i Token,
            Dict !! i = Some Token ->
            (forall C, C ∈ Corpus -> ~ occurs_in Token C) ->
            Usages st !! i = Some 0 /\ Scores st !! i = Some 0
            /\ exists pre post, out = pre ++ useless_block Token 0 0 ++ post.
Proof.
  unfold AnalyzeDictionary. split.
  - intros Hall.
    destruct (AnalyzeCorpus_total Dict Corpus
                {| Fz := F; Scores := replicate (length Dict) 0;
                   Usages := replicate (length Dict) 0 |} Hall) as [st ->].
    done.
  - intros r st out Hrun.
    destruct (AnalyzeCorpus' Dict Corpus _) as [st1|] eqn:Hst; [|done].
    injection Hrun as <- <- <-. split; [done|]. split.
    + match goal with
      | |- printed_tokens (_ :: _ :: ?es) = ?R =>
          change (printed_tokens es = R)
      end.
      rewrite printed_tokens_app, PrintUseless_tokens.
      change (printed_tokens [_]) with (@nil Unit).
      rewrite app_nil_r.
      apply list_fmap_ext. intros n i _. by rewrite Nat.sub_0_r.
    + intros i Token Hi Hocc.
      assert (Hun : untouched i st1).
      { apply (AnalyzeCorpus_untouched _ _ _ _ _ _ Hst Hi Hocc).
        apply lookup_lt_Some in Hi.
        split; cbn [Usages Scores]; by apply lookup_replicate_2. }
      destruct Hun as [Hu Hs]. split; [done|]. split; [done|].
      apply list_lookup_total_correct in Hu, Hs.
      destruct (PrintUseless_block 0 Dict (Scores st1) (Usages st1) i Token Hi)
        as (pre & post & Hp).
      { simpl. lia. }
      simpl in Hp. rewrite Hu, Hs in Hp. rewrite Hp.
      eexists (_ :: _ :: pre), (post ++ _). cbn [app].
      by rewrite <- !app_assoc.
Qed.

End AnalyzeProps.

Lemma AnalyzeDictionary_unused_token_witness :
  exists r st out,
    AnalyzeDictionary Unit (fun _ C => C) (fun C => C) []
      [[1; 2]; [9]] [[0; 1; 2; 3; 1; 2]] = Some (r, st, out)
    /\ Usages st !! 1%nat = Some 0 /\ Scores st !! 1%nat = Some 0.
Proof.
  pose proof (AnalyzeDictionary_unused_token Unit (fun _ C => C) (fun C => C)
                [] [[1; 2]; [9]] [[0; 1; 2; 3; 1; 2]]) as [Hret Hprop].
  destruct Hret as [[[r st] out] Hrun].
  { repeat constructor; discriminate. }
  exists r, st, out. split; [exact Hrun|].
  destruct (Hprop r st out Hrun) as (_ & _ & Hunused).
  destruct (Hunused 1%nat [9] eq_refl) as (Hu & Hs & _); [|done].
  intros C ->%list_elem_of_singleton (pre & post & Heq).
  assert (Hin : 9 ∈ [0; 1; 2; 3; 1; 2]).
  { rewrite Heq, !elem_of_app, elem_of_cons. auto. }
  rewrite !elem_of_cons, elem_of_nil in Hin.
  destruct Hin as [?|[?|[?|[?|[?|[?|[]]]]]]]; discriminate.
Defined.

(** ** The worker pool *)

Lemma left_count_le (ts : list ThreadStatus) : (left_count ts <= length ts)%nat.
Proof. induction ts as [|[] ts IH]; simpl; lia. Qed.

Lemma left_count_insert (ts : list ThreadStatus) (t : nat) :
  ts !! t = Some InLoop ->
  left_count (<[t := LeftLoop]> ts) = S (left_count ts).
Proof.
  revert t. induction ts as [|x ts IH]; intros [|t] Ht; try done.
  - by injection Ht as ->.
  - simpl in *. destruct x; by rewrite IH.
Qed.

Lemma left_count_lt (ts : list ThreadStatus) (t : nat) :
  ts !! t = Some InLoop -> (left_count ts < length ts)%nat.
Proof.
  intros Ht. pose proof (left_count_le (<[t := LeftLoop]> ts)) as Hle.
  rewrite left_count_insert, length_insert in Hle by done. lia.
Qed.

Lemma all_joined_left_count (s : PoolState) :
  all_joined s = true -> left_count (Threads s) = length (Threads s).
Proof.
  unfold all_joined. induction (Threads s) as [|[] ts IH]; simpl; try done.
  intros H. by rewrite IH.
Qed.

Lemma left_count_replicate (n : nat) : left_count (replicate n InLoop) = O.
Proof. induction n; simpl; done. Qed.

Lemma to_unsigned_small z : 0 <= z < 2 ^ 32 -> to_unsigned z = z.
Proof. intros. unfold to_unsigned. by apply Z.mod_small. Qed.

Section WorkerPoolProps.

Variable ExecuteCommand : Z -> Z.
Variable CommandLine : Z -> string.
Variable Flags : FlagsStruct.
Variable NumWorkers NumJobs : Z.

Local Abbreviation sched_step' :=
  (sched_step ExecuteCommand CommandLine Flags NumJobs).
Local Abbreviation run_schedule' :=
  (run_schedule ExecuteCommand CommandLine Flags NumJobs).
Local Abbreviation RunInMultipleProcesses' :=
  (RunInMultipleProcesses ExecuteCommand CommandLine Flags).
Local Abbreviation claims_each_job_once' :=
  (claims_each_job_once ExecuteCommand CommandLine Flags).

Local Abbreviation pool_inv' := (pool_inv NumWorkers NumJobs).

Hypothesis Hjobs : 0 <= NumJobs.
Hypothesis Hnowrap : NumJobs + NumWorkers <= 2 ^ 32.

Lemma pool_inv_start : pool_inv' (pool_start NumWorkers).
Proof.
  unfold pool_inv, pool_start. cbn [Claimed Threads Counter].
  rewrite left_count_replicate, length_replicate. simpl. repeat split; lia.
Qed.

Lemma pool_inv_step (s : PoolState) (t : nat) :
  pool_inv' s -> pool_inv' (sched_step' s t).
Proof.
  intros (Hids & Hm & Hlen & Hcnt). unfold sched_step.
  destruct (Threads s !! t) as [[]|] eqn:Ht; try done.
  pose proof (left_count_lt _ _ Ht) as He.
  unfold WorkerRound.
  assert (HC : Counter s = if decide (left_count (Threads s) = O)
                           then Z.of_nat (length (Claimed s))
                           else NumJobs + Z.of_nat (left_count (Threads s))).
  { destruct (left_count (Threads s)) eqn:E; [done|].
    destruct Hcnt as [_ ->]. rewrite to_unsigned_small; [done | lia]. }
  destruct (Z.leb_spec NumJobs (Counter s)) as [Hge|Hlt].
  - (* the worker leaves its loop *)
    unfold pool_inv. cbn [Claimed Threads Counter].
    rewrite length_insert, left_count_insert by done.
    repeat split; try done.
    + destruct (left_count (Threads s)); [simpl in HC; lia | by destruct Hcnt].
    + rewrite HC. f_equal. case_decide as E; [rewrite E|]; lia.
  - (* the worker claims job [Counter s] *)
    destruct (left_count (Threads s)) eqn:E; [|simpl in HC; lia].
    simpl in HC.
    unfold pool_inv. cbn [Claimed Threads Counter].
    rewrite E, fmap_app, length_app, Hids. cbn [length fmap list_fmap snd].
    rewrite HC.
    repeat split; try lia; try done.
    + replace (Z.of_nat (length (Claimed s) + 1)) with (Z.of_nat (length (Claimed s)) + 1) by lia.
      rewrite seqZ_app by lia. f_equal.
    + rewrite to_unsigned_small; lia.
Qed.

Lemma pool_inv_run (sched : list nat) (s : PoolState) :
  pool_inv' s -> pool_inv' (run_schedule' sched s).
Proof.
  revert s. induction sched as [|t sched IH]; intros s Hinv; [done|].
  apply IH. by apply pool_inv_step.
Qed.

(** *** Every worker leaves after at most [NumJobs + 1] rounds *)

Lemma run_schedule_app (sched sched' : list nat) (s : PoolState) :
  run_schedule' (sched ++ sched') s = run_schedule' sched' (run_schedule' sched s).
Proof. apply foldl_app. Qed.

Lemma run_schedule_cons (t : nat) (sched : list nat) (s : PoolState) :
  run_schedule' (t :: sched) s = run_schedule' sched (sched_step' s t).
Proof. reflexivity. Qed.

Lemma rounds_of_snoc (t u : nat) (sched : list nat) :
  rounds_of t (sched ++ [u])
  = (rounds_of t sched + if decide (u = t) then 1 else 0)%nat.
Proof.
  unfold rounds_of. rewrite filter_app, length_app. f_equal.
  rewrite filter_cons, filter_nil. by case_decide.
Qed.

Lemma claims_of_snoc (t u : nat) (C : Z) (cl : list (nat * Z)) :
  claims_of t (cl ++ [(u, C)])
  = (claims_of t cl + if decide (u = t) then 1 else 0)%nat.
Proof.
  unfold claims_of. rewrite filter_app, length_app. f_equal.
  rewrite filter_cons, filter_nil. cbn [fst]. by case_decide.
Qed.

Lemma claims_of_le (t : nat) (cl : list (nat * Z)) :
  (claims_of t cl <= length cl)%nat.
Proof. apply length_filter. Qed.

(** A worker that is still in its loop has claimed a job in each of the
    rounds it was given. *)
Lemma rounds_claimed (sched : list nat) (t : nat) :
  Threads (run_schedule' sched (pool_start NumWorkers)) !! t = Some InLoop ->
  claims_of t (Claimed (run_schedule' sched (pool_start NumWorkers)))
  = rounds_of t sched.
Proof.
  revert t. induction sched as [|u sched IH] using rev_ind; intros t; [done|].
  rewrite run_schedule_app, rounds_of_snoc.
  set (s := run_schedule' sched (pool_start NumWorkers)) in *.
  cbn [run_schedule foldl]. unfold sched_step.
  destruct (Threads s !! u) as [[]|] eqn:Hu.
  - unfold WorkerRound.
    destruct (NumJobs <=? Counter s); cbn [Threads Claimed].
    + intros Ht. destruct (decide (u = t)) as [->|Hne].
      * rewrite list_lookup_insert_eq in Ht by (by eapply lookup_lt_Some).
        discriminate Ht.
      * rewrite list_lookup_insert_ne in Ht by done.
        rewrite (IH t Ht). lia.
    + intros Ht. by rewrite claims_of_snoc, (IH t Ht).
  - intros Ht. rewrite (IH t Ht).
    case_decide as E; [|lia]. subst u. congruence.
  - intros Ht. rewrite (IH t Ht).
    case_decide as E; [|lia]. subst u. congruence.
Qed.

(** While the counter cannot wrap, an interleaving that gives every worker
    more than [NumJobs] rounds lets every worker leave its loop. *)
Lemma fair_schedule_joins (sched : list nat) :
  (forall t : nat,
     (t < Z.to_nat NumWorkers)%nat ->
     (Z.to_nat NumJobs < rounds_of t sched)%nat) ->
  all_joined (run_schedule' sched (pool_start NumWorkers)) = true.
Proof.
  intros Hfair.
  destruct (pool_inv_run sched _ pool_inv_start) as (_ & Hm & Hlen & _).
  unfold all_joined. apply forallb_forall. intros x Hx.
  apply list_elem_of_In, list_elem_of_lookup in Hx as [t Ht].
  destruct x; [|done]. exfalso.
  pose proof (lookup_lt_Some _ _ _ Ht) as Hlt. rewrite Hlen in Hlt.
  pose proof (rounds_claimed sched t Ht) as Hr.
  pose proof (claims_of_le t
    (Claimed (run_schedule' sched (pool_start NumWorkers)))) as Hle.
  specialize (Hfair t Hlt). lia.
Qed.

Lemma rounds_of_app (t : nat) (sched sched' : list nat) :
  rounds_of t (sched ++ sched')
  = (rounds_of t sched + rounds_of t sched')%nat.
Proof. unfold rounds_of. by rewrite filter_app, length_app. Qed.

Lemma rounds_of_seq (t W : nat) :
  rounds_of t (seq 0 W) = if decide (t < W)%nat then 1%nat else O.
Proof.
  induction W as [|W IH]; [done|].
  rewrite seq_S, rounds_of_snoc, IH. cbn [Nat.add].
  repeat case_decide; lia.
Qed.

Lemma rounds_of_round_robin (t W n : nat) :
  (t < W)%nat -> rounds_of t (round_robin W n) = n.
Proof.
  intros Ht. unfold round_robin. induction n as [|n IH]; [done|].
  cbn [replicate concat]. rewrite rounds_of_app, rounds_of_seq, IH.
  by case_decide.
Qed.

(** C5, as amended: while [NumJobs + NumWorkers] is at most [2^32], under
    every interleaving of the workers' rounds
    - the job ids claimed so far are [0], ..., [m - 1] for some
      [m <= NumJobs], in this order: at no point is an id claimed twice;
    - once every worker has been given more than [NumJobs] rounds, every
      worker has left its loop and the joins return; any interleaving,
      however it starts, goes on to this when the workers then take
      [NumJobs + 1] rounds each in turn;
    - when the joins return, the ids claimed are [0], ..., [NumJobs - 1],
      each once. *)
Theorem workers_claim_each_job_once :
  0 < NumWorkers ->
  claims_each_job_once ExecuteCommand CommandLine Flags NumWorkers NumJobs
  /\ (forall sched r s,
        RunInMultipleProcesses ExecuteCommand CommandLine Flags
          NumWorkers NumJobs sched = Some (r, s) ->
        (Claimed s).*2 = seqZ 0 NumJobs)
  /\ (forall sched,
        (Claimed (run_schedule ExecuteCommand CommandLine Flags NumJobs sched
                    (pool_start NumWorkers))).*2
        = seqZ 0 (Z.of_nat (length
            (Claimed (run_schedule ExecuteCommand CommandLine Flags NumJobs
                        sched (pool_start NumWorkers)))))
        /\ Z.of_nat (length
             (Claimed (run_schedule ExecuteCommand CommandLine Flags NumJobs
                         sched (pool_start NumWorkers)))) <= NumJobs)
  /\ (forall sched,
        (forall t : nat,
           (t < Z.to_nat NumWorkers)%nat ->
           (Z.to_nat NumJobs < rounds_of t sched)%nat) ->
        is_Some (RunInMultipleProcesses ExecuteCommand CommandLine Flags
                   NumWorkers NumJobs sched))
  /\ (forall sched,
        is_Some (RunInMultipleProcesses ExecuteCommand CommandLine Flags
                   NumWorkers NumJobs
                   (sched ++ round_robin (Z.to_nat NumWorkers)
                               (S (Z.to_nat NumJobs))))).
Proof.
  intros Hpos.
  assert (Hseq : forall sched r s,
    RunInMultipleProcesses' NumWorkers NumJobs sched = Some (r, s) ->
    (Claimed s).*2 = seqZ 0 NumJobs).
  { intros sched r s. unfold RunInMultipleProcesses.
    destruct (all_joined _) eqn:Hall; [|done]. intros [= _ <-].
    destruct (pool_inv_run sched _ pool_inv_start) as (Hids & _ & Hlen & Hcnt).
    apply all_joined_left_count in Hall. rewrite Hall, Hlen in Hcnt.
    destruct (Z.to_nat NumWorkers) eqn:E; [lia|].
    destruct Hcnt as [Hm _]. by rewrite Hids, Hm. }
  assert (Hfair : forall sched,
    (forall t : nat,
       (t < Z.to_nat NumWorkers)%nat ->
       (Z.to_nat NumJobs < rounds_of t sched)%nat) ->
    is_Some (RunInMultipleProcesses' NumWorkers NumJobs sched)).
  { intros sched Hf. unfold RunInMultipleProcesses.
    by rewrite (fair_schedule_joins sched Hf). }
  split; [|split; [done|split; [|split; [done|]]]].
  - intros sched r s Hrun. by rewrite (Hseq _ _ _ Hrun).
  - intros sched.
    destruct (pool_inv_run sched _ pool_inv_start) as (Hids & Hm & _).
    done.
  - intros sched. apply Hfair. intros t Ht.
    rewrite rounds_of_app, rounds_of_round_robin by done. lia.
Qed.

(** *** One worker alone: [k] rounds that each claim a job *)

Lemma run_claims (k : nat) (s : PoolState) (t : nat) :
  Threads s !! t = Some InLoop ->
  0 <= Counter s -> Counter s + Z.of_nat k <= NumJobs -> NumJobs < 2 ^ 32 ->
  Counter (run_schedule' (replicate k t) s) = Counter s + Z.of_nat k
  /\ Threads (run_schedule' (replicate k t) s) = Threads s
  /\ (Claimed (run_schedule' (replicate k t) s)).*2
     = (Claimed s).*2 ++ seqZ (Counter s) (Z.of_nat k).
Proof.
  revert s. induction k as [|k IH]; intros s Ht H0 Hk Hmax.
  - cbn. rewrite app_nil_r. repeat split; lia.
  - cbn [replicate]. rewrite run_schedule_cons.
    assert (Hstep : Counter (sched_step' s t) = Counter s + 1
                    /\ Threads (sched_step' s t) = Threads s
                    /\ (Claimed (sched_step' s t)).*2 = (Claimed s).*2 ++ [Counter s]).
    { unfold sched_step, WorkerRound. rewrite Ht.
      destruct (Z.leb_spec NumJobs (Counter s)); [lia|].
      cbn [Counter Threads Claimed]. rewrite to_unsigned_small by lia.
      by rewrite fmap_app. }
    destruct Hstep as (HC & HT & HCl).
    destruct (IH (sched_step' s t)) as (HC' & HT' & HCl'); rewrite ?HT, ?HC; try lia; try done.
    rewrite HC', HT', HCl', HC, HT, HCl, <- app_assoc.
    repeat split; try lia.
    f_equal. rewrite (seqZ_cons (Counter s)) by lia. cbn [app]. do 2 f_equal; lia.
Qed.

Lemma run_leaves (s : PoolState) (t : nat) :
  Threads s !! t = Some InLoop -> NumJobs <= Counter s ->
  sched_step' s t =
    {| Counter := to_unsigned (Counter s + 1); HasErrors := HasErrors s;
       Threads := <[t := LeftLoop]> (Threads s);
       Claimed := Claimed s; PoolOut := PoolOut s |}.
Proof.
  intros Ht Hge. unfold sched_step, WorkerRound. rewrite Ht.
  by destruct (Z.leb_spec NumJobs (Counter s)); [|lia].
Qed.

(** *** Some interleaving lets every worker leave *)

Lemma leave_rounds (n i : nat) (s : PoolState) :
  n = Z.to_nat NumWorkers -> (0 < n)%nat -> (i <= n)%nat ->
  Threads s = replicate n InLoop -> Counter s = NumJobs ->
  Threads (run_schedule' (seq 0 i) s)
    = replicate i LeftLoop ++ replicate (n - i) InLoop
  /\ Counter (run_schedule' (seq 0 i) s) = to_unsigned (NumJobs + Z.of_nat i).
Proof.
  intros Hn Hpos Hi HT HC. induction i as [|i IH].
  - cbn. rewrite Nat.sub_0_r, Z.add_0_r, to_unsigned_small by lia. done.
  - destruct IH as [HTi HCi]; [lia|].
    rewrite seq_S, run_schedule_app, run_schedule_cons. cbn [Nat.add].
    change (run_schedule' [] ?x) with x.
    rewrite to_unsigned_small in HCi by lia.
    assert (Hin : Threads (run_schedule' (seq 0 i) s) !! i = Some InLoop).
    { rewrite HTi, lookup_app_r by (rewrite length_replicate; lia).
      rewrite length_replicate, Nat.sub_diag.
      replace (n - i)%nat with (S (n - S i)) by lia. done. }
    rewrite run_leaves by (done || lia). cbn [Threads Counter].
    rewrite HTi, HCi. split.
    + rewrite insert_app_r_alt by (rewrite length_replicate; lia).
      rewrite length_replicate, Nat.sub_diag.
      replace (n - i)%nat with (S (n - S i)) by lia.
      cbn [replicate insert list_insert].
      replace (LeftLoop :: replicate (n - S i) InLoop)
        with ([LeftLoop] ++ replicate (n - S i) InLoop) by done.
      rewrite app_assoc. f_equal.
      by rewrite <- replicate_S_end.
    + f_equal. lia.
Qed.

Lemma all_joined_replicate (s : PoolState) (n : nat) :
  Threads s = replicate n LeftLoop -> all_joined s = true.
Proof.
  unfold all_joined. intros ->. induction n; [done | by simpl].
Qed.

(** X3: while the counter cannot wrap, the joins do return under some
    interleaving: the first worker claims every job, then the workers leave
    one after the other. *)
Lemma pool_can_finish :
  0 <= NumWorkers ->
  exists sched,
    is_Some (RunInMultipleProcesses ExecuteCommand CommandLine Flags
               NumWorkers NumJobs sched).
Proof.
  intros HW. unfold RunInMultipleProcesses.
  destruct (Z.to_nat NumWorkers) as [|n] eqn:En.
  - exists []. cbn. unfold all_joined, pool_start. cbn [Threads].
    by rewrite En.
  - exists (replicate (Z.to_nat NumJobs) O ++ seq 0 (S n)).
    rewrite run_schedule_app.
    destruct (run_claims (Z.to_nat NumJobs) (pool_start NumWorkers) O)
      as (HC & HT & _).
    { cbn [pool_start Threads]. by rewrite En. }
    { done. } { cbn [pool_start Counter]. lia. } { lia. }
    destruct (leave_rounds (S n) (S n)
                (run_schedule' (replicate (Z.to_nat NumJobs) O)
                   (pool_start NumWorkers))
                (eq_sym En) (Nat.lt_0_succ _) (le_n _))
      as [HT' _].
    { rewrite HT. cbn [pool_start Threads]. by rewrite En. }
    { rewrite HC. cbn [pool_start Counter]. lia. }
    rewrite Nat.sub_diag, app_nil_r in HT'.
    by rewrite (all_joined_replicate _ _ HT').
Qed.

End WorkerPoolProps.

(** With [2^32 - 1] jobs and two workers the counter wraps: the first
    worker claims every job and leaves, which takes the counter back to 0,
    and the second worker claims every job again. *)
Lemma counter_wraps (ExecuteCommand : Z -> Z) (CommandLine : Z -> string)
  (Flags : FlagsStruct) (NumJobs : Z) :
  NumJobs = 2 ^ 32 - 1 ->
  ~ claims_each_job_once ExecuteCommand CommandLine Flags 2 NumJobs.
Proof.
  intros HJ Hclaim.
  set (k := Z.to_nat NumJobs).
  assert (Hk : Z.of_nat k = NumJobs) by (unfold k; lia).
  set (run := run_schedule ExecuteCommand CommandLine Flags NumJobs).
  set (s1 := run (replicate k 0%nat) (pool_start 2)).
  destruct (run_claims ExecuteCommand CommandLine Flags NumJobs k (pool_start 2) 0)
    as (HC1 & HT1 & HCl1); [done | simpl; lia | simpl; lia | lia |].
  fold run in HC1, HT1, HCl1. fold s1 in HC1, HT1, HCl1. simpl in HC1, HT1, HCl1.
  set (s2 := run [0%nat] s1).
  assert (Hs2 : s2 = {| Counter := 0; HasErrors := HasErrors s1;
                        Threads := [LeftLoop; InLoop];
                        Claimed := Claimed s1; PoolOut := PoolOut s1 |}).
  { unfold s2, run. rewrite run_schedule_cons. cbn [run_schedule foldl].
    rewrite run_leaves; rewrite ?HT1, ?HC1; [|done|lia].
    cbn [insert list_insert]. f_equal.
    unfold to_unsigned. replace (0 + Z.of_nat k + 1) with (2 ^ 32) by lia.
    apply Z.mod_same. lia. }
  set (s3 := run (replicate k 1%nat) s2).
  destruct (run_claims ExecuteCommand CommandLine Flags NumJobs k s2 1)
    as (HC3 & HT3 & HCl3); rewrite ?Hs2; cbn [Threads Counter Claimed]; try done; try lia.
  fold run in HC3, HT3, HCl3. fold s3 in HC3, HT3, HCl3.
  rewrite Hs2 in HC3, HT3, HCl3. cbn [Threads Counter Claimed] in HC3, HT3, HCl3.
  set (s4 := run [1%nat] s3).
  assert (Hs4 : s4 = {| Counter := to_unsigned (Counter s3 + 1);
                        HasErrors := HasErrors s3;
                        Threads := [LeftLoop; LeftLoop];
                        Claimed := Claimed s3; PoolOut := PoolOut s3 |}).
  { unfold s4, run. rewrite run_schedule_cons. cbn [run_schedule foldl].
    rewrite run_leaves; rewrite ?HT3, ?HC3; [|done|lia].
    cbn [insert list_insert]. done. }
  specialize (Hclaim (replicate k 0 ++ [0] ++ replicate k 1 ++ [1])%nat
                (if HasErrors s4 then 1 else 0) s4).
  assert (Hperm : (Claimed s4).*2 ≡ₚ seqZ 0 NumJobs).
  { apply Hclaim. unfold RunInMultipleProcesses.
    rewrite !run_schedule_app.
    change (run_schedule ExecuteCommand CommandLine Flags NumJobs [1%nat] _) with s4.
    by rewrite Hs4. }
  apply Permutation_length in Hperm.
  rewrite Hs4 in Hperm. cbn [Claimed] in Hperm.
  rewrite HCl3, HCl1, !length_app, !length_seqZ in Hperm. simpl in Hperm. lia.
Qed.

(** C5, as stated, fails: with [4294967295] jobs and two workers some
    interleaving has the jobs claimed twice. *)
Lemma workers_claim_jobs_twice :
  ~ claims_each_job_once (fun _ => 0) (fun _ => "fuzz"%string)
      (Flags initial_state) 2 4294967295.
Proof. by apply counter_wraps. Qed.

Lemma workers_claim_each_job_once_witness :
  (Claimed (run_schedule (fun _ => 0) (fun _ => "fuzz"%string)
              (Flags initial_state) 3 [0; 1; 1; 0; 0; 1]%nat (pool_start 2))).*2
  = seqZ 0 3.
Proof.
  refine (proj1 (proj2 (workers_claim_each_job_once (fun _ => 0) _ _ 2 3
                          _ _ _))
            [0; 1; 1; 0; 0; 1]%nat 0 _ _); [lia | lia | lia | reflexivity].
Defined.


Lemma pool_can_finish_witness :
  exists sched,
    is_Some (RunInMultipleProcesses (fun _ => 0) (fun _ => "fuzz"%string)
               (Flags initial_state) 2 3 sched).
Proof.
  apply (pool_can_finish (fun _ => 0) (fun _ => "fuzz"%string)
           (Flags initial_state) 2 3); lia.
Defined.

(** ** The embedding on concrete inputs *)

Example ParseFlags_example :
  option_map
    (fun st => (Inputs st, num (Flags st) "runs", num (Flags st) "jobs",
                strs (Flags st) !! "dict", num (Flags st) "len_control"))
    (ParseFlags example_registry example_stoul
       ["fuzz"; "-runs=5x"; "--verbosity=3"; "corpus"; "-jobs=3";
        "-dict=words"; "-nosuchflag=1"]
       {| LLVMFuzzerInitialize := None; LLVMFuzzerCustomMutator := None |}
       initial_state)
  = Some (["corpus"], 5, 3, Some "words"%string, 100).
Proof. vm_compute. reflexivity. Qed.

Example ParseFlags_ignore_remaining_args :
  option_map Inputs
    (ParseFlags example_registry example_stoul
       ["fuzz"; "a"; "-ignore_remaining_args=1"; "b"; "-runs=7"]
       {| LLVMFuzzerInitialize := None; LLVMFuzzerCustomMutator := None |}
       initial_state)
  = Some ["a"].
Proof. vm_compute. reflexivity. Qed.

Example ParseFlags_stoul_throws :
  ParseFlags example_registry example_stoul ["fuzz"; "-jobs=many"]
    {| LLVMFuzzerInitialize := None; LLVMFuzzerCustomMutator := None |}
    initial_state
  = None.
Proof. vm_compute. reflexivity. Qed.

Example RunInMultipleProcesses_example :
  option_map (fun r => (r.1, Claimed r.2))
    (RunInMultipleProcesses (fun C => if C =? 1 then 77 else 0)
       (fun _ => "fuzz corpus"%string) (Flags initial_state) 2 3
       [0; 1; 1; 0; 0; 1]%nat)
  = Some (1, [(0%nat, 0); (1%nat, 1); (1%nat, 2)]).
Proof. vm_compute. reflexivity. Qed.

Example RunInMultipleProcesses_unfinished :
  RunInMultipleProcesses (fun _ => 0) (fun _ => "fuzz corpus"%string)
    (Flags initial_state) 2 3 [0; 0; 0; 0]%nat
  = None.
Proof. vm_compute. reflexivity. Qed.

Example AnalyzeDictionary_example :
  option_map
    (fun r => (r.1.1, Scores r.1.2, Usages r.1.2, printed_tokens r.2))
    (AnalyzeDictionary Unit (fun _ C => C) (fun C => C) []
       [[1; 2]; [9]] [[0; 1; 2; 3; 1; 2]])
  = Some (0, [2; 0], [1; 0], [[9]]).
Proof. vm_compute. reflexivity. Qed.

Example MaskOccurrences_example :
  MaskOccurrences 7 [1; 2] [0; 1; 2; 3; 1; 2] (search [0; 1; 2; 3; 1; 2] [1; 2])
  = Some [0; 254; 253; 3; 254; 253].
Proof. vm_compute. reflexivity. Qed.

(** An empty token in a unit that is not empty: the masking loop does not
    advance. *)
Example AnalyzeDictionary_empty_token :
  AnalyzeDictionary Unit (fun _ C => C) (fun C => C) [] [[]] [[7]] = None.
Proof. vm_compute. reflexivity. Qed.

Example ParseSeedInuts_file :
  ParseSeedInuts (fun _ => "p,q"%string)
    (set_str "seed_inputs" (Some "@list"%string) (Flags initial_state))
    (Some "@list"%string)
  = ([], Returns ["q"; "p"]).
Proof. vm_compute. reflexivity. Qed.

Example ParseSeedInuts_empty_file :
  (ParseSeedInuts (fun _ => EmptyString)
     (set_str "seed_inputs" (Some "@list"%string) (Flags initial_state))
     (Some "@list"%string)).2
  = Exits 1.
Proof. vm_compute. reflexivity. Qed.

Example Merge_example :
  Merge (fun d => [(d +:+ "/x", 1)]) id (fun _ _ => "tmp.txt"%string)
    (fun _ _ New _ _ => New.*1) (fun _ _ => [7]) (Flags initial_state) 0
    ["fuzz"; "-merge=1"; "a"; "b"] ["a"; "b"] None
  = ([EWriteToOutputCorpus [7]; ERemoveFile "tmp.txt"], Exits 0).
Proof. vm_compute. reflexivity. Qed.

(** ** The crash cleanser: work done, bytes changed, the artifact file *)

Section CleanseMore.

Variable ExecuteCommand : Unit -> Z.
Variable FileToVector : string -> Unit.
Variable TmpFilePath OutputFilePath : string.

Local Abbreviation TryReplacements' :=
  (TryReplacements ExecuteCommand TmpFilePath OutputFilePath).
Local Abbreviation CleanseByte' :=
  (CleanseByte ExecuteCommand TmpFilePath OutputFilePath).
Local Abbreviation CleansePass' :=
  (CleansePass ExecuteCommand TmpFilePath OutputFilePath).
Local Abbreviation CleanseAttempts' :=
  (CleanseAttempts ExecuteCommand TmpFilePath OutputFilePath).

(** *** How often the command is run *)

Lemma TryReplacements_executions (Idx : nat) (OriginalByte : Z)
  (Bytes : list Z) (st : CleanseState) :
  (executions (Effects (TryReplacements' Idx OriginalByte Bytes st))
   <= executions (Effects st) + length Bytes)%nat.
Proof.
  revert st. induction Bytes as [|b Bytes IH]; intros st; cbn [TryReplacements].
  - simpl. lia.
  - destruct (_ =? 0).
    + etrans; [apply IH|]. cbn [Effects]. rewrite executions_app. simpl. lia.
    + cbn [Effects]. rewrite executions_app. simpl. lia.
Qed.

Lemma CleanseByte_executions (NumAttempts Size : nat) (st : CleanseState)
  (Idx : nat) :
  (executions (Effects (CleanseByte' NumAttempts Size st Idx))
   <= executions (Effects st) + 2)%nat.
Proof.
  unfold CleanseByte. cbn [U]. case_bool_decide.
  - cbn [Effects]. rewrite executions_app. simpl. lia.
  - etrans; [apply TryReplacements_executions|].
    cbn [Effects]. rewrite executions_app. simpl. lia.
Qed.

Lemma foldl_CleanseByte_executions (NumAttempts Size : nat)
  (Idxs : list nat) (st : CleanseState) :
  (executions (Effects (foldl (CleanseByte' NumAttempts Size) st Idxs))
   <= executions (Effects st) + 2 * length Idxs)%nat.
Proof.
  revert st. induction Idxs as [|Idx Idxs IH]; intros st; cbn [foldl].
  - simpl. lia.
  - etrans; [apply IH|].
    pose proof (CleanseByte_executions NumAttempts Size st Idx). simpl. lia.
Qed.

Lemma CleanseAttempts_executions (n NumAttempts Size : nat)
  (st : CleanseState) :
  (executions (Effects (CleanseAttempts' n NumAttempts Size st))
   <= executions (Effects st) + n * (2 * Size))%nat.
Proof.
  revert NumAttempts st. induction n as [|n IH]; intros NumAttempts st.
  - simpl. lia.
  - cbn [CleanseAttempts].
    assert (Hpass : (executions (Effects (CleansePass' NumAttempts Size st))
                     <= executions (Effects st) + 2 * Size)%nat).
    { unfold CleansePass. etrans; [apply foldl_CleanseByte_executions|].
      cbn [Effects]. rewrite length_seq. lia. }
    destruct (Changed _); [|lia].
    etrans; [apply IH|]. lia.
Qed.

(** *** Which bytes change *)

Lemma cleansed_from_refl (U0 : Unit) : cleansed_from U0 U0.
Proof. apply Forall2_same_length_lookup. split; [done|]. intros i x y ? ?. left. congruence. Qed.

Lemma cleansed_from_length (U0 V : Unit) :
  cleansed_from U0 V -> length V = length U0.
Proof. apply Forall2_length. Qed.

Lemma cleansed_from_insert (U0 V : Unit) (Idx : nat) (b : Z) :
  cleansed_from U0 V -> V !!! Idx ∉ ReplacementBytes ->
  b ∈ ReplacementBytes -> (Idx < length V)%nat ->
  cleansed_from U0 (<[Idx := b]> V).
Proof.
  intros Hc Horig Hb Hidx.
  pose proof (cleansed_from_length _ _ Hc) as Hlen.
  destruct (lookup_lt_is_Some_2 U0 Idx ltac:(lia)) as [u0 Hu0].
  destruct (lookup_lt_is_Some_2 V Idx Hidx) as [v Hv].
  rewrite <- (list_insert_id U0 Idx u0 Hu0).
  apply Forall2_insert; [done|].
  right. split; [done|].
  pose proof (Forall2_lookup_lr _ _ _ _ _ _ Hc Hv Hu0) as [->|[Hin _]].
  - by rewrite (list_lookup_total_correct _ _ _ Hv) in Horig.
  - rewrite (list_lookup_total_correct _ _ _ Hv) in Horig. done.
Qed.

Lemma TryReplacements_cleansed (U0 : Unit) (Idx : nat) (Bytes : list Z)
  (st : CleanseState) :
  cleansed_from U0 (U st) -> (Idx < length (U st))%nat ->
  U st !!! Idx ∉ ReplacementBytes -> Bytes ⊆ ReplacementBytes ->
  cleansed_from U0 (U (TryReplacements' Idx (U st !!! Idx) Bytes st)).
Proof.
  revert st. induction Bytes as [|b Bytes IH]; intros st Hc Hidx Horig Hsub; [done|].
  cbn [TryReplacements]. destruct (_ =? 0).
  - rewrite list_insert_insert_eq.
    assert (Hid : <[Idx := U st !!! Idx]> (U st) = U st).
    { apply list_insert_id. by apply list_lookup_lookup_total_lt. }
    rewrite Hid.
    specialize (IH {| U := U st; Changed := Changed st;
                      Effects := Effects st ++
                        [EWriteToFile (<[Idx:=b]> (U st)) TmpFilePath;
                         EExecuteCommand (ExecuteCommand (<[Idx:=b]> (U st)));
                         ERemoveFile TmpFilePath];
                      Steps := Steps st ++ [U st] |}).
    cbn [U] in IH. apply IH; try done.
    intros x Hx. apply Hsub. by right.
  - cbn [U]. apply cleansed_from_insert; try done.
    apply Hsub. by left.
Qed.

Lemma CleanseByte_cleansed (U0 : Unit) (NumAttempts Size : nat)
  (st : CleanseState) (Idx : nat) :
  cleansed_from U0 (U st) -> (Idx < length U0)%nat ->
  cleansed_from U0 (U (CleanseByte' NumAttempts Size st Idx)).
Proof.
  intros Hc Hidx. unfold CleanseByte. cbn [U].
  case_bool_decide as Hin; [done|].
  match goal with
  | |- context [TryReplacements' _ _ _ ?s] =>
      apply (TryReplacements_cleansed U0 Idx ReplacementBytes s)
  end; cbn [U]; try done.
  by rewrite (cleansed_from_length _ _ Hc).
Qed.

Lemma foldl_CleanseByte_cleansed (U0 : Unit) (NumAttempts Size : nat)
  (Idxs : list nat) (st : CleanseState) :
  cleansed_from U0 (U st) -> Forall (fun Idx => (Idx < length U0)%nat) Idxs ->
  cleansed_from U0 (U (foldl (CleanseByte' NumAttempts Size) st Idxs)).
Proof.
  intros Hc Hall. revert st Hc.
  induction Hall as [|Idx Idxs Hidx _ IH]; intros st Hc; [done|].
  cbn [foldl]. apply IH. by apply CleanseByte_cleansed.
Qed.

Lemma seq_below (Size n : nat) :
  (Size <= n)%nat -> Forall (fun Idx => (Idx < n)%nat) (seq 0 Size).
Proof. intros H. apply Forall_forall. intros i Hi%elem_of_seq. lia. Qed.

Lemma CleanseAttempts_cleansed (U0 : Unit) (n NumAttempts Size : nat)
  (st : CleanseState) :
  cleansed_from U0 (U st) -> (Size <= length U0)%nat ->
  cleansed_from U0 (U (CleanseAttempts' n NumAttempts Size st)).
Proof.
  revert NumAttempts st. induction n as [|n IH]; intros NumAttempts st Hc Hsize; [done|].
  cbn [CleanseAttempts].
  assert (Hpass : cleansed_from U0 (U (CleansePass' NumAttempts Size st))).
  { unfold CleansePass. apply foldl_CleanseByte_cleansed; [done|].
    by apply seq_below. }
  destruct (Changed _); [by apply IH | done].
Qed.

(** *** The artifact file *)

Lemma writes_to_app (Path : string) (es es' : list Effect) :
  writes_to Path (es ++ es') = writes_to Path es ++ writes_to Path es'.
Proof.
  induction es as [|e es IH]; [done|].
  destruct e; cbn [app writes_to]; try done.
  case_bool_decide; [|done]. by rewrite IH.
Qed.

Lemma insert_changes (U0 V : Unit) (Idx : nat) (b : Z) :
  cleansed_from U0 V -> V !!! Idx ∉ ReplacementBytes ->
  b ∈ ReplacementBytes -> (Idx < length V)%nat ->
  <[Idx := b]> V <> U0.
Proof.
  intros Hc Horig Hb Hidx Heq.
  destruct (lookup_lt_is_Some_2 V Idx Hidx) as [v Hv].
  rewrite (list_lookup_total_correct _ _ _ Hv) in Horig.
  assert (Hu0 : U0 !! Idx = Some b).
  { rewrite <- Heq. by apply list_lookup_insert_eq. }
  pose proof (Forall2_lookup_lr _ _ _ _ _ _ Hc Hv Hu0) as [->|[Hin _]]; done.
Qed.

(** The artifact file and the buffer: nothing was written and the buffer
    is the input, or the last buffer written is the buffer, which differs
    from the input. *)
Local Abbreviation artifact_inv U0 st :=
  ((writes_to OutputFilePath (Effects st) = [] /\ U st = U0)
   \/ (last (writes_to OutputFilePath (Effects st)) = Some (U st)
       /\ U st <> U0)).

Hypothesis Htmp : TmpFilePath <> OutputFilePath.

Lemma TryReplacements_artifact (U0 : Unit) (Idx : nat) (Bytes : list Z)
  (st : CleanseState) :
  cleansed_from U0 (U st) -> (Idx < length (U st))%nat ->
  U st !!! Idx ∉ ReplacementBytes -> Bytes ⊆ ReplacementBytes ->
  artifact_inv U0 st ->
  artifact_inv U0 (TryReplacements' Idx (U st !!! Idx) Bytes st).
Proof.
  revert st. induction Bytes as [|b Bytes IH]; intros st Hc Hidx Horig Hsub Hinv; [done|].
  cbn [TryReplacements]. destruct (_ =? 0).
  - rewrite list_insert_insert_eq.
    assert (Hid : <[Idx := U st !!! Idx]> (U st) = U st).
    { apply list_insert_id. by apply list_lookup_lookup_total_lt. }
    rewrite Hid.
    specialize (IH {| U := U st; Changed := Changed st;
                      Effects := Effects st ++
                        [EWriteToFile (<[Idx:=b]> (U st)) TmpFilePath;
                         EExecuteCommand (ExecuteCommand (<[Idx:=b]> (U st)));
                         ERemoveFile TmpFilePath];
                      Steps := Steps st ++ [U st] |}).
    cbn [U] in IH. apply IH; try done.
    + intros x Hx. apply Hsub. by right.
    + cbn [Effects]. rewrite writes_to_app. cbn [writes_to].
      rewrite (bool_decide_eq_false_2 _ Htmp), app_nil_r. done.
  - cbn [U Effects]. right. split.
    + rewrite !writes_to_app. cbn [writes_to app].
      rewrite (bool_decide_eq_false_2 _ Htmp), bool_decide_eq_true_2 by done.
      cbn [app]. by rewrite last_snoc.
    + apply insert_changes; try done. apply Hsub. by left.
Qed.

Lemma CleanseByte_artifact (U0 : Unit) (NumAttempts Size : nat)
  (st : CleanseState) (Idx : nat) :
  cleansed_from U0 (U st) -> (Idx < length U0)%nat ->
  artifact_inv U0 st ->
  artifact_inv U0 (CleanseByte' NumAttempts Size st Idx).
Proof.
  intros Hc Hidx Hinv. unfold CleanseByte. cbn [U].
  assert (Hinv' : forall l C,
            artifact_inv U0 {| U := U st; Changed := C;
                               Effects := Effects st ++ [EPrintf l];
                               Steps := Steps st |}).
  { intros l C. cbn [U Effects]. rewrite writes_to_app. cbn [writes_to].
    by rewrite app_nil_r. }
  case_bool_decide as Hin; [apply Hinv'|].
  match goal with
  | |- context [TryReplacements' _ _ _ ?s] =>
      apply (TryReplacements_artifact U0 Idx ReplacementBytes s)
  end; cbn [U]; [done | | done | done | apply Hinv'].
  by rewrite (cleansed_from_length _ _ Hc).
Qed.

Lemma foldl_CleanseByte_artifact (U0 : Unit) (NumAttempts Size : nat)
  (Idxs : list nat) (st : CleanseState) :
  cleansed_from U0 (U st) -> Forall (fun Idx => (Idx < length U0)%nat) Idxs ->
  artifact_inv U0 st ->
  artifact_inv U0 (foldl (CleanseByte' NumAttempts Size) st Idxs).
Proof.
  intros Hc Hall. revert st Hc.
  induction Hall as [|Idx Idxs Hidx Hall IH]; intros st Hc Hinv; [done|].
  cbn [foldl]. apply IH.
  - by apply CleanseByte_cleansed.
  - by apply CleanseByte_artifact.
Qed.

Lemma CleanseAttempts_artifact (U0 : Unit) (n NumAttempts Size : nat)
  (st : CleanseState) :
  cleansed_from U0 (U st) -> (Size <= length U0)%nat ->
  artifact_inv U0 st ->
  artifact_inv U0 (CleanseAttempts' n NumAttempts Size st).
Proof.
  revert NumAttempts st.
  induction n as [|n IH]; intros NumAttempts st Hc Hsize Hinv; [done|].
  cbn [CleanseAttempts].
  assert (Hpass : artifact_inv U0 (CleansePass' NumAttempts Size st)).
  { unfold CleansePass. apply foldl_CleanseByte_artifact; try done.
    by apply seq_below. }
  assert (Hpassc : cleansed_from U0 (U (CleansePass' NumAttempts Size st))).
  { unfold CleansePass. apply foldl_CleanseByte_cleansed; [done|].
    by apply seq_below. }
  destruct (Changed _); [by apply IH | done].
Qed.

(** *** A pass that changes nothing *)

Lemma TryReplacements_Changed (Idx : nat) (OriginalByte : Z) (Bytes : list Z)
  (st : CleanseState) :
  Changed st = true ->
  Changed (TryReplacements' Idx OriginalByte Bytes st) = true.
Proof.
  revert st. induction Bytes as [|b Bytes IH]; intros st Hch; [done|].
  cbn [TryReplacements]. destruct (_ =? 0); [by apply IH | done].
Qed.

Lemma CleanseByte_Changed (NumAttempts Size : nat) (st : CleanseState)
  (Idx : nat) :
  Changed st = true -> Changed (CleanseByte' NumAttempts Size st Idx) = true.
Proof.
  intros Hch. unfold CleanseByte. cbn [U].
  case_bool_decide; [done|]. by apply TryReplacements_Changed.
Qed.

Lemma foldl_CleanseByte_Changed (NumAttempts Size : nat) (Idxs : list nat)
  (st : CleanseState) :
  Changed st = true ->
  Changed (foldl (CleanseByte' NumAttempts Size) st Idxs) = true.
Proof.
  revert st. induction Idxs as [|Idx Idxs IH]; intros st Hch; [done|].
  cbn [foldl]. apply IH. by apply CleanseByte_Changed.
Qed.

Lemma TryReplacements_unchanged (Idx : nat) (Bytes : list Z)
  (st : CleanseState) :
  (Idx < length (U st))%nat ->
  Changed (TryReplacements' Idx (U st !!! Idx) Bytes st) = false ->
  U (TryReplacements' Idx (U st !!! Idx) Bytes st) = U st
  /\ forall b, b ∈ Bytes -> ExecuteCommand (<[Idx := b]> (U st)) = 0.
Proof.
  revert st. induction Bytes as [|b Bytes IH]; intros st Hidx Hch.
  - split; [done|]. intros b Hb. by apply elem_of_nil in Hb.
  - cbn [TryReplacements] in *.
    destruct (Z.eqb_spec (ExecuteCommand (<[Idx:=b]> (U st))) 0) as [Hz|Hnz];
      [|done].
    rewrite list_insert_insert_eq in *.
    assert (Hid : <[Idx := U st !!! Idx]> (U st) = U st).
    { apply list_insert_id. by apply list_lookup_lookup_total_lt. }
    rewrite Hid in *.
    specialize (IH {| U := U st; Changed := Changed st;
                      Effects := Effects st ++
                        [EWriteToFile (<[Idx:=b]> (U st)) TmpFilePath;
                         EExecuteCommand (ExecuteCommand (<[Idx:=b]> (U st)));
                         ERemoveFile TmpFilePath];
                      Steps := Steps st ++ [U st] |}).
    cbn [U] in IH. destruct (IH Hidx Hch) as [HU Hall].
    split; [done|].
    intros b' [->|Hb']%elem_of_cons; [done | by apply Hall].
Qed.

Lemma CleanseByte_unchanged (NumAttempts Size : nat) (st : CleanseState)
  (Idx : nat) :
  (Idx < length (U st))%nat ->
  Changed (CleanseByte' NumAttempts Size st Idx) = false ->
  U (CleanseByte' NumAttempts Size st Idx) = U st
  /\ (U st !!! Idx ∉ ReplacementBytes ->
      forall b, b ∈ ReplacementBytes ->
                ExecuteCommand (<[Idx := b]> (U st)) = 0).
Proof.
  intros Hidx. unfold CleanseByte. cbn [U].
  case_bool_decide as Hin; [done|]. intros Hch.
  match type of Hch with
  | context [TryReplacements' _ _ _ ?s] =>
      destruct (TryReplacements_unchanged Idx ReplacementBytes s Hidx Hch)
        as [HU Hall]
  end.
  split; [exact HU | intros _; exact Hall].
Qed.

Lemma foldl_CleanseByte_unchanged (NumAttempts Size : nat) (Idxs : list nat)
  (st : CleanseState) :
  Forall (fun Idx => (Idx < length (U st))%nat) Idxs ->
  Changed (foldl (CleanseByte' NumAttempts Size) st Idxs) = false ->
  U (foldl (CleanseByte' NumAttempts Size) st Idxs) = U st
  /\ forall Idx b, Idx ∈ Idxs -> U st !!! Idx ∉ ReplacementBytes ->
                   b ∈ ReplacementBytes ->
                   ExecuteCommand (<[Idx := b]> (U st)) = 0.
Proof.
  revert st. induction Idxs as [|Idx Idxs IH]; intros st Hall Hch.
  - split; [done|]. intros Idx b HIdx. by apply elem_of_nil in HIdx.
  - cbn [foldl] in *. apply Forall_cons in Hall as [Hidx Hall].
    destruct (Changed (CleanseByte' NumAttempts Size st Idx)) eqn:Hb.
    { rewrite foldl_CleanseByte_Changed in Hch; done. }
    destruct (CleanseByte_unchanged _ _ _ _ Hidx Hb) as [HU Hhere].
    destruct (IH (CleanseByte' NumAttempts Size st Idx)) as [HU' Hrest];
      [by rewrite HU | done |].
    rewrite HU in *. split; [done|].
    intros Idx' b [->|HIdx']%elem_of_cons Horig Hb';
      [by apply Hhere | by apply Hrest].
Qed.

Lemma CleansePass_unchanged (NumAttempts : nat) (st : CleanseState) :
  Changed (CleansePass' NumAttempts (length (U st)) st) = false ->
  U (CleansePass' NumAttempts (length (U st)) st) = U st
  /\ no_replacement_crashes ExecuteCommand (U st).
Proof.
  unfold CleansePass. intros Hch.
  match type of Hch with
  | context [foldl _ ?s ?l] =>
      destruct (foldl_CleanseByte_unchanged NumAttempts (length (U st)) l s)
        as [HU Hall]; [by apply seq_below | done |]
  end.
  split; [done|]. intros Idx b Hidx Horig Hb. apply Hall; try done.
  apply elem_of_seq. lia.
Qed.

Lemma CleanseAttempts_stable (U0 : Unit) (n NumAttempts : nat)
  (st : CleanseState) :
  cleansed_from U0 (U st) -> (0 < n)%nat ->
  Changed (CleanseAttempts' n NumAttempts (length U0) st) = false ->
  no_replacement_crashes ExecuteCommand
    (U (CleanseAttempts' n NumAttempts (length U0) st)).
Proof.
  revert NumAttempts st.
  induction n as [|n IH]; intros NumAttempts st Hc Hn Hch; [lia|].
  cbn [CleanseAttempts] in *.
  assert (Hlen : length U0 = length (U st))
    by (symmetry; by apply cleansed_from_length).
  assert (Hpassc : cleansed_from U0 (U (CleansePass' NumAttempts (length U0) st))).
  { unfold CleansePass. apply foldl_CleanseByte_cleansed; [done|].
    by apply seq_below. }
  destruct (Changed (CleansePass' NumAttempts (length U0) st)) eqn:Hp.
  - destruct n as [|n]; [cbn [CleanseAttempts] in Hch; congruence|].
    apply IH; [done | lia | done].
  - rewrite Hlen in Hp |- *.
    destruct (CleansePass_unchanged _ _ Hp) as [HU Hstable]. by rewrite HU.
Qed.

End CleanseMore.

Section CleanseCrashInputMore.

Variable ExecuteCommand : Unit -> Z.
Variable FileToVector : string -> Unit.
Variable TmpFilePath : string.

(** X4: the cleanser runs the command at most ten times per byte of the
    input: two candidates at each index, in at most five passes. *)
Theorem CleanseCrashInput_work_bound (Inputs : list string)
  (Flags : FlagsStruct) :
  (executions
     (Effects (CleanseCrashInput ExecuteCommand FileToVector TmpFilePath
                 Inputs Flags).2)
   <= 10 * length (FileToVector (default EmptyString (Inputs !! O))))%nat.
Proof.
  unfold CleanseCrashInput.
  destruct (negb _ || negb _); cbn [snd Effects]; [simpl; lia|].
  etrans; [apply CleanseAttempts_executions|]. cbn [Effects]. simpl. lia.
Qed.

(** X5: when the cleanser returns, its buffer has the length of the input,
    and each of its bytes is the byte of the input at that index or, where
    the input held neither, one of 0x20 and 0xFF. *)
Theorem CleanseCrashInput_changes (Inputs : list string) (Flags : FlagsStruct)
  (InputFilePath OutputFilePath : string) :
  Inputs = [InputFilePath] ->
  strs Flags !! "exact_artifact_path" = Some OutputFilePath ->
  cleansed_from (FileToVector InputFilePath)
    (U (CleanseCrashInput ExecuteCommand FileToVector TmpFilePath
          Inputs Flags).2).
Proof.
  intros -> Hout. unfold CleanseCrashInput. rewrite Hout.
  cbn [length Nat.eqb negb orb].
  rewrite bool_decide_eq_true_2 by by eexists.
  cbn [negb snd lookup list_lookup default].
  apply CleanseAttempts_cleansed; [|done]. apply cleansed_from_refl.
Qed.

(** X6: the artifact file is written exactly when a byte was replaced.
    If the buffer the cleanser ends with is the input, nothing was written
    to [-exact_artifact_path]; otherwise the last buffer written there is
    the buffer the cleanser ends with. *)
Theorem CleanseCrashInput_artifact (Inputs : list string)
  (Flags : FlagsStruct) (InputFilePath OutputFilePath : string) :
  Inputs = [InputFilePath] ->
  strs Flags !! "exact_artifact_path" = Some OutputFilePath ->
  TmpFilePath <> OutputFilePath ->
  let r := CleanseCrashInput ExecuteCommand FileToVector TmpFilePath
             Inputs Flags in
  (U r.2 = FileToVector InputFilePath ->
   writes_to OutputFilePath (Effects r.2) = [])
  /\ (U r.2 <> FileToVector InputFilePath ->
      last (writes_to OutputFilePath (Effects r.2)) = Some (U r.2)).
Proof.
  intros -> Hout Htmp. unfold CleanseCrashInput. rewrite Hout.
  cbn [length Nat.eqb negb orb].
  rewrite bool_decide_eq_true_2 by by eexists.
  cbn [negb snd lookup list_lookup default].
  match goal with
  | |- context [CleanseAttempts _ _ _ ?n ?k ?Size ?s] =>
      pose proof (CleanseAttempts_artifact ExecuteCommand TmpFilePath
                    OutputFilePath Htmp (FileToVector InputFilePath)
                    n k Size s) as Hinv
  end.
  destruct Hinv as [[Hw HU]|[Hw HU]]; cbn [U Effects];
    [apply cleansed_from_refl | done | by left | |]; split; intros; done.
Qed.

(** X7: if the last pass of the cleanser replaced nothing, no single
    replacement is left that keeps the crash: at every index whose byte is
    neither 0x20 nor 0xFF, the command ends with exit code zero on the final
    buffer with 0x20 there and on the final buffer with 0xFF there. *)
Theorem CleanseCrashInput_stable (Inputs : list string) (Flags : FlagsStruct) :
  let r := CleanseCrashInput ExecuteCommand FileToVector TmpFilePath
             Inputs Flags in
  Changed r.2 = false -> no_replacement_crashes ExecuteCommand (U r.2).
Proof.
  unfold CleanseCrashInput.
  destruct (negb _ || negb _); cbn [snd U Changed].
  - intros _ Idx b Hidx. simpl in Hidx. lia.
  - apply CleanseAttempts_stable; [apply cleansed_from_refl | lia].
Qed.

End CleanseCrashInputMore.

Lemma CleanseCrashInput_changes_witness :
  cleansed_from [65; 88; 66]
    (U (CleanseCrashInput
          (fun u => if bool_decide (u !! 1%nat = Some 88) then 1 else 0)
          (fun _ => [65; 88; 66]) "tmp.repro" ["crash"]
          (set_str "exact_artifact_path" (Some "out"%string)
             (Flags initial_state))).2).
Proof.
  apply (CleanseCrashInput_changes
           (fun u => if bool_decide (u !! 1%nat = Some 88) then 1 else 0)
           (fun _ => [65; 88; 66]) "tmp.repro" ["crash"]
           (set_str "exact_artifact_path" (Some "out"%string)
              (Flags initial_state))
           "crash" "out"); reflexivity.
Defined.

Lemma CleanseCrashInput_artifact_witness :
  last (writes_to "out"
          (Effects (CleanseCrashInput
             (fun u => if bool_decide (u !! 1%nat = Some 88) then 1 else 0)
             (fun _ => [65; 88; 66]) "tmp.repro" ["crash"]
             (set_str "exact_artifact_path" (Some "out"%string)
                (Flags initial_state))).2))
  = Some [32; 88; 32].
Proof.
  refine (proj2
    (CleanseCrashInput_artifact
       (fun u => if bool_decide (u !! 1%nat = Some 88) then 1 else 0)
       (fun _ => [65; 88; 66]) "tmp.repro" ["crash"]
       (set_str "exact_artifact_path" (Some "out"%string)
          (Flags initial_state))
       "crash" "out" _ _ _) _).
  - reflexivity.
  - reflexivity.
  - discriminate.
  - vm_compute. discriminate.
Defined.

Lemma CleanseCrashInput_stable_witness :
  no_replacement_crashes
    (fun u => if bool_decide (u !! 1%nat = Some 88) then 1 else 0)
    [32; 88; 32].
Proof.
  refine (CleanseCrashInput_stable
            (fun u => if bool_decide (u !! 1%nat = Some 88) then 1 else 0)
            (fun _ => [65; 88; 66]) "tmp.repro" ["crash"]
            (set_str "exact_artifact_path" (Some "out"%string)
               (Flags initial_state)) _).
  vm_compute. reflexivity.
Defined.

(** ** The dictionary analyzer: usage counts, scores, runs of the target *)

Lemma occursb_occurs_in (Token C : Unit) :
  occursb Token C = true <-> occurs_in Token C.
Proof.
  unfold occursb, occurs_in. rewrite existsb_exists. split.
  - intros (k & _ & [r Hr]%is_prefix_app).
    exists (take k C), r. by rewrite <- Hr, take_drop.
  - intros (pre & post & ->). exists (length pre). split.
    + apply in_seq. rewrite !length_app. lia.
    + apply is_prefix_app. exists post. by rewrite drop_app_length.
Qed.

Lemma search_occurrence (Data Pattern : Unit) :
  Pattern <> [] -> occurs_in Pattern Data ->
  (search Data Pattern < length Data)%nat.
Proof.
  intros Hne. induction Data as [|d Data IH]; intros (pre & post & Heq).
  - destruct pre, Pattern; done.
  - cbn [search]. destruct (is_prefix Pattern (d :: Data)) eqn:Hp; [simpl; lia|].
    destruct pre as [|p pre].
    + assert (is_prefix Pattern (d :: Data) = true); [|congruence].
      apply is_prefix_app. by exists post.
    + injection Heq as -> ->. simpl.
      assert (search (pre ++ Pattern ++ post) Pattern
              < length (pre ++ Pattern ++ post))%nat; [|lia].
      apply IH. by exists pre, post.
Qed.

Lemma search_occursb (Data Pattern : Unit) :
  Pattern <> [] ->
  (search Data Pattern =? length Data)%nat = negb (occursb Pattern Data).
Proof.
  intros Hne. destruct (occursb Pattern Data) eqn:Ho.
  - apply occursb_occurs_in, (search_occurrence _ _ Hne) in Ho.
    apply Nat.eqb_neq. lia.
  - apply Nat.eqb_eq, search_no_occurrence.
    rewrite <- occursb_occurs_in. congruence.
Qed.

Lemma units_with_le (Token : Unit) (Corpus : list Unit) :
  (units_with Token Corpus <= length Corpus)%nat.
Proof.
  induction Corpus as [|C Corpus IH]; simpl; [lia|].
  destruct (occursb Token C); lia.
Qed.

Lemma units_with_app (Token : Unit) (Corpus Corpus' : list Unit) :
  units_with Token (Corpus ++ Corpus')
  = (units_with Token Corpus + units_with Token Corpus')%nat.
Proof. induction Corpus as [|C Corpus IH]; simpl; [done|]. lia. Qed.

Lemma to_int_small z : - 2 ^ 31 <= z < 2 ^ 31 -> to_int z = z.
Proof. intros. unfold to_int. rewrite Z.mod_small; lia. Qed.

Section AnalyzeMore.

Variable FuzzerState : Type.
Variable ExecuteCallback : FuzzerState -> Unit -> FuzzerState.
Variable CollectFeatures : FuzzerState -> list Z.

Local Abbreviation AnalyzeToken' :=
  (AnalyzeToken FuzzerState ExecuteCallback CollectFeatures).
Local Abbreviation AnalyzeTokens' :=
  (AnalyzeTokens FuzzerState ExecuteCallback CollectFeatures).
Local Abbreviation AnalyzeCorpus' :=
  (AnalyzeCorpus FuzzerState ExecuteCallback CollectFeatures).

Lemma AnalyzeToken_other IF C j Token st st' i :
  AnalyzeToken' IF C j Token st = Some st' -> j <> i ->
  Usages st' !! i = Usages st !! i /\ Scores st' !! i = Scores st !! i.
Proof.
  unfold AnalyzeToken. intros Hrun Hne.
  destruct (_ =? _)%nat; [by injection Hrun as <-|].
  destruct (MaskOccurrences _ _ _ _) as [Data|]; [|done].
  injection Hrun as <-. split; cbn [Usages Scores].
  - by rewrite list_lookup_alter_ne.
  - case_bool_decide; by rewrite list_lookup_alter_ne.
Qed.

Lemma AnalyzeToken_counted IF C i Token st st' u s :
  AnalyzeToken' IF C i Token st = Some st' -> Token <> [] ->
  Usages st !! i = Some u -> Scores st !! i = Some s ->
  exists u' s', Usages st' !! i = Some u' /\ Scores st' !! i = Some s'
                /\ counted Token C u s u' s'.
Proof.
  unfold AnalyzeToken. intros Hrun Hne Hu Hs.
  rewrite (search_occursb _ _ Hne) in Hrun. unfold counted.
  destruct (occursb Token C); cbn [negb] in Hrun.
  - destruct (MaskOccurrences _ _ _ _) as [Data|]; [|done].
    injection Hrun as <-. cbn [Usages Scores].
    exists (to_int (u + 1)).
    case_bool_decide.
    + exists (to_int (s - 1)). rewrite !list_lookup_alter_eq, Hu, Hs. auto.
    + exists (to_int (s + 2)). rewrite !list_lookup_alter_eq, Hu, Hs. auto.
  - injection Hrun as <-. by exists u, s.
Qed.

Lemma AnalyzeTokens_after IF C k Tokens st st' i :
  AnalyzeTokens' IF C k Tokens st = Some st' -> (i < k)%nat ->
  Usages st' !! i = Usages st !! i /\ Scores st' !! i = Scores st !! i.
Proof.
  revert k st. induction Tokens as [|Token Tokens IH]; intros k st Hrun Hlt.
  - by injection Hrun as <-.
  - cbn [AnalyzeTokens] in Hrun.
    destruct (AnalyzeToken' IF C k Token st) as [st1|] eqn:H1; [|done].
    destruct (IH (S k) st1 Hrun) as [-> ->]; [lia|].
    apply (AnalyzeToken_other _ _ _ _ _ _ _ H1). lia.
Qed.

Lemma AnalyzeTokens_counted IF C k Tokens st st' i Token u s :
  AnalyzeTokens' IF C k Tokens st = Some st' ->
  (k <= i)%nat -> Tokens !! (i - k)%nat = Some Token -> Token <> [] ->
  Usages st !! i = Some u -> Scores st !! i = Some s ->
  exists u' s', Usages st' !! i = Some u' /\ Scores st' !! i = Some s'
                /\ counted Token C u s u' s'.
Proof.
  revert k st. induction Tokens as [|T Tokens IH]; intros k st Hrun Hk Hi Hne Hu Hs;
    [done|].
  cbn [AnalyzeTokens] in Hrun.
  destruct (AnalyzeToken' IF C k T st) as [st1|] eqn:H1; [|done].
  destruct (decide (k = i)) as [->|Hki].
  - rewrite Nat.sub_diag in Hi. injection Hi as ->.
    destruct (AnalyzeToken_counted _ _ _ _ _ _ _ _ H1 Hne Hu Hs)
      as (u' & s' & Hu' & Hs' & Hc).
    destruct (AnalyzeTokens_after _ _ _ _ _ _ i Hrun) as [Hu2 Hs2]; [lia|].
    exists u', s'. by rewrite Hu2, Hs2.
  - destruct (AnalyzeToken_other _ _ _ _ _ _ i H1 Hki) as [Hu1 Hs1].
    apply (IH (S k) st1 Hrun); [lia | | done | congruence | congruence].
    replace (i - k)%nat with (S (i - S k)) in Hi by lia. done.
Qed.

(** After the units [Corpus], token [i] has been used by as many units as
    hold it, and its score is two for each of [a] of them and minus one for
    each of the others. *)
Lemma AnalyzeCorpus_counted Dict Corpus st st' i Token (n a : nat) :
  AnalyzeCorpus' Dict Corpus st = Some st' ->
  Dict !! i = Some Token -> Token <> [] ->
  Z.of_nat (n + length Corpus) < 2 ^ 30 ->
  (a <= n)%nat ->
  Usages st !! i = Some (Z.of_nat n) ->
  Scores st !! i = Some (3 * Z.of_nat a - Z.of_nat n) ->
  exists a' : nat,
    (a' <= n + units_with Token Corpus)%nat
    /\ Usages st' !! i = Some (Z.of_nat (n + units_with Token Corpus))
    /\ Scores st' !! i
       = Some (3 * Z.of_nat a' - Z.of_nat (n + units_with Token Corpus)).
Proof.
  intros Hrun Hi Hne. revert st n a Hrun.
  induction Corpus as [|C Corpus IH]; intros st n a Hrun Hsmall Ha Hu Hs.
  - injection Hrun as <-. exists a. simpl. rewrite Nat.add_0_r. auto.
  - cbn [AnalyzeCorpus] in Hrun.
    destruct (AnalyzeTokens' _ C 0 Dict _) as [st1|] eqn:H1; [|done].
    destruct (AnalyzeTokens_counted _ _ _ _ _ _ i Token (Z.of_nat n)
                (3 * Z.of_nat a - Z.of_nat n) H1)
      as (u' & s' & Hu' & Hs' & Hc);
      [lia | by rewrite Nat.sub_0_r | done | exact Hu | exact Hs |].
    unfold counted in Hc. cbn [units_with length] in *.
    destruct (occursb Token C).
    + destruct Hc as [-> Hs2].
      rewrite to_int_small in Hu' by lia.
      destruct Hs2 as [-> | ->]; rewrite to_int_small in Hs' by lia.
      * destruct (IH st1 (S n) (S a) Hrun) as (a' & Ha' & HU & HS);
          [lia | lia | rewrite Hu'; f_equal; lia | rewrite Hs'; f_equal; lia |].
        exists a'. replace (n + (1 + units_with Token Corpus))%nat
          with (S n + units_with Token Corpus)%nat by lia. auto.
      * destruct (IH st1 (S n) a Hrun) as (a' & Ha' & HU & HS);
          [lia | lia | rewrite Hu'; f_equal; lia | rewrite Hs'; f_equal; lia |].
        exists a'. replace (n + (1 + units_with Token Corpus))%nat
          with (S n + units_with Token Corpus)%nat by lia. auto.
    + destruct Hc as [-> ->].
      destruct (IH st1 n a Hrun) as (a' & Ha' & HU & HS); try done; [lia|].
      exists a'. auto.
Qed.

(** *** The score when the features depend on the unit alone *)

Lemma units_changed_le (features : Unit -> list Z) (Token : Unit)
  (Corpus : list Unit) :
  (units_changed features Token Corpus <= units_with Token Corpus)%nat.
Proof.
  induction Corpus as [|C Corpus IH]; simpl; [lia|].
  destruct (occursb Token C); simpl; [|lia].
  destruct (negb _); lia.
Qed.

Section Deterministic.

Variable features : Unit -> list Z.
Hypothesis Hdet :
  forall (F : FuzzerState) (D : Unit),
    CollectFeatures (ExecuteCallback F D) = features D.

Lemma AnalyzeToken_score IF C i Token st st' s :
  AnalyzeToken' IF C i Token st = Some st' -> Token <> [] ->
  Scores st !! i = Some s ->
  Scores st' !! i
  = Some (if occursb Token C
          then if bool_decide (IF = features (masked Token C))
               then to_int (s - 1) else to_int (s + 2)
          else s).
Proof.
  unfold AnalyzeToken, masked. intros Hrun Hne Hs.
  rewrite (search_occursb _ _ Hne) in Hrun.
  destruct (occursb Token C); cbn [negb] in Hrun.
  - destruct (MaskOccurrences _ _ _ _) as [Data|]; [|done].
    injection Hrun as <-. cbn [Scores default]. rewrite Hdet. unfold id.
    case_bool_decide; by rewrite list_lookup_alter_eq, Hs.
  - by injection Hrun as <-.
Qed.

Lemma AnalyzeTokens_score IF C k Tokens st st' i Token s :
  AnalyzeTokens' IF C k Tokens st = Some st' ->
  (k <= i)%nat -> Tokens !! (i - k)%nat = Some Token -> Token <> [] ->
  Scores st !! i = Some s ->
  Scores st' !! i
  = Some (if occursb Token C
          then if bool_decide (IF = features (masked Token C))
               then to_int (s - 1) else to_int (s + 2)
          else s).
Proof.
  revert k st. induction Tokens as [|T Tokens IH]; intros k st Hrun Hk Hi Hne Hs;
    [done|].
  cbn [AnalyzeTokens] in Hrun.
  destruct (AnalyzeToken' IF C k T st) as [st1|] eqn:H1; [|done].
  destruct (decide (k = i)) as [->|Hki].
  - rewrite Nat.sub_diag in Hi. injection Hi as ->.
    destruct (AnalyzeTokens_after _ _ _ _ _ _ i Hrun) as [_ ->]; [lia|].
    by apply (AnalyzeToken_score _ _ _ _ _ _ _ H1).
  - destruct (AnalyzeToken_other _ _ _ _ _ _ i H1 Hki) as [_ Hs1].
    apply (IH (S k) st1 Hrun); [lia | | done | congruence].
    replace (i - k)%nat with (S (i - S k)) in Hi by lia. done.
Qed.

(** After the units [Corpus], the score of token [i] has gone up by two for
    each unit that holds it and whose features change when it is masked,
    and down by one for each other unit that holds it. *)
Lemma AnalyzeCorpus_score Dict Corpus st st' i Token (n a : nat) :
  AnalyzeCorpus' Dict Corpus st = Some st' ->
  Dict !! i = Some Token -> Token <> [] ->
  Z.of_nat (n + length Corpus) < 2 ^ 30 ->
  (a <= n)%nat ->
  Scores st !! i = Some (3 * Z.of_nat a - Z.of_nat n) ->
  Scores st' !! i
  = Some (3 * Z.of_nat (a + units_changed features Token Corpus)
          - Z.of_nat (n + units_with Token Corpus)).
Proof.
  intros Hrun Hi Hne. revert st n a Hrun.
  induction Corpus as [|C Corpus IH]; intros st n a Hrun Hsmall Ha Hs.
  - injection Hrun as <-. simpl. by rewrite !Nat.add_0_r.
  - cbn [AnalyzeCorpus] in Hrun.
    destruct (AnalyzeTokens' _ C 0 Dict _) as [st1|] eqn:H1; [|done].
    pose proof (AnalyzeTokens_score _ _ _ _ _ _ i Token
                  (3 * Z.of_nat a - Z.of_nat n) H1) as Hs1.
    rewrite Hdet in Hs1. cbn [units_changed units_with length] in *.
    destruct (occursb Token C); cbn [andb].
    + case_bool_decide as Hf; cbn [negb].
      * rewrite to_int_small in Hs1 by lia.
        rewrite (IH st1 (S n) a Hrun);
          [f_equal; lia | lia | lia |].
        rewrite Hs1; [f_equal; lia | lia | by rewrite Nat.sub_0_r | done | done].
      * rewrite to_int_small in Hs1 by lia.
        rewrite (IH st1 (S n) (S a) Hrun);
          [f_equal; lia | lia | lia |].
        rewrite Hs1; [f_equal; lia | lia | by rewrite Nat.sub_0_r | done | done].
    + rewrite (IH st1 n a Hrun); [f_equal; lia | lia | lia |].
      apply Hs1; [lia | by rewrite Nat.sub_0_r | done | done].
Qed.

End Deterministic.

(** X8: when the analyzer returns (no token is empty, fewer than [2^30]
    units), the usage count of a token is the number of units that hold it;
    its score lies between minus the usage count and twice the usage count,
    and score plus usage count is a multiple of three.  When the features
    of a run depend on nothing but the unit that is run, the score is two
    for each unit that holds the token and gives other features with the
    token masked, and minus one for each other unit that holds it. *)
Theorem AnalyzeDictionary_counts (F : FuzzerState) (Dict Corpus : list Unit)
  (r : Z) (st : AnalyzeState FuzzerState) (out : list Effect)
  (i : nat) (Token : Unit) :
  Forall (fun Token => Token <> []) Dict ->
  Z.of_nat (length Corpus) < 2 ^ 30 ->
  AnalyzeDictionary FuzzerState ExecuteCallback CollectFeatures F Dict Corpus
    = Some (r, st, out) ->
  Dict !! i = Some Token ->
  exists usage score,
    Usages st !! i = Some usage /\ Scores st !! i = Some score
    /\ usage = Z.of_nat (units_with Token Corpus)
    /\ - usage <= score <= 2 * usage
    /\ (score + usage) mod 3 = 0
    /\ forall features : Unit -> list Z,
         (forall (Fz : FuzzerState) (D : Unit),
            CollectFeatures (ExecuteCallback Fz D) = features D) ->
         score
         = 2 * Z.of_nat (units_changed features Token Corpus)
           - (usage - Z.of_nat (units_changed features Token Corpus)).
Proof.
  intros Hall Hsmall Hrun Hi. unfold AnalyzeDictionary in Hrun.
  destruct (AnalyzeCorpus' Dict Corpus _) as [st1|] eqn:Hst; [|done].
  injection Hrun as <- <- <-.
  assert (Hne : Token <> []).
  { rewrite Forall_forall in Hall. apply Hall.
    by apply list_elem_of_lookup_2 in Hi. }
  pose proof (lookup_lt_Some _ _ _ Hi) as Hlt.
  destruct (AnalyzeCorpus_counted _ _ _ _ _ _ O O Hst Hi Hne)
    as (a & Ha & HU & HS); cbn [Usages Scores]; try done.
  - by apply lookup_replicate_2.
  - by apply lookup_replicate_2.
  - simpl in *. eexists _, _. split; [exact HU|]. split; [exact HS|].
    split; [done|]. split; [lia|]. split.
    + replace (3 * Z.of_nat a - Z.of_nat (units_with Token Corpus)
               + Z.of_nat (units_with Token Corpus)) with (Z.of_nat a * 3) by lia.
      apply Z.mod_mul. lia.
    + intros features Hdet.
      assert (HS' : Scores st1 !! i
                = Some (3 * Z.of_nat (units_changed features Token Corpus)
                        - Z.of_nat (units_with Token Corpus))).
      { apply (AnalyzeCorpus_score features Hdet _ _ _ _ _ _ O O Hst Hi Hne);
          [done | lia | by apply lookup_replicate_2]. }
      rewrite HS in HS'. injection HS' as Heq. lia.
Qed.

End AnalyzeMore.

Section AnalyzeRuns.

Variable CollectFeatures : list Unit -> list Z.

Local Abbreviation holds Token C := (if occursb Token C then 1%nat else O).

Lemma AnalyzeToken_runs IF C i Token st st' :
  AnalyzeToken (list Unit) logging_callback CollectFeatures IF C i Token st
    = Some st' ->
  Token <> [] ->
  length (Fz st') = (length (Fz st) + holds Token C)%nat.
Proof.
  unfold AnalyzeToken. intros Hrun Hne.
  rewrite (search_occursb _ _ Hne) in Hrun.
  destruct (occursb Token C); cbn [negb] in Hrun.
  - destruct (MaskOccurrences _ _ _ _) as [Data|]; [|done].
    injection Hrun as <-. cbn [Fz]. unfold logging_callback.
    rewrite length_app. simpl. lia.
  - injection Hrun as <-. lia.
Qed.

Lemma AnalyzeTokens_runs IF C k Tokens st st' :
  AnalyzeTokens (list Unit) logging_callback CollectFeatures IF C k Tokens st
    = Some st' ->
  Forall (fun Token => Token <> []) Tokens ->
  length (Fz st')
  = (length (Fz st) + sum_list_with (fun Token => holds Token C) Tokens)%nat.
Proof.
  intros Hrun Hall. revert k st Hrun.
  induction Hall as [|Token Tokens Hne _ IH]; intros k st Hrun.
  - injection Hrun as <-. simpl. lia.
  - cbn [AnalyzeTokens] in Hrun.
    destruct (AnalyzeToken _ _ _ _ _ _ _ _) as [st1|] eqn:H1; [|done].
    rewrite (IH _ _ Hrun), (AnalyzeToken_runs _ _ _ _ _ _ H1 Hne). simpl. lia.
Qed.

Lemma sum_holds (Dict : list Unit) (C : Unit) (Corpus : list Unit) :
  sum_list_with (fun Token => units_with Token (C :: Corpus)) Dict
  = (sum_list_with (fun Token => holds Token C) Dict
     + sum_list_with (fun Token => units_with Token Corpus) Dict)%nat.
Proof. induction Dict as [|T Dict IH]; simpl in *; lia. Qed.

Lemma AnalyzeCorpus_runs Dict Corpus st st' :
  AnalyzeCorpus (list Unit) logging_callback CollectFeatures Dict Corpus st
    = Some st' ->
  Forall (fun Token => Token <> []) Dict ->
  length (Fz st')
  = (length (Fz st) + length Corpus
     + sum_list_with (fun Token => units_with Token Corpus) Dict)%nat.
Proof.
  intros Hrun Hall. revert st Hrun.
  induction Corpus as [|C Corpus IH]; intros st Hrun.
  - injection Hrun as <-.
    assert (sum_list_with (fun Token => units_with Token []) Dict = O)
      as -> by (clear; induction Dict as [|T Dict IH]; [done | exact IH]).
    simpl. lia.
  - cbn [AnalyzeCorpus] in Hrun.
    destruct (AnalyzeTokens _ _ _ _ _ _ _ _) as [st1|] eqn:H1; [|done].
    rewrite (IH _ Hrun), (AnalyzeTokens_runs _ _ _ _ _ _ H1 Hall), sum_holds.
    cbn [Fz length]. unfold logging_callback. rewrite length_app. simpl. lia.
Qed.

Lemma sum_units_with_le (Dict Corpus : list Unit) :
  (sum_list_with (fun Token => units_with Token Corpus) Dict
   <= length Dict * length Corpus)%nat.
Proof.
  induction Dict as [|T Dict IH]; simpl; [lia|].
  pose proof (units_with_le T Corpus). lia.
Qed.

(** X9: how often the analyzer runs the target.  With a fuzzer that only
    keeps the list of the units it is run on, and no empty token, the
    analyzer returns 0 having run the target once for each unit and once
    more for each pair of a unit and a token the unit holds; that is at
    most the bound announced at the start when the dictionary is not
    empty. *)
Theorem AnalyzeDictionary_runs (Log Dict Corpus : list Unit) :
  Forall (fun Token => Token <> []) Dict ->
  exists st out,
    AnalyzeDictionary (list Unit) logging_callback CollectFeatures
      Log Dict Corpus = Some (0, st, out)
    /\ length (Fz st)
       = (length Log + length Corpus
          + sum_list_with (fun Token => units_with Token Corpus) Dict)%nat
    /\ (Dict <> [] ->
        (length (Fz st) <= length Log + length Dict * length Corpus * 2)%nat).
Proof.
  intros Hall. unfold AnalyzeDictionary.
  destruct (AnalyzeCorpus_total (list Unit) logging_callback CollectFeatures
              Dict Corpus
              {| Fz := Log; Scores := replicate (length Dict) 0;
                 Usages := replicate (length Dict) 0 |} Hall) as [st Hst].
  rewrite Hst. cbn [mbind option_bind]. eexists st, _. split; [reflexivity|].
  pose proof (AnalyzeCorpus_runs _ _ _ _ Hst Hall) as Hruns. cbn [Fz] in Hruns.
  split; [exact Hruns|]. intros Hne. rewrite Hruns.
  pose proof (sum_units_with_le Dict Corpus).
  destruct Dict; [done|]. simpl in *. lia.
Qed.

End AnalyzeRuns.

Lemma AnalyzeDictionary_counts_witness :
  exists usage score,
    usage = 1 /\ - usage <= score <= 2 * usage /\ (score + usage) mod 3 = 0
    /\ score = 2.
Proof.
  assert (exists r st out,
            AnalyzeDictionary Unit (fun _ C => C) (fun C => C) []
              [[1; 2]; [9]] [[0; 1; 2; 3; 1; 2]] = Some (r, st, out))
    as (r & st & out & Hrun) by (vm_compute; eauto).
  destruct (AnalyzeDictionary_counts Unit (fun _ C => C) (fun C => C) []
              [[1; 2]; [9]] [[0; 1; 2; 3; 1; 2]] r st out O [1; 2])
    as (usage & score & _ & _ & Hu & Hs & Hm & Hexact).
  - repeat constructor; discriminate.
  - reflexivity.
  - exact Hrun.
  - reflexivity.
  - exists usage, score. split; [rewrite Hu; reflexivity|].
    split; [exact Hs|]. split; [exact Hm|].
    rewrite (Hexact (fun C => C) (fun _ _ => eq_refl)), Hu.
    vm_compute. reflexivity.
Defined.

Lemma AnalyzeDictionary_runs_witness :
  exists st out,
    AnalyzeDictionary (list Unit) logging_callback (fun Log => default [] (last Log))
      [] [[1; 2]; [9]] [[0; 1; 2; 3; 1; 2]] = Some (0, st, out)
    /\ length (Fz st) = 2%nat.
Proof.
  destruct (AnalyzeDictionary_runs (fun Log => default [] (last Log))
              [] [[1; 2]; [9]] [[0; 1; 2; 3; 1; 2]])
    as (st & out & Hrun & Hlen & _).
  - repeat constructor; discriminate.
  - exists st, out. split; [exact Hrun|]. rewrite Hlen. reflexivity.
Defined.

(** ** The worker pool: the value returned *)

Section WorkerPoolResult.

Variable ExecuteCommand : Z -> Z.
Variable CommandLine : Z -> string.
Variable Flags : FlagsStruct.
Variable NumWorkers NumJobs : Z.

(** [HasErrors] is set exactly when a job claimed so far ended with an
    exit code that is not zero. *)
Local Abbreviation errors_inv s :=
  (HasErrors s = true
   <-> exists t C, (t, C) ∈ Claimed s /\ ExecuteCommand C <> 0).

Lemma errors_inv_step (s : PoolState) (t : nat) :
  errors_inv s ->
  errors_inv (sched_step ExecuteCommand CommandLine Flags NumJobs s t).
Proof.
  intros Hinv. unfold sched_step.
  destruct (Threads s !! t) as [[]|]; try done.
  unfold WorkerRound. destruct (NumJobs <=? Counter s); [done|].
  cbn [HasErrors Claimed].
  destruct (Z.eqb_spec (ExecuteCommand (Counter s)) 0) as [Hz|Hnz]; cbn [negb].
  - rewrite Hinv. split.
    + intros (t' & C & Hin & HC). exists t', C. split; [|done].
      apply elem_of_app. by left.
    + intros (t' & C & [Hin|Hin]%elem_of_app & HC); [by exists t', C|].
      apply list_elem_of_singleton in Hin. injection Hin as -> ->. done.
  - split; [|done]. intros _. exists t, (Counter s). split; [|done].
    apply elem_of_app. right. by apply list_elem_of_singleton.
Qed.

Lemma errors_inv_run (sched : list nat) (s : PoolState) :
  errors_inv s ->
  errors_inv (run_schedule ExecuteCommand CommandLine Flags NumJobs sched s).
Proof.
  revert s. induction sched as [|t sched IH]; intros s Hinv; [done|].
  apply IH. by apply errors_inv_step.
Qed.

Hypothesis Hjobs : 0 <= NumJobs.
Hypothesis Hnowrap : NumJobs + NumWorkers <= 2 ^ 32.

(** Once every worker has left its loop, [HasErrors] tells whether one of
    the jobs [0], ..., [NumJobs - 1] ended with an exit code that is not
    zero. *)
Lemma pool_errors (sched : list nat) :
  0 < NumWorkers ->
  all_joined (run_schedule ExecuteCommand CommandLine Flags NumJobs sched
                (pool_start NumWorkers)) = true ->
  HasErrors (run_schedule ExecuteCommand CommandLine Flags NumJobs sched
               (pool_start NumWorkers)) = true
  <-> exists C, 0 <= C < NumJobs /\ ExecuteCommand C <> 0.
Proof.
  intros Hpos Hall.
  set (s := run_schedule ExecuteCommand CommandLine Flags NumJobs sched
              (pool_start NumWorkers)) in *.
  destruct (pool_inv_run ExecuteCommand CommandLine Flags NumWorkers NumJobs
              Hjobs Hnowrap sched _
              (pool_inv_start NumWorkers NumJobs Hjobs)) as (Hids & _ & Hlen & Hcnt).
  fold s in Hids, Hlen, Hcnt.
  apply all_joined_left_count in Hall. rewrite Hall, Hlen in Hcnt.
  destruct (Z.to_nat NumWorkers) eqn:E; [lia|].
  destruct Hcnt as [Hm _]. rewrite Hm in Hids.
  assert (Herr : errors_inv s).
  { apply errors_inv_run. cbn [pool_start HasErrors Claimed]. split; [done|].
    intros (t & C & Hin & _). by apply elem_of_nil in Hin. }
  assert (Hclaimed : forall C,
            (exists t, (t, C) ∈ Claimed s) <-> 0 <= C < NumJobs).
  { intros C. transitivity (C ∈ (Claimed s).*2).
    - rewrite list_elem_of_fmap. split.
      + intros [t Hin]. by exists (t, C).
      + intros ([t C'] & -> & Hin). by exists t.
    - rewrite Hids, elem_of_seqZ. lia. }
  rewrite Herr. split.
  - intros (t & C & Hin & HC). exists C. split; [|done].
    apply Hclaimed. by exists t.
  - intros (C & [t Hin]%Hclaimed & HC). by exists t, C.
Qed.

(** X10: while the counter cannot wrap, under every interleaving after
    which the joins return, [RunInMultipleProcesses] returns 1 when some job
    among [0], ..., [NumJobs - 1] ended with an exit code that is not zero,
    and 0 when every one of them ended with exit code zero. *)
Theorem RunInMultipleProcesses_result (sched : list nat) (r : Z)
  (s : PoolState) :
  0 < NumWorkers ->
  RunInMultipleProcesses ExecuteCommand CommandLine Flags
    NumWorkers NumJobs sched = Some (r, s) ->
  (r = 1 /\ exists C, 0 <= C < NumJobs /\ ExecuteCommand C <> 0)
  \/ (r = 0 /\ forall C, 0 <= C < NumJobs -> ExecuteCommand C = 0).
Proof.
  intros Hpos. unfold RunInMultipleProcesses.
  destruct (all_joined _) eqn:Hall; [|done]. intros [= <- <-].
  pose proof (pool_errors sched Hpos Hall) as Herr.
  destruct (HasErrors _).
  - left. split; [done|]. by apply Herr.
  - right. split; [done|]. intros C HC.
    destruct (Z.eq_dec (ExecuteCommand C) 0) as [|Hnz]; [done|].
    assert (false = true); [|done]. apply Herr. by exists C.
Qed.

End WorkerPoolResult.

Lemma RunInMultipleProcesses_result_witness :
  (1 = 1 /\ exists C, 0 <= C < 3 /\ (if C =? 1 then 7 else 0) <> 0)
  \/ (1 = 0 /\ forall C, 0 <= C < 3 -> (if C =? 1 then 7 else 0) = 0).
Proof.
  refine (RunInMultipleProcesses_result (fun C => if C =? 1 then 7 else 0)
            (fun _ => "fuzz"%string) (Flags initial_state) 2 3 _ _
            [0; 1; 1; 0; 0; 1]%nat 1 _ _ _); [lia | lia | lia | reflexivity].
Defined.

(** ** The flag parser: which argument wins, and what is ignored *)

Lemma string_app_inv_head (a b c : string) : a +:+ b = a +:+ c -> b = c.
Proof. string_ind a; [done|]. intros [=]. auto. Qed.

Lemma no_equals_split (N N' v v' : string) :
  no_equals N = true -> no_equals N' = true ->
  N +:+ String "=" v = N' +:+ String "=" v' -> N = N' /\ v = v'.
Proof.
  revert N'. induction N as [|c N IH]; intros [|c' N'];
    rewrite ?app_nil_l, ?app_String; cbn [no_equals].
  - by intros _ _ [= ->].
  - intros _ [Hc _]%andb_true_iff [= <- _].
    by rewrite Ascii.eqb_refl in Hc.
  - intros [Hc _]%andb_true_iff _ [= -> _].
    by rewrite Ascii.eqb_refl in Hc.
  - intros [_ HN]%andb_true_iff [_ HN']%andb_true_iff [= -> Heq].
    destruct (IH N' HN HN' Heq) as [-> ->]. done.
Qed.

Lemma flag_token_inj (N N' v v' : string) :
  plain_name N = true -> plain_name N' = true ->
  flag_token N v = flag_token N' v' -> N = N' /\ v = v'.
Proof.
  intros [_ HN]%andb_true_iff [_ HN']%andb_true_iff.
  rewrite !flag_token_dash. intros [= Heq].
  by apply no_equals_split.
Qed.

Lemma flag_token_single_dash (N v : string) :
  plain_name N = true ->
  char_at (flag_token N v) 0 = "-"%char
  /\ char_at (flag_token N v) 1 <> "-"%char.
Proof.
  intros [Hd _]%andb_true_iff. split; [done|].
  rewrite flag_token_dash.
  destruct N as [|c N]; [done|]. rewrite app_String.
  change (char_at (String "-" (String c _)) 1) with c.
  change (char_at (String c N) 0) with c in Hd.
  intros ->. done.
Qed.

Section ParserMore.

Variable FlagDescriptions : list FlagDescription.
Variable stoul : string -> option Z.

Hypothesis Hwf : well_formed_registry FlagDescriptions.
Hypothesis Hplain :
  Forall (fun D => plain_name (Name D) = true) FlagDescriptions.

(** The row of the name of an argument [-Name=v] is the row the loop over
    the registry stops at. *)
Lemma FindFlag_finds (D : FlagDescription) (v : string) (Fs : list FlagDescription)
  (st st' : DriverState) (r : bool) :
  Forall from_macro Fs -> NoDup (Name <$> Fs) ->
  Forall (fun D => plain_name (Name D) = true) Fs ->
  D ∈ Fs ->
  FindFlag stoul (flag_token (Name D) v) Fs st = Some (r, st') ->
  holds_parsed stoul D v (Flags st').
Proof.
  intros Hall. revert st.
  induction Hall as [|X Fs HX Hall IH]; intros st Hnd Hpl HD Hrun;
    [by apply elem_of_nil in HD|].
  cbn [FindFlag] in Hrun.
  apply Forall_cons in Hpl as [HplX Hpl].
  pose proof Hnd as Hnd0.
  rewrite fmap_cons, NoDup_cons in Hnd. destruct Hnd as [Hnotin Hnd].
  assert (HplD : plain_name (Name D) = true).
  { apply elem_of_cons in HD as [->|HD]; [done|].
    rewrite Forall_forall in Hpl. by apply Hpl. }
  destruct (FlagValue (flag_token (Name D) v) (Name X)) as [Str|] eqn:HV.
  - apply FlagValue_Some in HV.
    destruct (flag_token_inj _ _ _ _ HplD HplX HV) as [Hname <-].
    assert (X = D) as ->.
    { apply (registry_row_by_name (X :: Fs)); [done | by left | done | done]. }
    unfold holds_parsed.
    destruct (from_macro_cases D HX)
      as [(HI & HU & HS)|[(HI & HU & HS)|[(HI & HU & HS)|(HI & HU & HS)]]];
      rewrite HI, ?HU, ?HS in Hrun; rewrite HI, HU, HS.
    + repeat split; done.
    + injection Hrun as _ <-. rewrite log_flag_Flags.
      repeat split; try done. intros _. apply num_set_num.
    + destruct (stoul v) as [Val|] eqn:Hs; [|done]. cbn in Hrun.
      injection Hrun as _ <-. rewrite log_flag_Flags.
      repeat split; try done. intros _. exists Val. split; [done|].
      apply num_set_num.
    + injection Hrun as _ <-. rewrite log_flag_Flags.
      repeat split; try done. intros _. unfold set_str. cbn [strs].
      apply lookup_insert_eq.
  - apply elem_of_cons in HD as [->|HD].
    + rewrite (proj2 (FlagValue_Some _ _ v)) in HV; done.
    + by apply (IH st).
Qed.

Lemma ParseOneFlag_finds (D : FlagDescription) (v : string)
  (st st' : DriverState) (r : bool) :
  D ∈ FlagDescriptions ->
  ParseOneFlag FlagDescriptions stoul (flag_token (Name D) v) st
    = Some (r, st') ->
  r = true /\ holds_parsed stoul D v (Flags st').
Proof.
  intros HD. unfold ParseOneFlag.
  assert (HplD : plain_name (Name D) = true).
  { rewrite Forall_forall in Hplain. by apply Hplain. }
  destruct (flag_token_single_dash (Name D) v HplD) as [H0 H1].
  rewrite H0. cbn [Ascii.eqb Bool.eqb negb].
  destruct (Ascii.eqb_spec (char_at (flag_token (Name D) v) 1) "-"); [done|].
  intros Hrun. split.
  - by apply FindFlag_Inputs in Hrun as [-> _].
  - destruct Hwf as [Hall Hnd]. by apply (FindFlag_finds D v _ _ _ _ Hall Hnd Hplain HD Hrun).
Qed.

(** When the loop over the arguments ends with [ignore_remaining_args]
    zero, it has not left early: [Flags] is as the last argument left it. *)
Lemma ParseArgs_last (pre : list string) (tok : string) (st st' : DriverState) :
  ParseArgs FlagDescriptions stoul (pre ++ [tok]) st = Some st' ->
  num (Flags st') "ignore_remaining_args" = 0 ->
  exists s r s', ParseOneFlag FlagDescriptions stoul tok s = Some (r, s')
                 /\ Flags st' = Flags s'.
Proof.
  revert st. induction pre as [|a pre IH]; intros st Hrun Hz; cbn [app ParseArgs] in Hrun.
  - destruct (ParseOneFlag _ _ tok st) as [[parsed s1]|] eqn:H1; [|done].
    cbn in Hrun. exists st, parsed, s1. split; [done|].
    destruct parsed; [destruct (negb _)|]; by injection Hrun as <-.
  - destruct (ParseOneFlag _ _ a st) as [[parsed s1]|] eqn:H1; [|done].
    cbn in Hrun. destruct parsed.
    + destruct (Z.eqb_spec (num (Flags s1) "ignore_remaining_args") 0) as [|Hnz];
        cbn [negb] in Hrun; [by apply (IH s1)|].
      injection Hrun as <-. done.
    + by apply (IH _ Hrun).
Qed.

(** X11: the last occurrence of a flag wins.  When the last argument is
    [-Name=v] for a registered flag and [ParseFlags] returns with
    [ignore_remaining_args] zero, the field of the flag holds what the
    parser makes of [v], whatever the arguments before it were. *)
Theorem ParseFlags_last_wins (argv0 : string) (pre : list string)
  (D : FlagDescription) (v : string) (EF : ExternalFunctions)
  (st0 st : DriverState) :
  D ∈ FlagDescriptions ->
  ParseFlags FlagDescriptions stoul
    (argv0 :: pre ++ [flag_token (Name D) v]) EF st0 = Some st ->
  num (Flags st) "ignore_remaining_args" = 0 ->
  holds_parsed stoul D v (Flags st).
Proof.
  intros HD (st1 & Hrun & _)%ParseFlags_start Hz. cbn [drop] in Hrun.
  destruct (ParseArgs_last _ _ _ _ Hrun Hz) as (s & r & s' & Hone & HF).
  rewrite HF. by apply (ParseOneFlag_finds D v s s' r).
Qed.

(** An argument after which [ignore_remaining_args] is not zero ends the
    loop over the arguments. *)
Lemma ParseArgs_stops (tok : string) (pre rest : list string) (st : DriverState) :
  (forall s r s', ParseOneFlag FlagDescriptions stoul tok s = Some (r, s') ->
                  r = true /\ num (Flags s') "ignore_remaining_args" <> 0) ->
  ParseArgs FlagDescriptions stoul (pre ++ tok :: rest) st
  = ParseArgs FlagDescriptions stoul (pre ++ [tok]) st.
Proof.
  intros Htok. revert st. induction pre as [|a pre IH]; intros st; cbn [app ParseArgs].
  - destruct (ParseOneFlag _ _ tok st) as [[parsed s1]|] eqn:H1; [|done].
    destruct (Htok _ _ _ H1) as [-> Hnz]. cbn.
    destruct (Z.eqb_spec (num (Flags s1) "ignore_remaining_args") 0); done.
  - destruct (ParseOneFlag _ _ a st) as [[parsed s1]|]; [|done]. cbn.
    destruct parsed; [destruct (negb _)|]; by rewrite ?IH.
Qed.

(** X12: what follows [-ignore_remaining_args=v], [v] not read as zero, is
    neither parsed nor collected: [ParseFlags] does the same with and
    without the arguments after it. *)
Theorem ParseFlags_ignore_remaining (argv0 : string) (pre rest : list string)
  (d : Z) (desc v : string) (EF : ExternalFunctions) (st0 : DriverState) :
  FUZZER_FLAG_INT "ignore_remaining_args" d desc ∈ FlagDescriptions ->
  to_int (MyStol v) <> 0 ->
  ParseFlags FlagDescriptions stoul
    (argv0 :: pre ++ flag_token "ignore_remaining_args" v :: rest) EF st0
  = ParseFlags FlagDescriptions stoul
      (argv0 :: pre ++ [flag_token "ignore_remaining_args" v]) EF st0.
Proof.
  intros HD Hv. unfold ParseFlags. cbn [drop].
  apply ParseArgs_stops. intros s r s' Hone.
  destruct (ParseOneFlag_finds _ v s s' r HD Hone) as [-> (Hint & _)].
  split; [done|]. cbn [Name FUZZER_FLAG_INT IntFlag] in Hint.
  by rewrite (Hint eq_refl).
Qed.

End ParserMore.

Section ParserNotice.

Variable FlagDescriptions : list FlagDescription.
Variable stoul : string -> option Z.

(** What is still to come of the notice: the lines printed so far, and one
    more while [PrintedWarning] is unset. *)
Local Abbreviation notices st :=
  (count_fmt ignored_flags_notice (Out st)
   + (if PrintedWarning st then 0 else 1))%nat.

Lemma count_fmt_app (f : string) (out out' : list Line) :
  count_fmt f (out ++ out') = (count_fmt f out + count_fmt f out')%nat.
Proof. induction out as [|l out IH]; simpl; [done|]. lia. Qed.

Lemma notices_print (f : string) (a : list Arg) (st : DriverState) :
  String.eqb f ignored_flags_notice = false ->
  notices (print (Printf f a) st) = notices st.
Proof.
  intros Hf. unfold print. cbn [Out PrintedWarning].
  rewrite count_fmt_app. cbn [count_fmt fmt]. rewrite Hf. lia.
Qed.

Lemma notices_log_flag (f : string) (a : list Arg) (st : DriverState) :
  String.eqb f ignored_flags_notice = false ->
  notices (log_flag (Printf f a) st) = notices st.
Proof.
  intros Hf. unfold log_flag. destruct (_ <=? _); [|done].
  by apply notices_print.
Qed.

Lemma notices_DidYouMean (Param : string) (Fs : list FlagDescription)
  (st : DriverState) :
  notices (DidYouMean Param Fs st) = notices st.
Proof.
  revert st. induction Fs as [|D Fs IH]; intros st; [done|].
  cbn [DidYouMean]. rewrite IH.
  destruct (FlagValue _ _); [by apply notices_print | done].
Qed.

Lemma notices_FindFlag (Param : string) (Fs : list FlagDescription)
  (st st' : DriverState) (r : bool) :
  FindFlag stoul Param Fs st = Some (r, st') -> notices st' = notices st.
Proof.
  induction Fs as [|D Fs IH]; cbn [FindFlag].
  - intros [= _ <-]. by apply notices_print.
  - destruct (FlagValue Param (Name D)) as [Str|]; [|done].
    destruct (IntFlag D), (UIntFlag D), (StrFlag D);
      try destruct (stoul Str); cbn; try done;
      intros [= _ <-];
      first [by rewrite notices_log_flag | by rewrite notices_print].
Qed.

Lemma notices_ParseOneFlag (Param : string) (st st' : DriverState) (r : bool) :
  ParseOneFlag FlagDescriptions stoul Param st = Some (r, st') ->
  notices st' = notices st.
Proof.
  unfold ParseOneFlag. destruct (negb _); [by intros [= _ <-]|].
  destruct (Ascii.eqb _ _); [|apply notices_FindFlag].
  intros [= _ <-]. rewrite notices_DidYouMean.
  destruct (PrintedWarning st) eqn:Hp; cbn [negb]; [by rewrite Hp|].
  unfold print, with_PrintedWarning. cbn [Out PrintedWarning].
  rewrite count_fmt_app. cbn. lia.
Qed.

Lemma notices_ParseArgs (Args : list string) (st st' : DriverState) :
  ParseArgs FlagDescriptions stoul Args st = Some st' ->
  notices st' = notices st.
Proof.
  revert st. induction Args as [|a Args IH]; intros st Hrun.
  - by injection Hrun as <-.
  - cbn [ParseArgs] in Hrun.
    destruct (ParseOneFlag _ _ a st) as [[parsed s1]|] eqn:H1; [|done].
    cbn in Hrun. apply notices_ParseOneFlag in H1. rewrite <- H1.
    destruct parsed; [destruct (negb _)|].
    + by injection Hrun as <-.
    + by apply IH.
    + by rewrite (IH _ Hrun).
Qed.

(** X13: the notice about arguments that start with two dashes is printed
    at most once: [ParseFlags] adds it once at most, and not at all when an
    earlier call has printed it. *)
Theorem ParseFlags_notice_once (Args : list string) (EF : ExternalFunctions)
  (st0 st : DriverState) :
  ParseFlags FlagDescriptions stoul Args EF st0 = Some st ->
  (count_fmt ignored_flags_notice (Out st)
   <= count_fmt ignored_flags_notice (Out st0)
      + (if PrintedWarning st0 then 0 else 1))%nat.
Proof.
  unfold ParseFlags. intros Hrun%notices_ParseArgs.
  cbn [with_Inputs Out PrintedWarning] in Hrun.
  destruct (LLVMFuzzerCustomMutator EF).
  - rewrite notices_print in Hrun by done.
    cbn [with_Flags Out PrintedWarning] in Hrun. lia.
  - cbn [with_Flags Out PrintedWarning] in Hrun. lia.
Qed.

End ParserNotice.

Lemma example_registry_plain :
  Forall (fun D => plain_name (Name D) = true) example_registry.
Proof.
  unfold example_registry.
  repeat (apply Forall_cons_2; [reflexivity|]). apply Forall_nil_2.
Qed.

Lemma ParseFlags_last_wins_witness :
  exists st,
    ParseFlags example_registry example_stoul
      ["fuzz"; "-runs=1"; "corpus"; "-runs=7"]
      {| LLVMFuzzerInitialize := None; LLVMFuzzerCustomMutator := None |}
      initial_state = Some st
    /\ num (Flags st) "runs" = 7.
Proof.
  destruct (ParseFlags example_registry example_stoul
              ["fuzz"; "-runs=1"; "corpus"; "-runs=7"]
              {| LLVMFuzzerInitialize := None; LLVMFuzzerCustomMutator := None |}
              initial_state)
    as [st|] eqn:Hrun; [|vm_compute in Hrun; discriminate Hrun].
  exists st. split; [reflexivity|].
  destruct (ParseFlags_last_wins example_registry example_stoul
              example_registry_well_formed example_registry_plain
              "fuzz" ["-runs=1"; "corpus"]
              (FUZZER_FLAG_INT "runs" (-1) "Number of individual test runs.")
              "7"
              {| LLVMFuzzerInitialize := None; LLVMFuzzerCustomMutator := None |}
              initial_state st) as (Hint & _).
  - unfold example_registry. rewrite !elem_of_cons. auto.
  - exact Hrun.
  - vm_compute in Hrun. injection Hrun as <-. reflexivity.
  - exact (Hint eq_refl).
Defined.

Lemma ParseFlags_ignore_remaining_witness :
  ParseFlags example_registry example_stoul
    ["fuzz"; "-runs=2"; "-ignore_remaining_args=1"; "-runs=9"; "corpus"]
    {| LLVMFuzzerInitialize := None; LLVMFuzzerCustomMutator := None |}
    initial_state
  = ParseFlags example_registry example_stoul
      ["fuzz"; "-runs=2"; "-ignore_remaining_args=1"]
      {| LLVMFuzzerInitialize := None; LLVMFuzzerCustomMutator := None |}
      initial_state.
Proof.
  apply (ParseFlags_ignore_remaining example_registry example_stoul
           example_registry_well_formed example_registry_plain
           "fuzz" ["-runs=2"] ["-runs=9"; "corpus"] 0
           "Ignore the remaining arguments." "1").
  - unfold example_registry. rewrite !elem_of_cons. auto 10.
  - vm_compute. discriminate.
Defined.

Lemma ParseFlags_notice_once_witness :
  exists st,
    ParseFlags example_registry example_stoul
      ["fuzz"; "--runs=2"; "--x"; "--verbosity=3"]
      {| LLVMFuzzerInitialize := None; LLVMFuzzerCustomMutator := None |}
      initial_state = Some st
    /\ (count_fmt ignored_flags_notice (Out st) <= 1)%nat.
Proof.
  destruct (ParseFlags example_registry example_stoul
              ["fuzz"; "--runs=2"; "--x"; "--verbosity=3"]
              {| LLVMFuzzerInitialize := None; LLVMFuzzerCustomMutator := None |}
              initial_state)
    as [st|] eqn:Hrun; [|vm_compute in Hrun; discriminate Hrun].
  exists st. split; [reflexivity|].
  exact (ParseFlags_notice_once example_registry example_stoul _ _ _ _ Hrun).
Defined.

(** ** MyStol reads back what decimal printing writes *)

Lemma decimal_from_app (acc : Z) (a b : string) :
  decimal_from acc (a +:+ b) = decimal_from (decimal_from acc a) b.
Proof.
  revert acc. induction a as [|c a IH]; intros acc;
    rewrite ?app_nil_l, ?app_String; [done|]. cbn [decimal_from]. apply IH.
Qed.

Lemma all_digits_app (a b : string) :
  all_digits (a +:+ b) = all_digits a && all_digits b.
Proof.
  induction a as [|c a IH]; rewrite ?app_nil_l, ?app_String; [done|].
  cbn [all_digits]. by rewrite IH, andb_assoc.
Qed.

Lemma pretty_N_char_digit (m : N) :
  (m < 10)%N ->
  is_digit (pretty_N_char m) = true
  /\ digit_value (pretty_N_char m) = Z.of_N m.
Proof.
  intros Hm.
  assert (m = 0 \/ m = 1 \/ m = 2 \/ m = 3 \/ m = 4 \/ m = 5 \/ m = 6
          \/ m = 7 \/ m = 8 \/ m = 9)%N as Hcases by lia.
  destruct Hcases as [->|[->|[->|[->|[->|[->|[->|[->|[->| ->]]]]]]]]];
    by vm_compute.
Qed.

(** What [pretty_N_go x s] puts in front of [s]: the digits of [x]. *)
Lemma pretty_N_go_digits (x : N) (s : string) :
  exists d, pretty_N_go x s = d +:+ s
            /\ all_digits d = true
            /\ (forall acc, decimal_from acc d
                            = acc * 10 ^ Z.of_nat (String.length d) + Z.of_N x)
            /\ ((0 < x)%N -> d <> EmptyString).
Proof.
  revert s. induction (N.lt_wf_0 x) as [x _ IH]; intros s.
  destruct (N.eq_dec x 0%N) as [->|Hx].
  - exists EmptyString. rewrite pretty_N_go_0.
    split; [done|]. split; [done|].
    split; [intros acc; simpl; lia | lia].
  - rewrite pretty_N_go_step by lia.
    destruct (IH (x `div` 10)%N ltac:(apply N.div_lt; lia)
                (String (pretty_N_char (x `mod` 10)) s))
      as (d & -> & Hd & Hval & _).
    destruct (pretty_N_char_digit (x `mod` 10)%N) as [Hdig Hdv];
      [apply N.mod_lt; lia|].
    exists (d +:+ String (pretty_N_char (x `mod` 10)) EmptyString).
    split; [by rewrite string_app_assoc|]. split; [|split].
    + rewrite all_digits_app, Hd. cbn [all_digits]. by rewrite Hdig.
    + intros acc. rewrite decimal_from_app, Hval. cbn [decimal_from].
      rewrite Hdv, string_app_length. cbn [String.length].
      replace (Z.of_nat (String.length d + 1))
        with (Z.of_nat (String.length d) + 1) by lia.
      rewrite Z.pow_add_r, Z.pow_1_r by lia.
      pose proof (N.div_mod x 10%N ltac:(lia)) as Hdm.
      rewrite N2Z.inj_div, N2Z.inj_mod.
      pose proof (Z.div_mod (Z.of_N x) 10 ltac:(lia)).
      change (Z.of_N 10) with 10. lia.
    + intros _. by destruct d.
Qed.

Lemma all_digits_no_dash (d : string) :
  all_digits d = true -> Ascii.eqb (char_at d 0) "-" = false.
Proof.
  destruct d as [|c d]; [done|]. cbn [all_digits].
  intros [Hc _]%andb_true_iff. change (char_at (String c d) 0) with c.
  destruct (Ascii.eqb_spec c "-") as [->|]; done.
Qed.

Lemma MyStol_pretty_pos (p : positive) :
  exists d, pretty (N.pos p) = d /\ all_digits d = true
            /\ decimal d = Z.pos p.
Proof.
  unfold pretty, pretty_N. rewrite decide_False by done.
  destruct (pretty_N_go_digits (N.pos p) EmptyString) as (d & Hgo & Hd & Hval & _).
  exists d. split; [|split; [done|]].
  - rewrite Hgo. clear. induction d as [|c d IH]; [done|].
    rewrite app_String. by f_equal.
  - unfold decimal. rewrite Hval. lia.
Qed.

(** X14: [MyStol] reads back what decimal printing writes: on the decimal
    numeral of [z], with its minus sign when [z] is negative, it returns
    [z], for every [z] strictly between [-2^63] and [2^63]. *)
Theorem MyStol_pretty (z : Z) :
  - 2 ^ 63 < z < 2 ^ 63 -> MyStol (pretty z) = z.
Proof.
  intros Hz. destruct z as [|p|p]; [done| |].
  - change (pretty (Z.pos p)) with (pretty (N.pos p)).
    destruct (MyStol_pretty_pos p) as (d & -> & Hd & Hval).
    rewrite MyStol_unsigned by by apply all_digits_no_dash.
    rewrite MyStol_loop_all by done. fold (decimal d). rewrite Hval.
    rewrite Z.mul_1_r, to_long_idem. apply to_long_small. lia.
  - change (pretty (Z.neg p)) with ("-" +:+ pretty (N.pos p)).
    destruct (MyStol_pretty_pos p) as (d & -> & Hd & Hval).
    rewrite app_String, app_nil_l, MyStol_signed.
    rewrite MyStol_loop_all by done. fold (decimal d). rewrite Hval.
    rewrite (to_long_small (Z.pos p)) by lia.
    rewrite to_long_small by lia. lia.
Qed.

Lemma MyStol_pretty_witness : MyStol "-9223372036854775807" = - 9223372036854775807.
Proof. apply (MyStol_pretty (- 9223372036854775807)). lia. Defined.

(** ** ParseSeedInuts: nothing of the text is lost *)

Lemma find_last_of_None (s : string) :
  find_last_of s "," = None -> no_comma s = true.
Proof.
  induction s as [|c s IH]; [done|]. cbn [find_last_of no_comma].
  destruct (find_last_of s ","); [done|].
  destruct (Ascii.eqb c ","); [done|]. intros _. by rewrite IH.
Qed.

Lemma find_last_of_Some (s : string) (p : nat) :
  find_last_of s "," = Some p ->
  s = string_take p s +:+ "," +:+ ptr_add s (p + 1)
  /\ no_comma (ptr_add s (p + 1)) = true.
Proof.
  revert p. induction s as [|c s IH]; intros p; [done|].
  cbn [find_last_of].
  destruct (find_last_of s ",") as [q|] eqn:Hq.
  - intros [= <-]. destruct (IH q eq_refl) as [Hs Hn].
    cbn [string_take ptr_add Nat.add]. rewrite app_String. split; [by f_equal|].
    done.
  - destruct (Ascii.eqb_spec c ",") as [->|]; [|done].
    intros [= <-]. cbn [string_take ptr_add Nat.add].
    split; [done | by apply find_last_of_None].
Qed.

Lemma SplitSeedInputs_text (s : string) (Files : list string) :
  exists l, SplitSeedInputs s Files = Files ++ l
            /\ l <> []
            /\ join_commas (reverse l) = s
            /\ Forall (fun x => no_comma x = true) l.
Proof.
  remember (String.length s) as n eqn:Hn. revert s Files Hn.
  induction (lt_wf n) as [n _ IH]; intros s Files ->.
  rewrite SplitSeedInputs_round.
  destruct (find_last_of s ",") as [p|] eqn:Hp.
  - destruct (find_last_of_Some s p Hp) as [Hs Hno].
    assert (Hlen : (String.length (substr s 0 p) < String.length s)%nat).
    { unfold substr. cbn [ptr_add].
      pose proof (f_equal String.length Hs) as Hl.
      rewrite !string_app_length in Hl. simpl in Hl. lia. }
    destruct (IH _ Hlen (substr s 0 p) (Files ++ [substr_from s (p + 1)]) eq_refl)
      as (l & -> & Hne & Hjoin & Hall).
    exists (substr_from s (p + 1) :: l).
    split; [by rewrite <- app_assoc|]. split; [done|]. split.
    + rewrite reverse_cons, join_commas_snoc, Hjoin.
      * unfold substr, substr_from. cbn [ptr_add]. by rewrite <- Hs.
      * intros Hr. apply Hne. apply (f_equal reverse) in Hr.
        by rewrite reverse_involutive in Hr.
    + by apply Forall_cons_2.
  - exists [s]. repeat split; try done.
    apply Forall_singleton. by apply find_last_of_None.
Qed.

(** X15: nothing of the seed list is lost.  When [Flags.seed_inputs] is
    set and the text it gives (the flag itself, or the contents of the file
    named after [@]) is not empty, [ParseSeedInuts] returns file names
    without commas that, joined by commas in the reverse of the order
    returned, give that text back. *)
Theorem ParseSeedInuts_round_trip (FileToString : string -> string)
  (F : FlagsStruct) (Flags_seed_inputs arg : string) :
  strs F !! "seed_inputs" = Some Flags_seed_inputs ->
  (if Ascii.eqb (char_at Flags_seed_inputs 0) "@"
   then FileToString (ptr_add Flags_seed_inputs 1)
   else Flags_seed_inputs) <> EmptyString ->
  exists Files,
    ParseSeedInuts FileToString F (Some arg) = ([], Returns Files)
    /\ Files <> []
    /\ Forall (fun x => no_comma x = true) Files
    /\ join_commas (reverse Files)
       = if Ascii.eqb (char_at Flags_seed_inputs 0) "@"
         then FileToString (ptr_add Flags_seed_inputs 1)
         else Flags_seed_inputs.
Proof.
  intros HF Hne. unfold ParseSeedInuts. rewrite HF.
  destruct (if Ascii.eqb (char_at Flags_seed_inputs 0) "@"
            then FileToString (ptr_add Flags_seed_inputs 1)
            else Flags_seed_inputs) as [|c s] eqn:Htext; [done|].
  cbn [String.length Nat.eqb].
  destruct (SplitSeedInputs_text (String c s) []) as (l & Hl & Hnil & Hjoin & Hall).
  exists l. rewrite Hl. done.
Qed.

Lemma ParseSeedInuts_round_trip_witness :
  exists Files,
    ParseSeedInuts (fun path => if String.eqb path "list" then ",b,c"%string
                                else EmptyString)
      (set_str "seed_inputs" (Some "@list") (Flags initial_state))
      (Some "@list") = ([], Returns Files)
    /\ join_commas (reverse Files) = ",b,c"%string.
Proof.
  destruct (ParseSeedInuts_round_trip
              (fun path => if String.eqb path "list" then ",b,c"%string
                           else EmptyString)
              (set_str "seed_inputs" (Some "@list") (Flags initial_state))
              "@list" "@list")
    as (Files & Hrun & _ & _ & Hjoin).
  - reflexivity.
  - discriminate.
  - exists Files. split; [exact Hrun | exact Hjoin].
Defined.

(** ** PrintHelp *)





Lemma internal_flag_strstr (D : FlagDescription) :
  bool_decide (strstr (Description D) "internal flag" = Some O)
  = internal_flag D.
Proof.
  unfold internal_flag. destruct (String.prefix _ _) eqn:Hp.
  - apply bool_decide_eq_true_2. by apply strstr_at_start.
  - apply bool_decide_eq_false_2. rewrite strstr_at_start. congruence.
Qed.


Lemma listed_flag_row (M : Z) (D : FlagDescription) :
  omap listed_flag (PrintHelpRow M D)
  = if internal_flag D then [] else [Name D].
Proof.
  unfold PrintHelpRow. rewrite internal_flag_strstr.
  destruct (internal_flag D); [done|].
  rewrite omap_app. cbn [omap list_omap listed_flag args fmt String.eqb].
  rewrite omap_app.
  assert (omap listed_flag (replicate
            (Z.to_nat (to_size_t (M - Z.of_nat (strlen (Name D)))))
            (Printf " " [])) = []) as ->.
  { induction (Z.to_nat _) as [|n IH]; [done | exact IH]. }
  reflexivity.
Qed.

(** X17: the flags the help lists are the flags of the registry whose
    description does not start with [internal flag], deprecated ones
    included, each once and in the order of the registry. *)
Theorem PrintHelp_lists (Fs : list FlagDescription) (ProgName : string) :
  omap listed_flag (PrintHelp Fs ProgName)
  = Name <$> filter (fun D => internal_flag D = false) Fs.
Proof.
  unfold PrintHelp. rewrite !omap_app.
  match goal with
  | |- ?h ++ _ ++ ?t = _ =>
      change h with (@nil string); change t with (@nil string)
  end.
  cbn [app]. rewrite app_nil_r. generalize (MaxFlagLen Fs). intros M.
  induction Fs as [|D Fs IH]; [done|].
  rewrite fmap_cons. cbn [concat]. rewrite omap_app, IH, listed_flag_row.
  rewrite filter_cons. destruct (internal_flag D); case_decide; done.
Qed.


(** ** ValidateDirectoryExists *)

(** X18: [ValidateDirectoryExists] returns, having printed nothing, when
    the path is not empty and is a directory, or could be created on
    request; in every other case it prints one line that starts with
    [ERROR:] and ends the process with status 1.  It asks for the directory
    to be created only when [CreateDirectory] is set and the path is not
    empty and not a directory. *)
Theorem ValidateDirectoryExists_cases (IsDirectory MkDirRecursive : string -> bool)
  (Path : string) (CreateDirectory : bool) :
  let r := ValidateDirectoryExists IsDirectory MkDirRecursive Path
             CreateDirectory in
  let wanted := negb (String.length Path =? 0)%nat && negb (IsDirectory Path)
                && CreateDirectory in
  created r.1 = (if wanted then [Path] else [])
  /\ if negb (String.length Path =? 0)%nat
        && (IsDirectory Path || CreateDirectory && MkDirRecursive Path)
     then r.2 = Returns tt /\ printed r.1 = []
     else r.2 = Exits 1
          /\ exists l, printed r.1 = [l]
                       /\ String.prefix "ERROR:" (fmt l) = true.
Proof.
  unfold ValidateDirectoryExists.
  destruct (String.length Path =? 0)%nat; cbn; [by eauto|].
  destruct (IsDirectory Path); cbn; [done|].
  destruct CreateDirectory; cbn; [|by eauto].
  destruct (MkDirRecursive Path); cbn; by eauto.
Qed.

(** ** CloneArgsWithoutX *)

Lemma CloneArgsWithoutX_foldl (Args : list string) (X1 X2 Cmd : string) :
  foldl (fun Cmd S =>
           if bool_decide (is_Some (FlagValue S X1))
              || bool_decide (is_Some (FlagValue S X2))
           then Cmd
           else Cmd +:+ (S +:+ " "))
    Cmd Args
  = Cmd +:+ CloneArgsWithoutX Args X1 X2.
Proof.
  unfold CloneArgsWithoutX. revert Cmd.
  induction Args as [|S Args IH]; intros Cmd; cbn [foldl].
  - clear. induction Cmd as [|c Cmd IH]; [done|]. rewrite app_String. by f_equal.
  - rewrite IH. destruct (_ || _); [done|].
    rewrite (IH (EmptyString +:+ _)), app_nil_l. by rewrite string_app_assoc.
Qed.

Lemma is_Some_FlagValue (S X : string) :
  is_Some (FlagValue S X) <-> is_flag_for X S.
Proof.
  unfold is_flag_for. split.
  - intros [v Hv]. exists v. by apply FlagValue_Some.
  - intros [v ->]. exists v. by apply FlagValue_Some.
Qed.

(** X19: [CloneArgsWithoutX] joins the arguments, each followed by one
    blank, leaving out exactly those of the form [-X1=v] or [-X2=v]: the
    result for a list put together from two lists is the two results put
    together, such an argument adds nothing, and any other argument adds
    itself and a blank. *)
Theorem CloneArgsWithoutX_spec (X1 X2 : string) :
  CloneArgsWithoutX [] X1 X2 = EmptyString
  /\ (forall A B,
        CloneArgsWithoutX (A ++ B) X1 X2
        = CloneArgsWithoutX A X1 X2 +:+ CloneArgsWithoutX B X1 X2)
  /\ (forall S, is_flag_for X1 S \/ is_flag_for X2 S ->
                CloneArgsWithoutX [S] X1 X2 = EmptyString)
  /\ (forall S, ~ is_flag_for X1 S -> ~ is_flag_for X2 S ->
                CloneArgsWithoutX [S] X1 X2 = S +:+ " ").
Proof.
  split; [done|]. split; [|split].
  - intros A B. unfold CloneArgsWithoutX at 1.
    by rewrite foldl_app, CloneArgsWithoutX_foldl, CloneArgsWithoutX_foldl.
  - intros S HS. unfold CloneArgsWithoutX. cbn [foldl].
    rewrite <- !is_Some_FlagValue in HS.
    destruct HS as [HS|HS].
    + by rewrite (bool_decide_eq_true_2 _ HS).
    + rewrite (bool_decide_eq_true_2 _ HS). by rewrite orb_true_r.
  - intros S H1 H2. unfold CloneArgsWithoutX. cbn [foldl].
    rewrite <- is_Some_FlagValue in H1, H2.
    by rewrite (bool_decide_eq_false_2 _ H1), (bool_decide_eq_false_2 _ H2).
Qed.

(** ** GetDedupTokenFromCmdOutput *)

Lemma strstr_Some (h n : string) (k : nat) :
  strstr h n = Some k ->
  exists pre post, h = pre +:+ n +:+ post /\ String.length pre = k.
Proof.
  revert k. induction h as [|c h IH]; intros k; cbn [strstr].
  - destruct (String.prefix n EmptyString) eqn:Hp; [|done].
    intros [= <-]. apply prefix_app in Hp as [r Hr]. by exists EmptyString, r.
  - destruct (String.prefix n (String c h)) eqn:Hp.
    + intros [= <-]. apply prefix_app in Hp as [r Hr]. by exists EmptyString, r.
    + destruct (strstr h n) as [k'|]; [|done]. intros [= <-].
      destruct (IH k' eq_refl) as (pre & post & -> & <-).
      by exists (String c pre), post.
Qed.

Lemma strstr_occurrence (pre n post : string) :
  exists k, strstr (pre +:+ n +:+ post) n = Some k /\ (k <= String.length pre)%nat.
Proof.
  induction pre as [|c pre IH]; rewrite ?app_nil_l, ?app_String.
  - exists O. split; [|done]. apply strstr_at_start, prefix_app. by exists post.
  - cbn [strstr]. destruct (String.prefix n _).
    + exists O. split; [done | simpl; lia].
    + destruct IH as (k & -> & Hk). exists (S k). split; [done | simpl; lia].
Qed.

Lemma find_char_no_newline (s : string) :
  no_newline s = true -> find_char s newline = None.
Proof.
  induction s as [|c s IH]; [done|]. cbn [no_newline find_char].
  intros [Hc Hs]%andb_true_iff. apply negb_true_iff in Hc as ->.
  by rewrite IH.
Qed.

Lemma find_char_newline (tok post : string) :
  no_newline tok = true ->
  find_char (tok +:+ String newline post) newline = Some (String.length tok).
Proof.
  induction tok as [|c tok IH]; rewrite ?app_nil_l, ?app_String.
  - intros _. cbn [find_char]. by rewrite Ascii.eqb_refl.
  - cbn [no_newline find_char String.length].
    intros [Hc Htok]%andb_true_iff. apply negb_true_iff in Hc as ->.
    by rewrite IH.
Qed.

(** X20: what [GetDedupTokenFromCmdOutput] returns.  Without the marker
    [DEDUP_TOKEN:] in the output the result is empty.  Otherwise look at the
    first occurrence of the marker: if no newline follows it, the result is
    empty; if one does, the result is the marker and what stands between it
    and the first newline after it. *)
Theorem GetDedupTokenFromCmdOutput_spec (S : string) :
  (~ occurs_in_string "DEDUP_TOKEN:" S ->
   GetDedupTokenFromCmdOutput S = EmptyString)
  /\ forall pre rest,
       S = pre +:+ "DEDUP_TOKEN:" +:+ rest ->
       (forall pre' rest', S = pre' +:+ "DEDUP_TOKEN:" +:+ rest' ->
                           (String.length pre <= String.length pre')%nat) ->
       (no_newline rest = true ->
        GetDedupTokenFromCmdOutput S = EmptyString)
       /\ (forall tok post,
             rest = tok +:+ String newline post -> no_newline tok = true ->
             GetDedupTokenFromCmdOutput S = "DEDUP_TOKEN:" +:+ tok).
Proof.
  unfold GetDedupTokenFromCmdOutput. split.
  - intros Hno. destruct (strstr S "DEDUP_TOKEN:") as [k|] eqn:Hk; [|done].
    destruct Hno. apply strstr_Some in Hk as (pre & post & -> & _).
    by exists pre, post.
  - intros pre rest -> Hfirst.
    destruct (strstr_occurrence pre "DEDUP_TOKEN:" rest) as (k & Hk & Hle).
    rewrite Hk.
    destruct (strstr_Some _ _ _ Hk) as (pre' & rest' & Hdec & Hlen).
    specialize (Hfirst pre' rest' Hdec).
    assert (k = String.length pre) as -> by lia. clear Hk Hle Hdec Hlen Hfirst.
    unfold find_char_from. rewrite ptr_add_app.
    assert (Hskip : forall r,
              find_char ("DEDUP_TOKEN:" +:+ r) newline
              = (fun i => (12 + i)%nat) <$> find_char r newline).
    { intros r. rewrite !app_String, app_nil_l. cbn.
      by destruct (find_char r newline). }
    rewrite Hskip. split.
    + intros Hrest. by rewrite (find_char_no_newline rest Hrest).
    + intros tok post -> Htok. rewrite (find_char_newline tok post Htok).
      cbn [fmap option_fmap option_map]. unfold substr.
      rewrite ptr_add_app.
      replace (String.length pre + (12 + String.length tok)
               - String.length pre)%nat
        with (String.length ("DEDUP_TOKEN:" +:+ tok))
        by (rewrite string_app_length; simpl; lia).
      by rewrite <- string_app_assoc, string_take_app.
Qed.

Lemma GetDedupTokenFromCmdOutput_spec_witness :
  GetDedupTokenFromCmdOutput
    ("==1==ERROR" +:+ String newline
       ("DEDUP_TOKEN: foo--bar" +:+ String newline "DEDUP_TOKEN: x"))
  = "DEDUP_TOKEN: foo--bar"%string.
Proof.
  refine (proj2 (proj2 (GetDedupTokenFromCmdOutput_spec _)
                   ("==1==ERROR" +:+ String newline EmptyString)
                   (" foo--bar" +:+ String newline "DEDUP_TOKEN: x") _ _)
            " foo--bar" "DEDUP_TOKEN: x"%string _ _).
  - reflexivity.
  - intros pre' rest' Heq.
    destruct (le_lt_dec 11 (String.length pre')) as [|Hlt]; [done|].
    exfalso. vm_compute in Heq.
    do 11 (destruct pre' as [|? pre']; [discriminate Heq|];
           injection Heq as <- Heq; simpl in Hlt).
    lia.
  - reflexivity.
  - reflexivity.
Defined.

(** ** ReadCorpora *)

Section ReadCorporaProps.

Variable GetSizedFilesFromDir : string -> list SizedFile.
Variable FileSize : string -> Z.

Lemma ReadCorpusDirs_spec (CorpusDirs : list string)
  (SizedFiles : list SizedFile) (out : list Line) :
  Z.of_nat (length (SizedFiles ++ concat (GetSizedFilesFromDir <$> CorpusDirs)))
    < 2 ^ 63 ->
  ReadCorpusDirs GetSizedFilesFromDir CorpusDirs SizedFiles
    (Z.of_nat (length SizedFiles)) out
  = (SizedFiles ++ concat (GetSizedFilesFromDir <$> CorpusDirs),
     out ++ ((fun Dir =>
                Printf "INFO: % 8zd files found in %s\n"
                  [AInt (Z.of_nat (length (GetSizedFilesFromDir Dir)));
                   AStr Dir]) <$> CorpusDirs)).
Proof.
  revert SizedFiles out.
  induction CorpusDirs as [|Dir CorpusDirs IH]; intros SizedFiles out Hfit.
  - cbn. by rewrite !app_nil_r.
  - cbn [ReadCorpusDirs fmap list_fmap concat] in *.
    rewrite app_assoc in Hfit. rewrite IH by done.
    rewrite <- !app_assoc. f_equal. f_equal. cbn [app]. do 4 f_equal.
    rewrite !length_app in *. rewrite to_long_small; lia.
Qed.

Lemma AddSeedFiles_spec (ExtraSeedFiles : list string)
  (SizedFiles : list SizedFile) :
  AddSeedFiles FileSize ExtraSeedFiles SizedFiles
  = SizedFiles
    ++ ((fun File => (File, FileSize File))
          <$> filter (fun File => FileSize File <> 0) ExtraSeedFiles).
Proof.
  revert SizedFiles.
  induction ExtraSeedFiles as [|File ExtraSeedFiles IH]; intros SizedFiles.
  - cbn. by rewrite app_nil_r.
  - cbn [AddSeedFiles]. rewrite IH, filter_cons.
    destruct (Z.eqb_spec (FileSize File) 0) as [Hz|Hnz]; cbn [negb];
      case_decide; try done.
    by rewrite <- app_assoc.
Qed.

(** X21: [ReadCorpora] returns the files of the corpus directories, in
    the order of the directories, followed by the seed files whose size is
    not zero, each with its size; a seed file of size zero is left out
    without a word.  It prints one line for each directory, with the number
    of files found in that directory. *)
Theorem ReadCorpora_spec (CorpusDirs ExtraSeedFiles : list string) :
  Z.of_nat (length (concat (GetSizedFilesFromDir <$> CorpusDirs))) < 2 ^ 63 ->
  ReadCorpora GetSizedFilesFromDir FileSize CorpusDirs ExtraSeedFiles
  = (concat (GetSizedFilesFromDir <$> CorpusDirs)
     ++ ((fun File => (File, FileSize File))
           <$> filter (fun File => FileSize File <> 0) ExtraSeedFiles),
     (fun Dir =>
        Printf "INFO: % 8zd files found in %s\n"
          [AInt (Z.of_nat (length (GetSizedFilesFromDir Dir))); AStr Dir])
       <$> CorpusDirs).
Proof.
  intros Hfit. unfold ReadCorpora.
  change 0 with (Z.of_nat (length (@nil SizedFile))).
  rewrite ReadCorpusDirs_spec by done. cbn [app].
  by rewrite AddSeedFiles_spec.
Qed.

End ReadCorporaProps.

Lemma ReadCorpora_spec_witness :
  (ReadCorpora
     (fun Dir => if String.eqb Dir "a" then [("a/1"%string, 3); ("a/2"%string, 5)]
                 else [])
     (fun File => if String.eqb File "seed" then 7 else 0)
     ["a"; "b"] ["gone"; "seed"]).1
  = [("a/1"%string, 3); ("a/2"%string, 5); ("seed"%string, 7)].
Proof.
  rewrite (ReadCorpora_spec
             (fun Dir => if String.eqb Dir "a"
                         then [("a/1"%string, 3); ("a/2"%string, 5)] else [])
             (fun File => if String.eqb File "seed" then 7 else 0)
             ["a"; "b"] ["gone"; "seed"]).
  - reflexivity.
  - vm_compute. reflexivity.
Defined.

(** ** FuzzerDriver: help, and the choice between one process and many *)

Section FuzzerDriverProps.

Variable FlagDescriptions : list FlagDescription.
Variable stoul : string -> option Z.
Variable Initialize : list string -> list string.
Variable NumberOfCpuCores : Z.
Variable ExecuteCommand : Z -> Z.
Variable CommandLine : Z -> string.

(** The calls that close the standard streams (lines 700-703). *)
Local Abbreviation closes st :=
  ((if negb (Z.land (num (Flags st) "close_fd_mask") 2 =? 0)
    then [CDupAndCloseStderr] else [])
   ++ (if negb (Z.land (num (Flags st) "close_fd_mask") 1 =? 0)
       then [CCloseStdout] else [])).

(** When [LLVMFuzzerInitialize] is absent, [FuzzerDriver] parses [argv]
    itself. *)
Lemma FuzzerDriver_parses (Argv0 : string) (argv' : list string)
  (EF : ExternalFunctions) (sched : list nat) (st0 : DriverState) :
  LLVMFuzzerInitialize EF = None ->
  FuzzerDriver FlagDescriptions stoul Initialize NumberOfCpuCores
    ExecuteCommand CommandLine (Argv0 :: argv') EF sched st0
  = st ← ParseFlags FlagDescriptions stoul (Argv0 :: argv') EF st0;
    if negb (num (Flags st) "help" =? 0) then
      Some {| Path := Leaves (Returns 0); State := st;
              Calls := CPrintf <$> PrintHelp FlagDescriptions Argv0;
              Pool := None |}
    else
      let '(st', calls) :=
        if (0 <? num (Flags st) "jobs") && (num (Flags st) "workers" =? 0)
        then
          let workers :=
            Z.min (Z.quot NumberOfCpuCores 2) (num (Flags st) "jobs") in
          (with_Flags (set_num "workers" workers (Flags st)) st,
           closes st ++
           (if 1 <? workers
            then [CPrintf (Printf "Running %u workers\n" [AInt workers])]
            else []))
        else (st, closes st) in
      if (0 <? num (Flags st') "workers") && (0 <? num (Flags st') "jobs")
      then
        '(r, s) ← RunInMultipleProcesses ExecuteCommand CommandLine
                    (Flags st') (num (Flags st') "workers")
                    (num (Flags st') "jobs") sched;
        Some {| Path := Leaves (Returns r); State := st';
                Calls := calls; Pool := Some s |}
      else
        Some {| Path := GoesOn; State := st'; Calls := calls; Pool := None |}.
Proof.
  intros HEF. unfold FuzzerDriver. rewrite HEF, String.eqb_refl. reflexivity.
Qed.

(** X23: [-jobs] without [-workers].  When [ParseFlags] leaves [help]
    and [workers] zero and [jobs] positive, the number of workers is the
    smaller of half the number of cores and the number of jobs.  On a
    machine with fewer than two cores that is zero: [FuzzerDriver] starts
    no job and goes on to fuzz in this process.  With two cores or more it
    runs the jobs in a pool of that many workers, at least one and no more
    than there are jobs, and returns what the pool returns. *)
Theorem FuzzerDriver_workers (Argv0 : string) (argv' : list string)
  (EF : ExternalFunctions) (sched : list nat) (st0 st : DriverState) :
  LLVMFuzzerInitialize EF = None ->
  ParseFlags FlagDescriptions stoul (Argv0 :: argv') EF st0 = Some st ->
  num (Flags st) "help" = 0 ->
  0 < num (Flags st) "jobs" ->
  num (Flags st) "workers" = 0 ->
  0 <= NumberOfCpuCores ->
  let run := FuzzerDriver FlagDescriptions stoul Initialize NumberOfCpuCores
               ExecuteCommand CommandLine (Argv0 :: argv') EF sched st0 in
  let workers := Z.min (Z.quot NumberOfCpuCores 2) (num (Flags st) "jobs") in
  (NumberOfCpuCores < 2 ->
   exists run', run = Some run' /\ Path run' = GoesOn /\ Pool run' = None
                /\ num (Flags (State run')) "workers" = 0)
  /\ (2 <= NumberOfCpuCores ->
      1 <= workers <= num (Flags st) "jobs"
      /\ run = '(r, s) ← RunInMultipleProcesses ExecuteCommand CommandLine
                            (set_num "workers" workers (Flags st))
                            workers (num (Flags st) "jobs") sched;
                Some {| Path := Leaves (Returns r);
                        State := with_Flags
                                   (set_num "workers" workers (Flags st)) st;
                        Calls := closes st ++
                          (if 1 <? workers
                           then [CPrintf (Printf "Running %u workers\n"
                                            [AInt workers])]
                           else []);
                        Pool := Some s |}).
Proof.
  intros HEF Hrun Hhelp Hjobs Hworkers Hcores run workers. subst run.
  rewrite FuzzerDriver_parses by done. rewrite Hrun. cbn [mbind option_bind].
  rewrite Hhelp, Hworkers. cbn [Z.eqb negb].
  destruct (Z.ltb_spec 0 (num (Flags st) "jobs")) as [_|]; [|lia].
  cbn [andb]. fold workers. cbn [with_Flags Flags].
  rewrite num_set_num, num_set_num_ne by done.
  destruct (Z.ltb_spec 0 (num (Flags st) "jobs")) as [_|]; [|lia].
  split.
  - intros Hfew.
    assert (Z.quot NumberOfCpuCores 2 = 0) as Hq.
    { apply Z.quot_small. lia. }
    assert (workers = 0) as -> by (unfold workers; lia).
    cbn [Z.ltb Z.compare andb]. eexists. split; [reflexivity|].
    cbn [Path Pool State Flags with_Flags]. by rewrite num_set_num.
  - intros Hmany.
    assert (1 <= Z.quot NumberOfCpuCores 2).
    { apply Z.quot_le_lower_bound; lia. }
    assert (1 <= workers <= num (Flags st) "jobs") by (unfold workers; lia).
    split; [done|].
    destruct (Z.ltb_spec 0 workers) as [_|]; [|lia]. cbn [andb].
    reflexivity.
Qed.

(** X24: the jobs decide the exit status.  When [FuzzerDriver] has run the
    pool, and the counter cannot wrap, it returns 1 if one of the jobs [0],
    ..., [jobs - 1] ended with an exit code that is not zero, and 0 if all
    of them ended with exit code zero. *)
Theorem FuzzerDriver_jobs_result (argv : list string) (EF : ExternalFunctions)
  (sched : list nat) (st0 : DriverState) (run : DriverRun) (s : PoolState) :
  FuzzerDriver FlagDescriptions stoul Initialize NumberOfCpuCores
    ExecuteCommand CommandLine argv EF sched st0 = Some run ->
  Pool run = Some s ->
  num (Flags (State run)) "jobs" + num (Flags (State run)) "workers"
    <= 2 ^ 32 ->
  (Path run = Leaves (Returns 1)
   /\ exists C, 0 <= C < num (Flags (State run)) "jobs"
                /\ ExecuteCommand C <> 0)
  \/ (Path run = Leaves (Returns 0)
      /\ forall C, 0 <= C < num (Flags (State run)) "jobs" ->
                   ExecuteCommand C = 0).
Proof.
  unfold FuzzerDriver. intros Hrun Hpool.
  destruct argv as [|Argv0 argv']; [by injection Hrun as <-|].
  destruct (match LLVMFuzzerInitialize EF with
            | Some _ => Initialize (Argv0 :: argv')
            | None => Argv0 :: argv'
            end) as [|ProgName Args']; [by injection Hrun as <-|].
  destruct (negb _); [by injection Hrun as <-|].
  destruct (ParseFlags _ _ _ _ _) as [st|]; [|done]. cbn [mbind option_bind] in Hrun.
  destruct (negb (num (Flags st) "help" =? 0)); [by injection Hrun as <-|].
  destruct (if (0 <? num (Flags st) "jobs") && (num (Flags st) "workers" =? 0)
            then _ else _) as [st' calls].
  destruct (Z.ltb_spec 0 (num (Flags st') "workers")) as [HW|];
    [|by injection Hrun as <-].
  destruct (Z.ltb_spec 0 (num (Flags st') "jobs")) as [HJ|];
    [|by injection Hrun as <-].
  cbn [andb] in Hrun. unfold RunInMultipleProcesses in Hrun.
  destruct (all_joined _) eqn:Hall; [|done].
  cbn [mbind option_bind] in Hrun. injection Hrun as <-.
  cbn [Path State Pool] in *. intros Hnowrap.
  pose proof (pool_errors ExecuteCommand CommandLine (Flags st')
                (num (Flags st') "workers") (num (Flags st') "jobs")
                ltac:(lia) Hnowrap sched HW Hall) as Herr.
  destruct (HasErrors _).
  - left. split; [done|]. by apply Herr.
  - right. split; [done|]. intros C HC.
    destruct (Z.eq_dec (ExecuteCommand C) 0) as [|Hnz]; [done|].
    assert (false = true); [|done]. apply Herr. by exists C.
Qed.

Hypothesis Hwf : well_formed_registry FlagDescriptions.
Hypothesis Hplain :
  Forall (fun D => plain_name (Name D) = true) FlagDescriptions.

(** X22: [-help] wins.  When the last argument is [-help=v], [v] not read
    as zero, and [ParseFlags] gets to it, [FuzzerDriver] prints the help
    and returns 0: whatever the other flags say, it starts no job, closes
    no stream and does not go on to fuzz. *)
Theorem FuzzerDriver_help (Argv0 : string) (pre : list string) (d : Z)
  (desc v : string) (EF : ExternalFunctions) (sched : list nat)
  (st0 st : DriverState) :
  FUZZER_FLAG_INT "help" d desc ∈ FlagDescriptions ->
  to_int (MyStol v) <> 0 ->
  LLVMFuzzerInitialize EF = None ->
  ParseFlags FlagDescriptions stoul (Argv0 :: pre ++ [flag_token "help" v])
    EF st0 = Some st ->
  num (Flags st) "ignore_remaining_args" = 0 ->
  FuzzerDriver FlagDescriptions stoul Initialize NumberOfCpuCores
    ExecuteCommand CommandLine (Argv0 :: pre ++ [flag_token "help" v])
    EF sched st0
  = Some {| Path := Leaves (Returns 0); State := st;
            Calls := CPrintf <$> PrintHelp FlagDescriptions Argv0;
            Pool := None |}.
Proof.
  intros HD Hv HEF Hrun Hz. rewrite FuzzerDriver_parses by done.
  rewrite Hrun. cbn [mbind option_bind].
  pose proof Hrun as (st1 & Hargs & _)%ParseFlags_start. cbn [drop] in Hargs.
  destruct (ParseArgs_last _ _ _ _ _ _ Hargs Hz) as (s & r & s' & Hone & HF).
  destruct (ParseOneFlag_finds FlagDescriptions stoul Hwf Hplain _ v s s' r
              HD Hone) as [_ (Hint & _)].
  cbn [Name FUZZER_FLAG_INT IntFlag] in Hint.
  rewrite HF, (Hint eq_refl).
  destruct (Z.eqb_spec (to_int (MyStol v)) 0); done.
Qed.

End FuzzerDriverProps.

Lemma driver_registry_well_formed : well_formed_registry driver_registry.
Proof.
  split.
  - unfold driver_registry, example_registry, from_macro. cbn [app].
    repeat (apply Forall_cons_2; [cbn; auto|]); [..|apply Forall_nil_2].
    + right; right; left. by exists 0.
    + right; right; left. by exists 0.
  - apply (bool_decide_unpack _). vm_compute. reflexivity.
Qed.

Lemma driver_registry_plain :
  Forall (fun D => plain_name (Name D) = true) driver_registry.
Proof.
  unfold driver_registry, example_registry. cbn [app].
  repeat (apply Forall_cons_2; [reflexivity|]). apply Forall_nil_2.
Qed.

Lemma FuzzerDriver_help_witness :
  exists st,
    FuzzerDriver driver_registry example_stoul (fun argv => argv) 8
      (fun _ => 0) (fun _ => "fuzz"%string)
      ["fuzz"; "-jobs=3"; "-close_fd_mask=3"; "-help=1"]
      {| LLVMFuzzerInitialize := None; LLVMFuzzerCustomMutator := None |}
      [] initial_state
    = Some {| Path := Leaves (Returns 0); State := st;
              Calls := CPrintf <$> PrintHelp driver_registry "fuzz";
              Pool := None |}.
Proof.
  destruct (ParseFlags driver_registry example_stoul
              ["fuzz"; "-jobs=3"; "-close_fd_mask=3"; "-help=1"]
              {| LLVMFuzzerInitialize := None; LLVMFuzzerCustomMutator := None |}
              initial_state)
    as [st|] eqn:Hrun; [|vm_compute in Hrun; discriminate Hrun].
  exists st.
  apply (FuzzerDriver_help driver_registry example_stoul (fun argv => argv) 8
           (fun _ => 0) (fun _ => "fuzz"%string)
           driver_registry_well_formed driver_registry_plain
           "fuzz" ["-jobs=3"; "-close_fd_mask=3"] 0 "Print help." "1").
  - unfold driver_registry, example_registry. rewrite !elem_of_app, !elem_of_cons.
    auto 10.
  - vm_compute. discriminate.
  - reflexivity.
  - exact Hrun.
  - vm_compute in Hrun. injection Hrun as <-. reflexivity.
Defined.

Lemma FuzzerDriver_workers_witness :
  exists run',
    FuzzerDriver driver_registry example_stoul (fun argv => argv) 1
      (fun _ => 0) (fun _ => "fuzz"%string) ["fuzz"; "-jobs=3"]
      {| LLVMFuzzerInitialize := None; LLVMFuzzerCustomMutator := None |}
      [] initial_state = Some run'
    /\ Path run' = GoesOn /\ Pool run' = None
    /\ num (Flags (State run')) "workers" = 0.
Proof.
  destruct (ParseFlags driver_registry example_stoul ["fuzz"; "-jobs=3"]
              {| LLVMFuzzerInitialize := None; LLVMFuzzerCustomMutator := None |}
              initial_state)
    as [st|] eqn:Hrun; [|vm_compute in Hrun; discriminate Hrun].
  refine (proj1 (FuzzerDriver_workers driver_registry example_stoul
                   (fun argv => argv) 1 (fun _ => 0) (fun _ => "fuzz"%string)
                   "fuzz" ["-jobs=3"] _ [] initial_state st _ Hrun _ _ _ _) _).
  - reflexivity.
  - vm_compute in Hrun. injection Hrun as <-. reflexivity.
  - vm_compute in Hrun. injection Hrun as <-. reflexivity.
  - vm_compute in Hrun. injection Hrun as <-. reflexivity.
  - lia.
  - lia.
Defined.

Lemma FuzzerDriver_jobs_result_witness :
  exists run,
    FuzzerDriver driver_registry example_stoul (fun argv => argv) 4
      (fun C => if C =? 1 then 7 else 0) (fun _ => "fuzz"%string)
      ["fuzz"; "-jobs=3"]
      {| LLVMFuzzerInitialize := None; LLVMFuzzerCustomMutator := None |}
      [0; 1; 1; 0; 0; 1]%nat initial_state = Some run
    /\ Path run = Leaves (Returns 1).
Proof.
  destruct (FuzzerDriver driver_registry example_stoul (fun argv => argv) 4
              (fun C => if C =? 1 then 7 else 0) (fun _ => "fuzz"%string)
              ["fuzz"; "-jobs=3"]
              {| LLVMFuzzerInitialize := None; LLVMFuzzerCustomMutator := None |}
              [0; 1; 1; 0; 0; 1]%nat initial_state)
    as [run|] eqn:Hrun; [|vm_compute in Hrun; discriminate Hrun].
  exists run. split; [reflexivity|].
  destruct (Pool run) as [s|] eqn:Hpool;
    [|vm_compute in Hrun; injection Hrun as <-; discriminate Hpool].
  destruct (FuzzerDriver_jobs_result driver_registry example_stoul
              (fun argv => argv) 4 (fun C => if C =? 1 then 7 else 0)
              (fun _ => "fuzz"%string) _ _ _ _ run s Hrun Hpool)
    as [[Hpath _]|[_ Hall]].
  - vm_compute in Hrun. injection Hrun as <-. vm_compute. discriminate.
  - exact Hpath.
  - specialize (Hall 1). vm_compute in Hrun. injection Hrun as <-.
    exfalso. cbn [State Flags] in Hall.
    assert (7 = 0) as H70; [|discriminate H70].
    apply Hall. vm_compute. split; [discriminate | reflexivity].
Defined.

(** ** The flag parser: arguments that name no flag *)

Section ParserUnknown.

Variable FlagDescriptions : list FlagDescription.
Variable stoul : string -> option Z.

Local Abbreviation agree1 r1 r2 :=
  (match r1, r2 with
   | Some (p1, s1), Some (p2, s2) =>
       p1 = p2 /\ same_flags_and_inputs s1 s2
   | None, None => True
   | _, _ => False
   end).

Lemma log_flag_same (l : Line) (s1 s2 : DriverState) :
  same_flags_and_inputs s1 s2 ->
  same_flags_and_inputs (log_flag l s1) (log_flag l s2).
Proof.
  intros [HF HI]. split; by rewrite ?log_flag_Flags, ?log_flag_Inputs.
Qed.

Lemma FindFlag_same (Param : string) (Fs : list FlagDescription)
  (s1 s2 : DriverState) :
  same_flags_and_inputs s1 s2 ->
  agree1 (FindFlag stoul Param Fs s1) (FindFlag stoul Param Fs s2).
Proof.
  intros [HF HI]. induction Fs as [|D Fs IH]; cbn [FindFlag].
  - done.
  - destruct (FlagValue Param (Name D)) as [Str|]; [|exact IH].
    destruct (IntFlag D), (UIntFlag D), (StrFlag D);
      try destruct (stoul Str); cbn; try done;
      (split; [done|]);
      first [ apply log_flag_same; split; cbn; by rewrite ?HF, ?HI
            | split; cbn; by rewrite ?HF, ?HI ].
Qed.

Lemma ParseOneFlag_same (Param : string) (s1 s2 : DriverState) :
  same_flags_and_inputs s1 s2 ->
  agree1 (ParseOneFlag FlagDescriptions stoul Param s1)
         (ParseOneFlag FlagDescriptions stoul Param s2).
Proof.
  intros Hs. unfold ParseOneFlag.
  destruct (negb _); [done|].
  destruct (Ascii.eqb _ _); [|by apply FindFlag_same].
  destruct Hs as [HF HI]. split; [done|].
  split; rewrite ?DidYouMean_Flags, ?DidYouMean_Inputs;
    by destruct (negb (PrintedWarning s1)), (negb (PrintedWarning s2)).
Qed.

Lemma ParseArgs_same (Args : list string) (s1 s2 : DriverState) :
  same_flags_and_inputs s1 s2 ->
  agree (ParseArgs FlagDescriptions stoul Args s1)
        (ParseArgs FlagDescriptions stoul Args s2).
Proof.
  revert s1 s2. induction Args as [|a Args IH]; intros s1 s2 Hs; [done|].
  cbn [ParseArgs]. pose proof (ParseOneFlag_same a s1 s2 Hs) as Hone.
  destruct (ParseOneFlag _ _ a s1) as [[p1 t1]|],
           (ParseOneFlag _ _ a s2) as [[p2 t2]|]; try done.
  destruct Hone as [<- [HF HI]]. cbn. destruct p1.
  - rewrite HF. destruct (negb _); [done|]. by apply IH.
  - apply IH. split; cbn; by rewrite ?HF, ?HI.
Qed.

(** An argument that starts with a dash and is [-Name=v] for no registered
    [Name] is taken for a flag and changes neither [Flags] nor [Inputs]. *)
Lemma ParseOneFlag_unknown (a : string) (st : DriverState) :
  char_at a 0 = "-"%char ->
  (forall D v, D ∈ FlagDescriptions -> a <> flag_token (Name D) v) ->
  exists st', ParseOneFlag FlagDescriptions stoul a st = Some (true, st')
              /\ same_flags_and_inputs st' st.
Proof.
  intros Hdash Hno. unfold ParseOneFlag. rewrite Hdash. cbn [Ascii.eqb Bool.eqb negb].
  destruct (Ascii.eqb _ _).
  - eexists. split; [reflexivity|].
    split; rewrite ?DidYouMean_Flags, ?DidYouMean_Inputs;
      by destruct (negb (PrintedWarning st)).
  - revert Hno. generalize FlagDescriptions. intros Fs Hno.
    induction Fs as [|D Fs IH]; cbn [FindFlag].
    + eexists. split; [reflexivity | done].
    + destruct (FlagValue a (Name D)) as [Str|] eqn:HV.
      * apply FlagValue_Some in HV. destruct (Hno D Str); [by left | done].
      * apply IH. intros D' v HD'. apply Hno. by right.
Qed.

Lemma ParseOneFlag_not_parsed (a : string) (st st' : DriverState) :
  ParseOneFlag FlagDescriptions stoul a st = Some (false, st') -> st' = st.
Proof.
  unfold ParseOneFlag. destruct (negb _); [by intros [= <-]|].
  destruct (Ascii.eqb _ _); [done|]. by intros [[=] _]%FindFlag_Inputs.
Qed.

Lemma ParseArgs_skip (pre : list string) (a : string) (post : list string)
  (st : DriverState) :
  char_at a 0 = "-"%char ->
  (forall D v, D ∈ FlagDescriptions -> a <> flag_token (Name D) v) ->
  num (Flags st) "ignore_remaining_args" = 0 ->
  agree (ParseArgs FlagDescriptions stoul (pre ++ a :: post) st)
        (ParseArgs FlagDescriptions stoul (pre ++ post) st).
Proof.
  intros Hdash Hno. revert st.
  induction pre as [|x pre IH]; intros st Hz; cbn [app].
  - cbn [ParseArgs].
    destruct (ParseOneFlag_unknown a st Hdash Hno) as (st' & -> & Hs).
    cbn. destruct Hs as [HF HI]. rewrite HF, Hz. cbn [Z.eqb negb].
    by apply ParseArgs_same.
  - cbn [ParseArgs].
    destruct (ParseOneFlag _ _ x st) as [[parsed st1]|] eqn:H1; [|done].
    cbn. destruct parsed.
    + destruct (Z.eqb_spec (num (Flags st1) "ignore_remaining_args") 0);
        cbn [negb]; [by apply IH | done].
    + apply ParseOneFlag_not_parsed in H1 as ->. by apply IH.
Qed.

(** X25: an argument that names no flag changes nothing but the output.
    While [ignore_remaining_args] is zero when the loop over the arguments
    starts, [ParseFlags] ends with the same [Flags] and the same [Inputs]
    with and without an argument that starts with a dash and is [-Name=v]
    for no registered [Name] (a flag that is not known, a flag without
    [=], an argument that starts with two dashes). *)
Theorem ParseFlags_unknown_ignored (Argv0 : string) (pre : list string)
  (a : string) (post : list string) (EF : ExternalFunctions)
  (st0 : DriverState) :
  char_at a 0 = "-"%char ->
  (forall D v, D ∈ FlagDescriptions -> a <> flag_token (Name D) v) ->
  num (InitFlags FlagDescriptions (Flags st0)) "ignore_remaining_args" = 0 ->
  agree (ParseFlags FlagDescriptions stoul (Argv0 :: pre ++ a :: post) EF st0)
        (ParseFlags FlagDescriptions stoul (Argv0 :: pre ++ post) EF st0).
Proof.
  intros Hdash Hno Hz. unfold ParseFlags. cbn [drop].
  apply ParseArgs_skip; try done.
  destruct (LLVMFuzzerCustomMutator EF); cbn [with_Inputs with_Flags print Flags];
    [by rewrite num_set_num_ne | done].
Qed.

End ParserUnknown.

Lemma ParseFlags_unknown_ignored_witness :
  agree
    (ParseFlags example_registry example_stoul
       ["fuzz"; "-runs=2"; "--jobs=4"; "corpus"; "-jobs=3"]
       {| LLVMFuzzerInitialize := None; LLVMFuzzerCustomMutator := None |}
       initial_state)
    (ParseFlags example_registry example_stoul
       ["fuzz"; "-runs=2"; "corpus"; "-jobs=3"]
       {| LLVMFuzzerInitialize := None; LLVMFuzzerCustomMutator := None |}
       initial_state).
Proof.
  apply (ParseFlags_unknown_ignored example_registry example_stoul
           "fuzz" ["-runs=2"] "--jobs=4" ["corpus"; "-jobs=3"]).
  - reflexivity.
  - intros D v HD Heq.
    destruct (flag_token_single_dash (Name D) v) as [_ H1].
    + pose proof example_registry_plain as Hp.
      rewrite Forall_forall in Hp. by apply Hp.
    + apply H1. by rewrite <- Heq.
  - reflexivity.
Defined.

(** ** The dictionary analyzer: the masked copy of a unit *)

Lemma lookup_mask_range (Data : Unit) (StartPos EndPos i : nat) :
  (StartPos <= EndPos <= length Data)%nat ->
  mask_range Data StartPos EndPos !! i
  = if bool_decide (StartPos <= i < EndPos)%nat
    then (fun b => Z.lxor b 255) <$> Data !! i
    else Data !! i.
Proof.
  intros [Hse Hel]. unfold mask_range.
  destruct (decide (i < StartPos)%nat) as [Hlt|Hge].
  - rewrite lookup_app_l by (rewrite length_take; lia).
    rewrite lookup_take_lt by done.
    rewrite bool_decide_eq_false_2 by lia. done.
  - rewrite lookup_app_r by (rewrite length_take; lia).
    rewrite length_take, Nat.min_l by lia.
    destruct (decide (i < EndPos)%nat) as [Hlt|Hge'].
    + rewrite lookup_app_l
        by (rewrite length_fmap, length_take, length_drop; lia).
      rewrite list_lookup_fmap, lookup_take_lt, lookup_drop by lia.
      rewrite bool_decide_eq_true_2 by lia.
      by replace (StartPos + (i - StartPos))%nat with i by lia.
    + rewrite lookup_app_r
        by (rewrite length_fmap, length_take, length_drop; lia).
      rewrite length_fmap, length_take, length_drop, lookup_drop.
      rewrite bool_decide_eq_false_2 by lia.
      f_equal. lia.
Qed.

Lemma lxor_255_involutive (b : Z) : Z.lxor (Z.lxor b 255) 255 = b.
Proof. by rewrite Z.lxor_assoc, Z.lxor_nilpotent, Z.lxor_0_r. Qed.

Lemma lxor_255_neq (b : Z) : Z.lxor b 255 <> b.
Proof.
  intros Heq. apply (f_equal (Z.lxor b)) in Heq.
  rewrite <- Z.lxor_assoc, Z.lxor_nilpotent in Heq. discriminate Heq.
Qed.

(** The masking loop from [StartPos], which is the end of the buffer or
    the start of an occurrence that fits in. *)
Lemma MaskOccurrences_masks (Token : Unit) (fuel : nat) (Data : Unit)
  (StartPos : nat) :
  Token <> [] ->
  (StartPos = length Data
   \/ (StartPos < length Data /\ StartPos + length Token <= length Data))%nat ->
  (length Data - StartPos < fuel)%nat ->
  exists Data',
    MaskOccurrences fuel Token Data StartPos = Some Data'
    /\ length Data' = length Data
    /\ (forall i, (i < StartPos)%nat -> Data' !! i = Data !! i)
    /\ (forall i, (StartPos <= i < StartPos + length Token)%nat ->
                  Data' !! i = (fun b => Z.lxor b 255) <$> Data !! i)
    /\ (forall i b, Data !! i = Some b ->
                    Data' !! i = Some b \/ Data' !! i = Some (Z.lxor b 255)).
Proof.
  intros Hne.
  assert (0 < length Token)%nat by (destruct Token; simpl; [done | lia]).
  revert Data StartPos.
  induction fuel as [|fuel IH]; intros Data StartPos Hpos Hfuel; [lia|].
  cbn [MaskOccurrences].
  destruct (Nat.eqb_spec StartPos (length Data)) as [->|Hneq].
  - exists Data. repeat split; try done.
    + intros i Hi. rewrite !lookup_ge_None_2 by lia. done.
    + intros i b Hb. by left.
  - destruct Hpos as [|[Hlt Hend]]; [done|].
    set (EndPos := (StartPos + length Token)%nat) in *.
    set (Data1 := mask_range Data StartPos EndPos).
    assert (Hlen : length Data1 = length Data)
      by (apply length_mask_range; lia).
    pose proof (search_le (drop EndPos Data1) Token) as Hle.
    pose proof (search_found (drop EndPos Data1) Token) as Hfound.
    rewrite length_drop, Hlen in Hle, Hfound.
    destruct (IH Data1 (search_from Data1 EndPos Token))
      as (Data' & -> & Hlen' & Hbefore & _ & Hrel);
      [unfold search_from; rewrite Hlen; lia
      |unfold search_from; rewrite Hlen; lia|].
    assert (Hnext : (EndPos <= search_from Data1 EndPos Token)%nat)
      by (unfold search_from; lia).
    assert (Hmask : forall i, Data1 !! i
              = if bool_decide (StartPos <= i < EndPos)%nat
                then (fun b => Z.lxor b 255) <$> Data !! i else Data !! i).
    { intros i. apply lookup_mask_range. lia. }
    exists Data'. split; [done|]. split; [lia|]. split; [|split].
    + intros i Hi. rewrite Hbefore by lia. rewrite Hmask.
      by rewrite bool_decide_eq_false_2 by lia.
    + intros i Hi. rewrite Hbefore by lia. rewrite Hmask.
      by rewrite bool_decide_eq_true_2 by lia.
    + intros i b Hb. specialize (Hmask i). rewrite Hb in Hmask.
      case_bool_decide; cbn in Hmask.
      * destruct (Hrel i _ Hmask) as [->| ->]; [by right|].
        left. by rewrite lxor_255_involutive.
      * destruct (Hrel i _ Hmask) as [->| ->]; [by left | by right].
Qed.

(** X26: the masked copy of a unit.  When a unit holds a token that is not
    empty, the masking loop of [AnalyzeDictionary] ends, and the copy it
    leaves has the length of the unit, agrees with the unit before the
    first occurrence of the token, has every byte of that occurrence
    complemented, and holds at every index the byte of the unit or its
    complement; so it differs from the unit. *)
Theorem MaskOccurrences_copy (Token Data : Unit) :
  Token <> [] -> search Data Token <> length Data ->
  exists Data',
    MaskOccurrences (S (length Data)) Token Data (search Data Token)
      = Some Data'
    /\ length Data' = length Data
    /\ Data' <> Data
    /\ (forall i, (i < search Data Token)%nat -> Data' !! i = Data !! i)
    /\ (forall i, (search Data Token <= i
                   < search Data Token + length Token)%nat ->
                  Data' !! i = (fun b => Z.lxor b 255) <$> Data !! i)
    /\ (forall i b, Data !! i = Some b ->
                    Data' !! i = Some b \/ Data' !! i = Some (Z.lxor b 255)).
Proof.
  intros Hne Hocc.
  pose proof (search_le Data Token). pose proof (search_found Data Token).
  destruct (MaskOccurrences_masks Token (S (length Data)) Data
              (search Data Token) Hne)
    as (Data' & Hrun & Hlen & Hbefore & Hmasked & Hrel); [lia | lia|].
  exists Data'. repeat split; try done.
  intros ->.
  assert (0 < length Token)%nat by (destruct Token; simpl; [done | lia]).
  destruct (lookup_lt_is_Some_2 Data (search Data Token)) as [b Hb]; [lia|].
  specialize (Hmasked (search Data Token) ltac:(lia)).
  rewrite Hb in Hmasked. injection Hmasked as Hmasked.
  by apply (lxor_255_neq b).
Qed.

Lemma MaskOccurrences_copy_witness :
  exists Data',
    MaskOccurrences 7 [1; 2] [0; 1; 2; 3; 1; 2] 1 = Some Data'
    /\ length Data' = 6%nat.
Proof.
  destruct (MaskOccurrences_copy [1; 2] [0; 1; 2; 3; 1; 2])
    as (Data' & Hrun & Hlen & _); [discriminate | discriminate |].
  exists Data'. split; [exact Hrun | exact Hlen].
Defined.

(** ** The worker pool: the log files *)

Lemma string_app_inv_tail (a b c : string) : a +:+ c = b +:+ c -> a = b.
Proof.
  revert b. induction a as [|x a IH]; intros [|y b];
    rewrite ?app_nil_l, ?app_String.
  - done.
  - intros Heq. apply (f_equal String.length) in Heq.
    simpl in Heq. rewrite string_app_length in Heq. lia.
  - intros Heq. apply (f_equal String.length) in Heq.
    simpl in Heq. rewrite string_app_length in Heq. lia.
  - intros [= -> Heq]. f_equal. by apply IH.
Qed.

Lemma job_log_inj (C C' : Z) : job_log C = job_log C' -> C = C'.
Proof.
  unfold job_log. intros Heq%string_app_inv_head%string_app_inv_tail.
  by apply (inj pretty).
Qed.

Section WorkerPoolLogs.

Variable ExecuteCommand : Z -> Z.
Variable CommandLine : Z -> string.
Variable Flags : FlagsStruct.
Variable NumWorkers NumJobs : Z.

Lemma copied_logs_step (s : PoolState) (t : nat) :
  copied_logs (PoolOut s) = job_log <$> (Claimed s).*2 ->
  copied_logs (PoolOut (sched_step ExecuteCommand CommandLine Flags NumJobs s t))
  = job_log <$> (Claimed (sched_step ExecuteCommand CommandLine Flags
                            NumJobs s t)).*2.
Proof.
  intros Hinv. unfold sched_step.
  destruct (Threads s !! t) as [[]|]; try done.
  unfold WorkerRound. destruct (NumJobs <=? Counter s); [done|].
  cbn [PoolOut Claimed]. unfold copied_logs in *.
  rewrite !omap_app, Hinv, !fmap_app.
  destruct (negb _); reflexivity.
Qed.

Lemma copied_logs_run (sched : list nat) (s : PoolState) :
  copied_logs (PoolOut s) = job_log <$> (Claimed s).*2 ->
  copied_logs (PoolOut (run_schedule ExecuteCommand CommandLine Flags NumJobs
                          sched s))
  = job_log <$> (Claimed (run_schedule ExecuteCommand CommandLine Flags
                            NumJobs sched s)).*2.
Proof.
  revert s. induction sched as [|t sched IH]; intros s Hinv; [done|].
  apply IH. by apply copied_logs_step.
Qed.

Hypothesis Hjobs : 0 <= NumJobs.
Hypothesis Hnowrap : NumJobs + NumWorkers <= 2 ^ 32.

(** X27: every job has a log file of its own, copied once.  While the
    counter cannot wrap, under every interleaving after which the joins
    return, the files copied to the standard error stream are the logs
    [fuzz-0.log], ..., [fuzz-(NumJobs-1).log], each of them once, and no two
    of them are the same file. *)
Theorem job_logs_copied_once (sched : list nat) (r : Z) (s : PoolState) :
  0 < NumWorkers ->
  RunInMultipleProcesses ExecuteCommand CommandLine Flags
    NumWorkers NumJobs sched = Some (r, s) ->
  copied_logs (PoolOut s) ≡ₚ job_log <$> seqZ 0 NumJobs
  /\ NoDup (copied_logs (PoolOut s)).
Proof.
  intros Hpos. unfold RunInMultipleProcesses.
  destruct (all_joined _) eqn:Hall; [|done]. intros [= _ <-].
  destruct (pool_inv_run ExecuteCommand CommandLine Flags NumWorkers NumJobs
              Hjobs Hnowrap sched _
              (pool_inv_start NumWorkers NumJobs Hjobs)) as (Hids & _ & Hlen & Hcnt).
  apply all_joined_left_count in Hall. rewrite Hall, Hlen in Hcnt.
  destruct (Z.to_nat NumWorkers) eqn:E; [lia|].
  destruct Hcnt as [Hm _]. rewrite Hm in Hids.
  rewrite copied_logs_run by done. rewrite Hids. split; [done|].
  apply NoDup_fmap_2; [|apply NoDup_seqZ].
  intros C C'. apply job_log_inj.
Qed.

End WorkerPoolLogs.

Lemma job_logs_copied_once_witness :
  copied_logs
    (PoolOut (run_schedule (fun _ => 0) (fun _ => "fuzz"%string)
                (Flags initial_state) 3 [0; 1; 1; 0; 0; 1]%nat (pool_start 2)))
  ≡ₚ job_log <$> seqZ 0 3.
Proof.
  refine (proj1 (job_logs_copied_once (fun _ => 0) (fun _ => "fuzz"%string)
                   (Flags initial_state) 2 3 _ _
                   [0; 1; 1; 0; 0; 1]%nat 0 _ _ _)); [lia | lia | lia | reflexivity].
Defined.

(** ** The flag parser: when std::stoul throws, and the hint for two dashes *)

Section ParserThrows.

Variable FlagDescriptions : list FlagDescription.
Variable stoul : string -> option Z.

Hypothesis Hwf : well_formed_registry FlagDescriptions.

Lemma FindFlag_returns (Param : string) (Fs : list FlagDescription)
  (st : DriverState) :
  Forall from_macro Fs ->
  (forall D v, D ∈ Fs -> UIntFlag D = Some (Name D) ->
               Param = flag_token (Name D) v -> is_Some (stoul v)) ->
  is_Some (FindFlag stoul Param Fs st).
Proof.
  intros Hall. induction Hall as [|D Fs HD _ IH]; intros Hok; cbn [FindFlag];
    [done|].
  destruct (FlagValue Param (Name D)) as [Str|] eqn:HV.
  - apply FlagValue_Some in HV.
    destruct (from_macro_cases D HD)
      as [(HI & HU & HS)|[(HI & HU & HS)|[(HI & HU & HS)|(HI & HU & HS)]]];
      rewrite HI, ?HU, ?HS; try done.
    destruct (Hok D Str) as [n ->]; [by left | done | done | done].
  - apply IH. intros D' v HD'. apply Hok. by right.
Qed.

Lemma ParseArgs_returns (Args : list string) (st : DriverState) :
  (forall D v, D ∈ FlagDescriptions -> UIntFlag D = Some (Name D) ->
               flag_token (Name D) v ∈ Args -> is_Some (stoul v)) ->
  is_Some (ParseArgs FlagDescriptions stoul Args st).
Proof.
  revert st. induction Args as [|a Args IH]; intros st Hok; [done|].
  cbn [ParseArgs].
  assert (Hone : is_Some (ParseOneFlag FlagDescriptions stoul a st)).
  { unfold ParseOneFlag. destruct (negb _); [done|].
    destruct (Ascii.eqb _ _); [done|].
    apply FindFlag_returns; [apply Hwf|].
    intros D v HD HU ->. apply (Hok D v HD HU). by left. }
  destruct Hone as [[parsed st1] ->]. cbn.
  assert (Hok' : forall D v, D ∈ FlagDescriptions ->
                   UIntFlag D = Some (Name D) ->
                   flag_token (Name D) v ∈ Args -> is_Some (stoul v)).
  { intros D v HD HU Hin. apply (Hok D v HD HU). by right. }
  destruct parsed; [destruct (negb _); [done|]|]; by apply IH.
Qed.

(** While [ignore_remaining_args] stays zero the loop over the arguments
    does not leave early. *)
Lemma ParseArgs_app (pre rest : list string) (st st1 : DriverState) :
  ParseArgs FlagDescriptions stoul pre st = Some st1 ->
  num (Flags st1) "ignore_remaining_args" = 0 ->
  ParseArgs FlagDescriptions stoul (pre ++ rest) st
  = ParseArgs FlagDescriptions stoul rest st1.
Proof.
  revert st. induction pre as [|a pre IH]; intros st Hrun Hz; cbn [app].
  - by injection Hrun as <-.
  - cbn [ParseArgs] in *.
    destruct (ParseOneFlag _ _ a st) as [[parsed s1]|]; [|done]. cbn in *.
    destruct parsed.
    + destruct (Z.eqb_spec (num (Flags s1) "ignore_remaining_args") 0);
        cbn [negb] in *; [by apply IH|].
      injection Hrun as <-. done.
    + by apply IH.
Qed.

Hypothesis Hplain :
  Forall (fun D => plain_name (Name D) = true) FlagDescriptions.

(** X28: [ParseFlags] fails in one way only.  It returns when [std::stoul]
    accepts the value of every argument that names an [unsigned] flag; and
    when the arguments before [-Name=v] are parsed to their end with
    [ignore_remaining_args] zero, [Name] is an [unsigned] flag and
    [std::stoul] throws on [v], the exception leaves [ParseFlags], whatever
    follows. *)
Theorem ParseFlags_throws (Argv0 : string) (EF : ExternalFunctions)
  (st0 : DriverState) :
  (forall Args,
     (forall D v, D ∈ FlagDescriptions -> UIntFlag D = Some (Name D) ->
                  flag_token (Name D) v ∈ Args -> is_Some (stoul v)) ->
     is_Some (ParseFlags FlagDescriptions stoul (Argv0 :: Args) EF st0))
  /\ (forall pre post D v st,
        ParseFlags FlagDescriptions stoul (Argv0 :: pre) EF st0 = Some st ->
        num (Flags st) "ignore_remaining_args" = 0 ->
        D ∈ FlagDescriptions -> UIntFlag D = Some (Name D) ->
        stoul v = None ->
        ParseFlags FlagDescriptions stoul
          (Argv0 :: pre ++ flag_token (Name D) v :: post) EF st0 = None).
Proof.
  split.
  - intros Args Hok. unfold ParseFlags. cbn [drop]. by apply ParseArgs_returns.
  - intros pre post D v st Hrun Hz HD HU Hv. unfold ParseFlags in *.
    change (drop 1 (Argv0 :: pre)) with pre in Hrun.
    change (drop 1 (Argv0 :: pre ++ flag_token (Name D) v :: post))
      with (pre ++ flag_token (Name D) v :: post).
    rewrite (ParseArgs_app _ _ _ _ Hrun Hz).
    cbn [ParseArgs].
    destruct (ParseOneFlag _ _ (flag_token (Name D) v) st)
      as [[parsed s1]|] eqn:Hone; [|done].
    destruct (ParseOneFlag_finds FlagDescriptions stoul Hwf Hplain D v _ _ _
                HD Hone) as [_ (_ & Hu & _)].
    destruct (Hu HU) as (n & Hn & _). congruence.
Qed.

(** *** The hint for a flag written with two dashes *)

Lemma count_fmt_DidYouMean (Param : string) (Fs : list FlagDescription)
  (st : DriverState) :
  count_fmt did_you_mean_hint (Out (DidYouMean Param Fs st))
  = (count_fmt did_you_mean_hint (Out st)
     + length (filter (fun D => is_Some (FlagValue (ptr_add Param 1) (Name D)))
                 Fs))%nat.
Proof.
  revert st. induction Fs as [|D Fs IH]; intros st; cbn [DidYouMean].
  - simpl. lia.
  - rewrite IH, filter_cons.
    destruct (FlagValue (ptr_add Param 1) (Name D)) as [Str|] eqn:HV.
    + rewrite decide_True by by eexists.
      unfold print. cbn [Out]. rewrite count_fmt_app. simpl. lia.
    + rewrite decide_False by by intros [? [=]]. done.
Qed.

Lemma filter_named (N v : string) (Fs : list FlagDescription) :
  NoDup (Name <$> Fs) ->
  Forall (fun D => plain_name (Name D) = true) Fs ->
  plain_name N = true ->
  length (filter (fun D => is_Some (FlagValue (flag_token N v) (Name D))) Fs)
  = if bool_decide (N ∈ Name <$> Fs) then 1%nat else O.
Proof.
  intros Hnd Hpl HN. induction Fs as [|D Fs IH]; [done|].
  rewrite fmap_cons, NoDup_cons in Hnd. destruct Hnd as [Hnotin Hnd].
  apply Forall_cons in Hpl as [HplD Hpl].
  rewrite filter_cons, fmap_cons. specialize (IH Hnd Hpl).
  destruct (decide (N = Name D)) as [->|Hne].
  - rewrite decide_True by (eexists; by apply FlagValue_Some).
    cbn [length]. rewrite IH.
    rewrite (bool_decide_eq_false_2 _ Hnotin).
    rewrite bool_decide_eq_true_2 by by left. done.
  - rewrite decide_False.
    + rewrite IH. destruct (decide (N ∈ Name <$> Fs)) as [Hin|Hnin].
      * rewrite (bool_decide_eq_true_2 _ Hin).
        rewrite bool_decide_eq_true_2 by by right. done.
      * rewrite (bool_decide_eq_false_2 _ Hnin).
        rewrite bool_decide_eq_false_2; [done|].
        rewrite elem_of_cons. by intros [?|?].
    + intros [Str HV]. apply FlagValue_Some in HV.
      by destruct (flag_token_inj _ _ _ _ HN HplD HV).
Qed.

Lemma Out_DidYouMean (Param : string) (Fs : list FlagDescription)
  (st : DriverState) :
  Out (DidYouMean Param Fs st)
  = Out st
    ++ replicate
         (length (filter
            (fun D => is_Some (FlagValue (ptr_add Param 1) (Name D))) Fs))
         (Printf did_you_mean_hint [AStr (ptr_add Param 1)]).
Proof.
  revert st. induction Fs as [|D Fs IH]; intros st; cbn [DidYouMean].
  - cbn. by rewrite app_nil_r.
  - rewrite IH, filter_cons.
    destruct (FlagValue (ptr_add Param 1) (Name D)) as [Str|] eqn:HV.
    + rewrite decide_True by by eexists.
      unfold print. cbn [Out length replicate]. by rewrite <- app_assoc.
    + rewrite decide_False by by intros [? [=]]. done.
Qed.

Lemma PrintedWarning_DidYouMean (Param : string) (Fs : list FlagDescription)
  (st : DriverState) :
  PrintedWarning (DidYouMean Param Fs st) = PrintedWarning st.
Proof.
  revert st. induction Fs as [|D Fs IH]; intros st; cbn [DidYouMean]; [done|].
  rewrite IH. by destruct (FlagValue _ _).
Qed.

(** X29: the hint for two dashes.  On the argument [--Name=v], [Name]
    holding no [=] and not starting with a dash, [ParseOneFlag] returns
    true, changes neither [Flags] nor [Inputs], sets [PrintedWarning], and
    prints exactly this: the notice about [--] unless [PrintedWarning] was
    set already, then the hint
    [WARNING: did you mean '%s' (single dash)?] with [-Name=v] for [%s],
    once when [Name] is a registered flag and not at all when it is not. *)
Theorem ParseOneFlag_two_dashes (N v : string) (st : DriverState) :
  plain_name N = true ->
  exists st',
    ParseOneFlag FlagDescriptions stoul ("-" +:+ flag_token N v) st
      = Some (true, st')
    /\ same_flags_and_inputs st' st
    /\ count_fmt did_you_mean_hint (Out st')
       = (count_fmt did_you_mean_hint (Out st)
          + if bool_decide (N ∈ Name <$> FlagDescriptions) then 1 else 0)%nat
    /\ PrintedWarning st' = true
    /\ Out st'
       = Out st
         ++ (if PrintedWarning st then []
             else [Printf ignored_flags_notice []])
         ++ (if bool_decide (N ∈ Name <$> FlagDescriptions)
             then [Printf did_you_mean_hint [AStr (flag_token N v)]]
             else []).
Proof.
  intros HN. unfold ParseOneFlag.
  change (char_at ("-" +:+ flag_token N v) 0) with "-"%char.
  change (char_at ("-" +:+ flag_token N v) 1) with "-"%char.
  cbn [Ascii.eqb Bool.eqb negb]. eexists. split; [reflexivity|].
  split; [|split; [|split]].
  - split; rewrite ?DidYouMean_Flags, ?DidYouMean_Inputs;
      by destruct (negb (PrintedWarning st)).
  - rewrite count_fmt_DidYouMean.
    change (ptr_add ("-" +:+ flag_token N v) 1) with (flag_token N v).
    rewrite (filter_named N v FlagDescriptions (proj2 Hwf) Hplain HN).
    f_equal. destruct (negb (PrintedWarning st)); [|done].
    unfold print, with_PrintedWarning. cbn [Out].
    rewrite count_fmt_app. simpl. lia.
  - rewrite PrintedWarning_DidYouMean.
    by destruct (PrintedWarning st) eqn:HP.
  - rewrite Out_DidYouMean.
    change (ptr_add ("-" +:+ flag_token N v) 1) with (flag_token N v).
    rewrite (filter_named N v FlagDescriptions (proj2 Hwf) Hplain HN).
    destruct (PrintedWarning st); cbn [negb];
      unfold print, with_PrintedWarning; cbn [Out];
      rewrite <- ?app_assoc; f_equal; cbn [app]; repeat f_equal;
      by case_bool_decide.
Qed.

End ParserThrows.

Lemma ParseFlags_throws_witness :
  ParseFlags example_registry example_stoul
    ["fuzz"; "-runs=2"; "-jobs=many"; "corpus"]
    {| LLVMFuzzerInitialize := None; LLVMFuzzerCustomMutator := None |}
    initial_state = None.
Proof.
  destruct (ParseFlags example_registry example_stoul ["fuzz"; "-runs=2"]
              {| LLVMFuzzerInitialize := None; LLVMFuzzerCustomMutator := None |}
              initial_state) as [st|] eqn:Hrun;
    [|vm_compute in Hrun; discriminate Hrun].
  apply (proj2 (ParseFlags_throws example_registry example_stoul
                  example_registry_well_formed example_registry_plain
                  "fuzz" _ initial_state)
           ["-runs=2"] ["corpus"]
           (FUZZER_FLAG_UNSIGNED "jobs" 0 "Number of jobs to run.")
           "many" st).
  - exact Hrun.
  - vm_compute in Hrun. injection Hrun as <-. reflexivity.
  - unfold example_registry. rewrite !elem_of_cons. auto 10.
  - reflexivity.
  - reflexivity.
Defined.

Lemma ParseOneFlag_two_dashes_witness :
  exists st',
    ParseOneFlag example_registry example_stoul "--runs=3" initial_state
      = Some (true, st')
    /\ count_fmt did_you_mean_hint (Out st') = 1%nat
    /\ Out st'
       = [Printf ignored_flags_notice [];
          Printf did_you_mean_hint [AStr "-runs=3"]].
Proof.
  destruct (ParseOneFlag_two_dashes example_registry example_stoul
              example_registry_well_formed example_registry_plain
              "runs" "3" initial_state) as (st' & Hrun & _ & Hcount & _ & Hout);
    [reflexivity|].
  exists st'. split; [exact Hrun|]. split.
  - rewrite Hcount. vm_compute. reflexivity.
  - rewrite Hout. vm_compute. reflexivity.
Defined.

